(** * Tic-tac-toe search engine (Homework4/solutions): game contract,
      exact minimax, position evaluators and the MCTS driver.

    The development embeds [game.py], [minimax.py], [evaluators.py] and
    [mcts.py].  Python values are modelled as follows:
    - [int] is [Z]; [float] is the kernel's binary64 [float] (so [nan],
      [infinity] and signed zeros behave as in CPython);
    - [str] is [string]; a [tuple[str, ...]] board is a [list string];
    - a raised exception is the [Raise] constructor of [res];
    - [dict[str, float]] is a [gmap string float];
    - [random.Random] is an abstract generator, see [PyRandom]. *)

From Stdlib Require Import ZArith Floats Lia List Sorted.
From stdpp Require Import gmap strings list.

Set Warnings "-inexact-float,-register-all".

Local Open Scope string_scope.
Local Open Scope list_scope.
Local Open Scope Z_scope.

(** ** Exceptions and results *)

(** The exceptions the modelled code raises.  [OutOfFuel] is not a Python
    exception: it marks the exhaustion of the bound given to a
    [while True] loop, and is shown never to occur on well-formed states. *)
Inductive exn : Type :=
| ValueError
| IndexError
| ZeroDivisionError
| AssertionError
| KeyError
| OutOfFuel.

Inductive res (A : Type) : Type :=
| Ok (a : A)
| Raise (e : exn).

Arguments Ok {A} a.
Arguments Raise {A} e.

#[global] Instance res_ret : MRet res := fun _ a => Ok a.
#[global] Instance res_bind : MBind res := fun _ _ k m =>
  match m with
  | Ok a => k a
  | Raise e => Raise e
  end.

#[global] Instance res_fmap : FMap res := fun _ _ f m =>
  match m with
  | Ok a => Ok (f a)
  | Raise e => Raise e
  end.

Definition is_ok {A : Type} (m : res A) : bool :=
  match m with Ok _ => true | Raise _ => false end.

(** ** game.py *)

Module Game.

Definition PLAYER_X : string := "X".
Definition PLAYER_O : string := "O".
Definition EMPTY : string := ".".
Definition DRAW : string := "DRAW".

Definition WIN_LINES : list (nat * nat * nat) :=
  [ (0, 1, 2); (3, 4, 5); (6, 7, 8);
    (0, 3, 6); (1, 4, 7); (2, 5, 8);
    (0, 4, 8); (2, 4, 6) ]%nat.

Record GameState : Type := mkGameState {
  board : list string;
  player : string
}.

(** What [__post_init__] lets through. *)
Definition valid_state (s : GameState) : Prop :=
  length (board s) = 9%nat /\ (player s = PLAYER_X \/ player s = PLAYER_O).

(** The dataclass constructor followed by [__post_init__]. *)
Definition new_state (b : list string) (p : string) : res GameState :=
  if negb (Nat.eqb (length b) 9) then Raise ValueError
  else if negb (String.eqb p PLAYER_X || String.eqb p PLAYER_O)
       then Raise ValueError
       else Ok (mkGameState b p).

Definition initial_state : GameState :=
  mkGameState (replicate 9 EMPTY) PLAYER_X.

Definition other_player (p : string) : string :=
  if String.eqb p PLAYER_X then PLAYER_O else PLAYER_X.

(** [[idx for idx, cell in enumerate(cells) if cell == EMPTY]], counting
    from [i]. *)
Fixpoint empty_indices (i : Z) (cells : list string) : list Z :=
  match cells with
  | [] => []
  | c :: rest =>
      if String.eqb c EMPTY then i :: empty_indices (i + 1) rest
      else empty_indices (i + 1) rest
  end.

Definition legal_moves (s : GameState) : list Z :=
  empty_indices 0 (board s).

(** [cells[i]] for an index inside the nine cells. *)
Definition cell (cells : list string) (i : nat) : string :=
  nth i cells EMPTY.

Definition apply_move (s : GameState) (move : Z) : res GameState :=
  if (move <? 0) || (8 <? move) then Raise ValueError
  else
    match board s !! Z.to_nat move with
    | None => Raise IndexError
    | Some c =>
        if negb (String.eqb c EMPTY) then Raise ValueError
        else new_state (<[Z.to_nat move := player s]> (board s))
                       (other_player (player s))
    end.

Definition line_winner (cells : list string) (l : nat * nat * nat) : bool :=
  let '(a, b, c) := l in
  negb (String.eqb (cell cells a) EMPTY)
  && String.eqb (cell cells a) (cell cells b)
  && String.eqb (cell cells b) (cell cells c).

Fixpoint winner_in (lines : list (nat * nat * nat)) (cells : list string)
  : option string :=
  match lines with
  | [] => None
  | l :: rest =>
      if line_winner cells l then Some (cell cells (fst (fst l)))
      else winner_in rest cells
  end.

Definition winner (cells : list string) : option string :=
  winner_in WIN_LINES cells.

(** [EMPTY in cells] *)
Definition has_empty (cells : list string) : bool :=
  existsb (fun c => String.eqb c EMPTY) cells.

Definition terminal_outcome (s : GameState) : option string :=
  match winner (board s) with
  | Some who => Some who
  | None => if negb (has_empty (board s)) then Some DRAW else None
  end.

Definition terminal_value (s : GameState) (perspective : string)
  : option float :=
  match terminal_outcome s with
  | None => None
  | Some outcome =>
      if String.eqb outcome DRAW then Some 0.5%float
      else if String.eqb outcome perspective then Some 1%float
           else Some 0%float
  end.

Definition state_key (s : GameState) : string :=
  String.append (String.concat "" (board s))
                (String.append ":" (player s)).

(** [cells[start : start + 3]] *)
Definition slice3 (cells : list string) (start : nat) : list string :=
  firstn 3 (skipn start cells).

Definition newline : string := String (Ascii.ascii_of_nat 10) EmptyString.

(** [GameState.render] *)
Definition render (s : GameState) : string :=
  String.concat newline
    (map (fun row => String.concat " " (slice3 (board s) (row * 3)))
         [0; 1; 2]%nat).

(** [c in {PLAYER_X, PLAYER_O, EMPTY}] for a character of the text. *)
Definition is_symbol (c : Ascii.ascii) : bool :=
  let c := String c EmptyString in
  String.eqb c PLAYER_X || String.eqb c PLAYER_O || String.eqb c EMPTY.

(** [[c for c in board_text if c in {PLAYER_X, PLAYER_O, EMPTY}]] *)
Definition cleaned (board_text : string) : list string :=
  map (fun c => String c EmptyString)
      (List.filter is_symbol (String.list_ascii_of_string board_text)).

Definition parse_state (board_text p : string) : res GameState :=
  if negb (Nat.eqb (length (cleaned board_text)) 9) then Raise ValueError
  else new_state (cleaned board_text) p.

End Game.

(** ** random.Random *)

(** A pseudo-random generator as the code uses it: [Random(seed)] builds a
    generator from an integer seed, and [_randbelow(n)] draws an index
    below [n > 0] and advances the generator. *)
Class PyRandom (R : Type) : Type := {
  seeded : Z -> R;
  randbelow : R -> nat -> nat * R;
  randbelow_lt : forall r n, (0 < n)%nat -> (fst (randbelow r n) < n)%nat
}.

(** [rng.choice(seq)]: [IndexError] on an empty sequence. *)
Definition choice {R : Type} `{PyRandom R} {A : Type} (rng : R) (seq : list A)
  : res (A * R) :=
  match seq with
  | [] => Raise IndexError
  | _ =>
      let '(i, rng') := randbelow rng (length seq) in
      match seq !! i with
      | Some x => Ok (x, rng')
      | None => Raise IndexError
      end
  end.

(** A list comprehension whose body may raise. *)
Fixpoint map_res {A B : Type} (f : A -> res B) (l : list A) : res (list B) :=
  match l with
  | [] => Ok []
  | x :: rest =>
      y ← f x;
      ys ← map_res f rest;
      mret (y :: ys)
  end.

(** Python's [max] and [min] over floats: the first element is kept unless
    a later one compares strictly greater (smaller). *)
Fixpoint max_from (best : float) (l : list float) : float :=
  match l with
  | [] => best
  | x :: rest => max_from (if PrimFloat.ltb best x then x else best) rest
  end.

Fixpoint min_from (best : float) (l : list float) : float :=
  match l with
  | [] => best
  | x :: rest => min_from (if PrimFloat.ltb x best then x else best) rest
  end.

Definition py_max (l : list float) : res float :=
  match l with
  | [] => Raise ValueError
  | x :: rest => Ok (max_from x rest)
  end.

Definition py_min (l : list float) : res float :=
  match l with
  | [] => Raise ValueError
  | x :: rest => Ok (min_from x rest)
  end.

(** ** minimax.py *)

Module Minimax.
Import Game.

(** [minimax_value], with the recursion bounded by [fuel].  The
    [lru_cache] decorator only memoises this pure function. *)
Fixpoint minimax_fuel (fuel : nat) (state : GameState) (perspective : string)
  : res float :=
  match terminal_value state perspective with
  | Some terminal => Ok terminal
  | None =>
      match fuel with
      | O => Raise OutOfFuel
      | S fuel' =>
          child_values ←
            map_res (fun move =>
                       child ← apply_move state move;
                       minimax_fuel fuel' child perspective)
                    (legal_moves state);
          if String.eqb (player state) perspective
          then py_max child_values
          else py_min child_values
      end
  end.

(** Every move fills one empty cell, so the number of empty cells bounds
    the depth of the recursion. *)
Definition minimax_value (state : GameState) (perspective : string)
  : res float :=
  minimax_fuel (length (legal_moves state)) state perspective.

Definition best_moves (state : GameState) : res (list (Z * float)) :=
  let perspective := player state in
  scored ←
    map_res (fun move =>
               child ← apply_move state move;
               value ← minimax_value child perspective;
               mret (move, value))
            (legal_moves state);
  match scored with
  | [] => Ok []
  | _ =>
      best_value ← py_max (map snd scored);
      mret (List.filter (fun mv => PrimFloat.eqb (snd mv) best_value) scored)
  end.

Definition choose_perfect_move {R : Type} `{PyRandom R}
    (state : GameState) (rng : R) : res ((Z * float) * R) :=
  choices ← best_moves state;
  match choices with
  | [] => Raise ValueError
  | _ => choice rng choices
  end.

End Minimax.

(** ** Library functions the code calls *)

(** [float(n)] for a Python [int]: the nearest binary64 value. *)
Definition float_of_int (n : Z) : float :=
  SF2Prim (binary_normalize prec emax n 0 false).

(** [a / n] for a float [a] and an [int] [n]. *)
Definition div_int (a : float) (n : Z) : res float :=
  if n =? 0 then Raise ZeroDivisionError
  else Ok (PrimFloat.div a (float_of_int n)).

(** [a / b] for two floats. *)
Definition div_float (a b : float) : res float :=
  if PrimFloat.eqb b 0%float then Raise ZeroDivisionError
  else Ok (PrimFloat.div a b).

(** What the code takes from its host and the embedding cannot compute:
    [math.exp], [math.log] on a positive [int], the first 64 bits of the
    SHA-256 digest of a cache key (the seed of the guided rollouts), the
    chat-completion request (its answer is the content of the first
    choice, or [None] for any exception on the way, and it depends on a
    world [W] the program does not control), and
    [_parse_probability_from_response] ([json.loads], then a regular
    expression; [None] is its [ValueError]).  [math.exp] is positive, so
    [1.0 + math.exp(x)] is not zero; its [OverflowError] needs an argument
    above 709, far from the scores of a board, and is not modelled. *)
Class Host (W : Type) : Type := {
  math_exp : float -> float;
  math_log : Z -> float;
  sha256_seed : string -> Z;
  chat_completion :
    W -> string -> string -> Z -> string -> string -> option string * W;
  parse_probability : string -> option float;
  math_exp_divisor :
    forall x, PrimFloat.eqb (PrimFloat.add 1 (math_exp x)) 0 = false
}.

(** ** evaluators.py *)

Module Evaluators.
Import Game.
Local Open Scope float_scope.

(** The value of a finished playout for [root_player]. *)
Definition outcome_value (outcome root_player : string) : float :=
  if String.eqb outcome DRAW then 0.5
  else if String.eqb outcome root_player then 1 else 0.

(** [Random(seed)]: without a seed the generator is seeded from the
    operating system's entropy. *)
Definition Random {R : Type} `{PyRandom R} (seed : option Z) (entropy : Z)
  : R :=
  match seed with
  | Some n => seeded n
  | None => seeded entropy
  end.

Definition py_min2 (a b : float) : float := if b <? a then b else a.
Definition py_max2 (a b : float) : float := if a <? b then b else a.

Definition _clamp (value : float) : float := py_max2 0 (py_min2 1 value).

Definition count_eq (x : string) (marks : list string) : nat :=
  length (List.filter (String.eqb x) marks).

Definition _count_open_lines (cells : list string) (who : string)
    (player_marks : nat) : Z :=
  let opponent :=
    if negb (String.eqb who PLAYER_X) then PLAYER_X else PLAYER_O in
  Z.of_nat
    (length
       (List.filter
          (fun l : nat * nat * nat =>
             let '(a, b, c) := l in
             let marks := [cell cells a; cell cells b; cell cells c] in
             Nat.eqb (count_eq opponent marks) 0
             && Nat.eqb (count_eq who marks) player_marks)
          WIN_LINES)).

Definition _winning_moves_for_current_player (state : GameState)
    (moves : list Z) : res (list Z) :=
  flags ←
    map_res (fun move =>
               next_state ← apply_move state move;
               mret (move,
                     match terminal_outcome next_state with
                     | Some who => String.eqb who (player state)
                     | None => false
                     end))
            moves;
  mret (map fst (List.filter snd flags)).

Definition is_corner (m : Z) : bool :=
  (m =? 0)%Z || (m =? 2)%Z || (m =? 6)%Z || (m =? 8)%Z.

Definition mem_Z (m : Z) (l : list Z) : bool := existsb (Z.eqb m) l.

Section Playouts.
Context {R : Type} `{PyRandom R}.

(** The playout loop of [RandomRolloutEvaluator.evaluate]. *)
Fixpoint random_playout (fuel : nat) (sim : GameState)
    (root_player : string) (rng : R) : res (float * R) :=
  match terminal_outcome sim with
  | Some outcome => Ok (outcome_value outcome root_player, rng)
  | None =>
      match fuel with
      | O => Raise OutOfFuel
      | S fuel' =>
          '(move, rng') ← choice rng (legal_moves sim);
          sim' ← apply_move sim move;
          random_playout fuel' sim' root_player rng'
      end
  end.

(** [RandomRolloutEvaluator.evaluate]; the evaluator's only state is
    its generator. *)
Definition random_rollout_evaluate (rng : R) (state : GameState)
    (root_player : string) : res (float * R) :=
  match terminal_value state root_player with
  | Some terminal => Ok (terminal, rng)
  | None =>
      random_playout (length (legal_moves state)) state root_player rng
  end.

Definition _rollout_policy_move (state : GameState) (rng : R)
  : res (Z * R) :=
  let legal := legal_moves state in
  winning ← _winning_moves_for_current_player state legal;
  match winning with
  | _ :: _ => choice rng winning
  | [] =>
      safe_flags ←
        map_res (fun move =>
                   next_state ← apply_move state move;
                   replies ← _winning_moves_for_current_player
                               next_state (legal_moves next_state);
                   mret (move, match replies with
                               | [] => true
                               | _ => false
                               end))
                legal;
      let safe_moves := map fst (List.filter snd safe_flags) in
      let candidate_moves :=
        match safe_moves with [] => legal | _ => safe_moves end in
      if mem_Z 4 candidate_moves then Ok (4%Z, rng)
      else
        match List.filter is_corner candidate_moves with
        | [] => choice rng candidate_moves
        | corners => choice rng corners
        end
  end.

Fixpoint guided_playout (fuel : nat) (sim : GameState)
    (root_player : string) (rng : R) : res (float * R) :=
  match terminal_outcome sim with
  | Some outcome => Ok (outcome_value outcome root_player, rng)
  | None =>
      match fuel with
      | O => Raise OutOfFuel
      | S fuel' =>
          '(move, rng') ← _rollout_policy_move sim rng;
          sim' ← apply_move sim move;
          guided_playout fuel' sim' root_player rng'
      end
  end.

Definition _guided_rollout (state : GameState) (root_player : string)
    (rng : R) : res (float * R) :=
  guided_playout (length (legal_moves state)) state root_player rng.

(** The [for] loop of [_guided_rollout_average]: [n] rollouts, the
    running total and the counter of guided rollouts. *)
Fixpoint guided_rollout_loop (n : nat) (state : GameState)
    (root_player : string) (rng : R) (total : float) (count : Z)
  : res (float * Z) :=
  match n with
  | O => Ok (total, count)
  | S n' =>
      '(value, rng') ← _guided_rollout state root_player rng;
      guided_rollout_loop n' state root_player rng'
                          (total + value) (count + 1)%Z
  end.

End Playouts.

Record Stats : Type := mkStats {
  cache_hits : Z;
  cache_misses : Z;
  api_calls : Z;
  fallback_to_heuristic : Z;
  guided_rollouts : Z
}.

Record LLMPositionEvaluator : Type := mkLLM {
  provider : string;
  model : string;
  api_key : string;
  timeout_seconds : Z;
  heuristic_weight : float;
  rollout_samples : Z;
  cache : gmap string float;
  stats : Stats
}.

Definition with_stats (e : LLMPositionEvaluator) (st : Stats)
  : LLMPositionEvaluator :=
  mkLLM (provider e) (model e) (api_key e) (timeout_seconds e)
        (heuristic_weight e) (rollout_samples e) (cache e) st.

Definition with_cache (e : LLMPositionEvaluator) (c : gmap string float)
  : LLMPositionEvaluator :=
  mkLLM (provider e) (model e) (api_key e) (timeout_seconds e)
        (heuristic_weight e) (rollout_samples e) c (stats e).

Definition hit (st : Stats) : Stats :=
  mkStats (cache_hits st + 1) (cache_misses st) (api_calls st)
          (fallback_to_heuristic st) (guided_rollouts st).
Definition miss (st : Stats) : Stats :=
  mkStats (cache_hits st) (cache_misses st + 1) (api_calls st)
          (fallback_to_heuristic st) (guided_rollouts st).
Definition api_call (st : Stats) : Stats :=
  mkStats (cache_hits st) (cache_misses st) (api_calls st + 1)
          (fallback_to_heuristic st) (guided_rollouts st).
Definition fallback (st : Stats) : Stats :=
  mkStats (cache_hits st) (cache_misses st) (api_calls st)
          (fallback_to_heuristic st + 1) (guided_rollouts st).
Definition set_guided (st : Stats) (n : Z) : Stats :=
  mkStats (cache_hits st) (cache_misses st) (api_calls st)
          (fallback_to_heuristic st) n.

(** What the constructor finds at [cache_path]: no path or no file, a
    file that cannot be read or parsed, a JSON value that is not an
    object, or an object, given by its items with the outcome of
    [float(v)] on each value ([None] when the conversion raises). *)
Inductive cache_file : Type :=
| NoFile
| Unreadable
| NotAnObject
| Object (items : list (string * option float)).

Fixpoint load_items (items : list (string * option float))
    (acc : gmap string float) : option (gmap string float) :=
  match items with
  | [] => Some acc
  | (k, Some v) :: rest => load_items rest (<[k := v]> acc)
  | (_, None) :: _ => None
  end.

Definition load_cache (file : cache_file) : gmap string float :=
  match file with
  | Object items =>
      match load_items items ∅ with
      | Some c => c
      | None => ∅
      end
  | _ => ∅
  end.

(** [str.lower] and [str.strip] on ASCII text, which the provider names
    are; on other characters Python's methods follow Unicode (a
    no-break space is stripped, an accented capital lowered) and these
    do not. *)
Definition lower_char (c : Ascii.ascii) : Ascii.ascii :=
  let n := Ascii.nat_of_ascii c in
  if Nat.leb 65 n && Nat.leb n 90 then Ascii.ascii_of_nat (n + 32) else c.

Definition is_space (c : Ascii.ascii) : bool :=
  let n := Ascii.nat_of_ascii c in
  (Nat.leb 9 n && Nat.leb n 13) || (Nat.leb 28 n && Nat.leb n 32).

Fixpoint lstrip (s : string) : string :=
  match s with
  | String c rest => if is_space c then lstrip rest else s
  | EmptyString => s
  end.

Fixpoint lower (s : string) : string :=
  match s with
  | String c rest => String (lower_char c) (lower rest)
  | EmptyString => s
  end.

Definition strip (s : string) : string :=
  String.rev (lstrip (String.rev (lstrip s))).

(** [LLMPositionEvaluator.__init__]; [env_key] is the value of the
    environment variable OPENAI_API_KEY (empty when unset). *)
Definition new_evaluator (provider_arg model_arg : string)
    (api_key_arg : option string) (env_key : string) (file : cache_file)
    (timeout : Z) (weight : float) (samples : Z) : LLMPositionEvaluator :=
  mkLLM (strip (lower provider_arg)) model_arg
        (match api_key_arg with Some k => k | None => env_key end)
        timeout (_clamp weight) (Z.max 0 samples)
        (load_cache file)
        (mkStats 0 0 0 0 0).

Definition cache_key (e : LLMPositionEvaluator) (state : GameState)
    (root_player : string) : string :=
  String.concat "|"
    [provider e; model e; root_player; state_key state].

Definition _build_prompt (state : GameState) (root_player : string)
  : string :=
  let b := board state in
  let row i := String.concat " " [cell b i; cell b (i + 1); cell b (i + 2)] in
  let nl := String (Ascii.ascii_of_nat 10) EmptyString in
  String.concat ""
    [ "Root player: "; root_player; nl;
      "Player to move: "; player state; nl;
      "Board:"; nl;
      row 0%nat; nl; row 3%nat; nl; row 6%nat; nl;
      "Return only JSON." ].

Definition prompt_template : string :=
  String.concat ""
    [ "You are given a Tic-Tac-Toe board and the root player perspective. ";
      "Estimate the probability (0 to 1) that the root player eventually wins ";
      "assuming reasonably strong play. Return JSON with keys: ";
      "win_probability (number), reason (short string)." ].

Section Evaluate.
Context {R : Type} `{PyRandom R} {W : Type} `{Host W}.

Definition _guided_rollout_average (e : LLMPositionEvaluator)
    (state : GameState) (root_player key : string)
  : res (float * LLMPositionEvaluator) :=
  if (rollout_samples e <=? 0)%Z then Ok (0.5, e)
  else
    let rng : R := Random (Some (sha256_seed key)) 0 in
    '(total, count) ←
      guided_rollout_loop (Z.to_nat (rollout_samples e)) state
                          root_player rng 0
                          (guided_rollouts (stats e));
    average ← div_int total (rollout_samples e);
    mret (average, with_stats e (set_guided (stats e) count)).

Definition _heuristic_value (e : LLMPositionEvaluator)
    (state : GameState) (root_player key : string)
  : res (float * LLMPositionEvaluator) :=
  let b := board state in
  let opp := other_player root_player in
  let score := 0 in
  let score :=
    score + (if String.eqb (player state) root_player
             then 0.25 else -0.25) in
  let score :=
    if String.eqb (cell b 4) root_player then score + 0.65
    else if String.eqb (cell b 4) opp then score - 0.65
         else score in
  let corners := [cell b 0; cell b 2; cell b 6; cell b 8] in
  let root_corners := Z.of_nat (count_eq root_player corners) in
  let opp_corners := Z.of_nat (count_eq opp corners) in
  let score :=
    score + 0.20 * float_of_int (root_corners - opp_corners) in
  let root_two := _count_open_lines b root_player 2 in
  let opp_two := _count_open_lines b opp 2 in
  let root_one := _count_open_lines b root_player 1 in
  let opp_one := _count_open_lines b opp 1 in
  let score := score + 0.95 * float_of_int (root_two - opp_two) in
  let score := score + 0.18 * float_of_int (root_one - opp_one) in
  let score :=
    if String.eqb (player state) root_player && (0 <? root_two)%Z
    then score + 0.75 else score in
  let score :=
    if negb (String.eqb (player state) root_player) && (0 <? opp_two)%Z
    then score - 0.75 else score in
  base_probability ← div_float 1 (1 + math_exp (- score));
  '(rollout_probability, e') ←
    _guided_rollout_average e state root_player key;
  let blended :=
    heuristic_weight e * base_probability
    + (1 - heuristic_weight e) * rollout_probability in
  let calibrated := 0.5 + (blended - 0.5) * 0.85 in
  mret (_clamp calibrated, e').

(** [_evaluate_with_openai]: [None] stands for any exception raised
    after the call was counted. *)
Definition _evaluate_with_openai (e : LLMPositionEvaluator) (w : W)
    (state : GameState) (root_player : string)
  : option float * LLMPositionEvaluator * W :=
  let e' := with_stats e (api_call (stats e)) in
  let prompt := _build_prompt state root_player in
  let '(answer, w') :=
    chat_completion w (model e) (api_key e) (timeout_seconds e)
                    prompt_template prompt in
  match answer with
  | None => (None, e', w')
  | Some message =>
      match parse_probability message with
      | None => (None, e', w')
      | Some probability => (Some (_clamp probability), e', w')
      end
  end.

Definition nonempty (s : string) : bool :=
  match s with EmptyString => false | _ => true end.

(** [LLMPositionEvaluator.evaluate] *)
Definition evaluate (e : LLMPositionEvaluator) (w : W)
    (state : GameState) (root_player : string)
  : res (float * (LLMPositionEvaluator * W)) :=
  match terminal_value state root_player with
  | Some terminal => Ok (terminal, (e, w))
  | None =>
      let key := cache_key e state root_player in
      match cache e !! key with
      | Some cached => Ok (cached, (with_stats e (hit (stats e)), w))
      | None =>
          let e := with_stats e (miss (stats e)) in
          '(value, (e, w)) ←
            (if String.eqb (provider e) "openai" && nonempty (api_key e)
             then
               match _evaluate_with_openai e w state root_player with
               | (Some value, e, w) => Ok (value, (e, w))
               | (None, e, w) =>
                   let e := with_stats e (fallback (stats e)) in
                   '(value, e) ← _heuristic_value e state root_player key;
                   mret (value, (e, w))
               end
             else
               let e :=
                 if String.eqb (provider e) "openai"
                    && negb (nonempty (api_key e))
                 then with_stats e (fallback (stats e)) else e in
               '(value, e) ← _heuristic_value e state root_player key;
               mret (value, (e, w)));
          mret (value, (with_cache e (<[key := value]> (cache e)), w))
      end
  end.

End Evaluate.

End Evaluators.

(** ** mcts.py *)

(** Anything with an [evaluate(state, root_player)] method; [E] is the
    evaluator's mutable state. *)
Class Evaluator (E : Type) : Type := {
  ev_evaluate : E -> Game.GameState -> string -> res (float * E)
}.

#[global] Instance RandomRolloutEvaluator {R : Type} `{PyRandom R}
  : Evaluator R :=
  {| ev_evaluate := Evaluators.random_rollout_evaluate |}.

#[global] Instance LLMEvaluator {R : Type} (G : PyRandom R)
    {W : Type} `{Host W}
  : Evaluator (Evaluators.LLMPositionEvaluator * W) :=
  {| ev_evaluate := fun ew state root_player =>
       Evaluators.evaluate (R := R) (fst ew) (snd ew) state root_player |}.

Module MCTS.
Import Game.
Local Open Scope float_scope.

(** A search node.  [children] is the dict of children in insertion
    order, keyed by move.  The [parent] reference of the code is the
    tree structure itself: a node is owned by its parent's [children],
    and the root has none. *)
Inductive Node : Type :=
  mkNode (state : GameState) (move : option Z)
         (children : list (Z * Node)) (untried_moves : list Z)
         (visits : Z) (value_sum : float).

Definition state (n : Node) : GameState :=
  match n with mkNode s _ _ _ _ _ => s end.
Definition move (n : Node) : option Z :=
  match n with mkNode _ m _ _ _ _ => m end.
Definition children (n : Node) : list (Z * Node) :=
  match n with mkNode _ _ c _ _ _ => c end.
Definition untried_moves (n : Node) : list Z :=
  match n with mkNode _ _ _ u _ _ => u end.
Definition visits (n : Node) : Z :=
  match n with mkNode _ _ _ _ v _ => v end.
Definition value_sum (n : Node) : float :=
  match n with mkNode _ _ _ _ _ v => v end.

(** [Node(state=..., move=...)] followed by [__post_init__]. *)
Definition new_node (s : GameState) (mv : option Z) : Node :=
  mkNode s mv [] (legal_moves s) 0 0.

Definition is_terminal (s : GameState) : bool :=
  match terminal_outcome s with Some _ => true | None => false end.

Definition is_nil {A : Type} (l : list A) : bool :=
  match l with [] => true | _ => false end.

Definition mean_value (n : Node) : res float :=
  if (visits n =? 0)%Z then Ok 0 else div_int (value_sum n) (visits n).

(** [d[k] = v] on an insertion-ordered dict. *)
Fixpoint dict_set {V : Type} (k : Z) (v : V) (d : list (Z * V))
  : list (Z * V) :=
  match d with
  | [] => [(k, v)]
  | (k', v') :: rest =>
      if (k' =? k)%Z then (k, v) :: rest else (k', v') :: dict_set k v rest
  end.

(** Work on the value stored under [k] and store what comes back; the
    key is looked up as [d[k]] is. *)
Fixpoint dict_update {V A : Type} (f : V -> res (V * A)) (k : Z)
    (d : list (Z * V)) : res (list (Z * V) * A) :=
  match d with
  | [] => Raise KeyError
  | (k', v) :: rest =>
      if (k' =? k)%Z then
        '(v', a) ← f v;
        mret ((k', v') :: rest, a)
      else
        '(rest', a) ← dict_update f k rest;
        mret ((k', v) :: rest', a)
  end.

(** [l.remove(x)]: the first occurrence goes. *)
Fixpoint list_remove (x : Z) (l : list Z) : list Z :=
  match l with
  | [] => []
  | y :: rest => if (y =? x)%Z then rest else y :: list_remove x rest
  end.

Record DecisionStats : Type := mkDecisionStats {
  ds_move : Z;
  ds_visits : Z;
  estimated_value : float;
  elapsed_ms : float;
  ms_per_iteration : float
}.

Section Agent.
Context {R : Type} `{PyRandom R} {W : Type} `{Host W}
        {E : Type} `{Evaluator E}.

Record MCTSAgent : Type := mkAgent {
  evaluator : E;
  iterations : Z;
  exploration : float;
  rng : R;
  name : string;
  last_decision : option DecisionStats
}.

(** [MCTSAgent.__init__] *)
Definition new_agent (ev : E) (iters : Z) (c : float)
    (seed : option Z) (entropy : Z) (nm : string) : res MCTSAgent :=
  if (iters <=? 0)%Z then Raise ValueError
  else Ok (mkAgent ev iters c (Evaluators.Random seed entropy) nm None).

(** The inner function [ucb] of [_select_child].  [math.log] of an
    [int] that is at least 1 is not negative, so [math.sqrt] gets no
    negative argument and its domain error is not modelled. *)
Definition ucb (c : float) (same_player : bool) (log_parent : float)
    (child : Node) : res float :=
  if (visits child =? 0)%Z then Ok infinity
  else
    root_value ← div_int (value_sum child) (visits child);
    let exploit := if same_player then root_value else 1 - root_value in
    ratio ← div_int log_parent (visits child);
    let explore := c * PrimFloat.sqrt ratio in
    mret (exploit + explore).

(** The [for] loop of [_select_child] over [node.children.values()]. *)
Fixpoint best_children_loop (c : float) (same_player : bool)
    (log_parent : float) (l : list (Z * Node))
    (best_score : float) (best : list (Z * Node))
  : res (list (Z * Node)) :=
  match l with
  | [] => Ok best
  | kc :: rest =>
      score ← ucb c same_player log_parent (snd kc);
      if best_score <? score
      then best_children_loop c same_player log_parent rest score [kc]
      else if score =? best_score
           then best_children_loop c same_player log_parent rest
                                   best_score (best ++ [kc])
           else best_children_loop c same_player log_parent rest
                                   best_score best
  end.

(** [_select_child]; the child is returned with its key. *)
Definition _select_child (c : float) (g : R) (node : Node)
    (root_player : string) : res ((Z * Node) * R) :=
  if is_nil (children node) then Raise AssertionError
  else
    let log_parent := math_log (Z.max 1 (visits node)) in
    let node_player := player (state node) in
    best ← best_children_loop c (String.eqb node_player root_player)
                              log_parent (children node)
                              neg_infinity [];
    choice g best.

(** One iteration of the loop of [choose_move] below [node]:
    selection while the node is not terminal, fully expanded and has
    children (the recursive call works on the selected child and puts
    the result back under its key); then expansion of an untried
    move if there is one; evaluation of the node reached; and the
    backpropagation of the value, which adds one visit and the value
    to every node on the way back to the root. *)
Fixpoint iterate (c : float) (root_player : string) (node : Node)
    (g : R) (ev : E) {struct node} : res (Node * float * R * E) :=
  match node with
  | mkNode s mv ch un vis vs =>
      if negb (is_terminal s) && is_nil un && negb (is_nil ch) then
        '(kc, g1) ← _select_child c g node root_player;
        '(ch', (value, g2, ev2)) ←
          dict_update
            (fun child =>
               '(child', value, g2, ev2) ←
                 iterate c root_player child g1 ev;
               mret (child', (value, g2, ev2)))
            (fst kc) ch;
        mret (mkNode s mv ch' un (vis + 1)%Z (vs + value), value, g2, ev2)
      else if negb (is_terminal s) && negb (is_nil un) then
        '(m, g1) ← choice g un;
        s' ← apply_move s m;
        '(value, ev2) ← ev_evaluate ev s' root_player;
        let child :=
          mkNode s' (Some m) [] (legal_moves s') 1 (0 + value) in
        mret (mkNode s mv (dict_set m child ch) (list_remove m un)
                     (vis + 1)%Z (vs + value),
              value, g1, ev2)
      else
        '(value, ev2) ← ev_evaluate ev s root_player;
        mret (mkNode s mv ch un (vis + 1)%Z (vs + value), value, g, ev2)
  end.

(** The [for _ in range(self.iterations)] loop. *)
Fixpoint search (n : nat) (c : float) (root_player : string)
    (root : Node) (g : R) (ev : E) : res (Node * R * E) :=
  match n with
  | O => Ok (root, g, ev)
  | S n' =>
      '(root', _, g', ev') ← iterate c root_player root g ev;
      search n' c root_player root' g' ev'
  end.

(** The sort key [(c.visits, c.mean_value())] and Python's [<] on such
    tuples. *)
Definition rank_key (n : Node) : res (Z * float) :=
  m ← mean_value n; mret (visits n, m).

Definition key_lt (a b : Z * float) : bool :=
  if (fst a =? fst b)%Z
  then (if snd a =? snd b then false else snd a <? snd b)
  else (fst a <? fst b)%Z.

(** [sorted(..., reverse=True)]: a stable sort in descending order.
    That is what Python returns for keys that [<] orders; with a NaN
    mean among the keys the comparisons are not an order, what [sorted]
    returns depends on its merge strategy, and this insertion sort may
    rank differently. *)
Fixpoint insert_desc (x : (Z * float) * Node)
    (l : list ((Z * float) * Node)) : list ((Z * float) * Node) :=
  match l with
  | [] => [x]
  | y :: rest =>
      if key_lt (fst x) (fst y) then y :: insert_desc x rest
      else x :: l
  end.

Fixpoint sorted_desc (l : list ((Z * float) * Node))
  : list ((Z * float) * Node) :=
  match l with
  | [] => []
  | x :: rest => insert_desc x (sorted_desc rest)
  end.

(** [choose_move]; [start] and [stop] are the two readings of
    [time.perf_counter()]. *)
Definition choose_move (a : MCTSAgent) (root_state : GameState)
    (start stop : float) : res (Z * MCTSAgent) :=
  let root := new_node root_state None in
  let root_player := player root_state in
  '(root, g, ev) ←
    search (Z.to_nat (iterations a)) (exploration a) root_player
           root (rng a) (evaluator a);
  let elapsed := (stop - start) * 1000 in
  if is_nil (children root) then
    '(m, g) ← choice g (legal_moves root_state);
    per_iteration ← div_int elapsed (iterations a);
    mret (m, mkAgent ev (iterations a) (exploration a) g (name a)
                     (Some (mkDecisionStats m 0 0.5 elapsed
                                            per_iteration)))
  else
    keyed ← map_res (fun kc => k ← rank_key (snd kc); mret (k, snd kc))
                    (children root);
    match sorted_desc keyed with
    | [] => Raise IndexError
    | (_, best) :: _ =>
        estimate ← mean_value best;
        per_iteration ← div_int elapsed (iterations a);
        let decision :=
          mkDecisionStats
            (match move best with Some m => m | None => (-1)%Z end)
            (visits best) estimate elapsed per_iteration in
        match move best with
        | Some m =>
            mret (m, mkAgent ev (iterations a) (exploration a) g
                             (name a) (Some decision))
        | None =>
            '(m, g) ← choice g (legal_moves root_state);
            mret (m, mkAgent ev (iterations a) (exploration a) g
                             (name a) (Some decision))
        end
    end.

End Agent.

End MCTS.

(** ** experiment.py *)

(** Anything [play_game] can seat: an object with a [name], a
    [choose_move(state)] method and, after a move, a [last_decision]
    from which [estimated_value] and [ms_per_iteration] are read.  [A] is
    the agent's mutable state; the two floats given to [agent_choose] are
    the readings of [time.perf_counter()] during the call, and
    [agent_decision] gives the two figures of [last_decision] ([None]
    when the attribute is [None]). *)
Class Agent (A : Type) : Type := {
  agent_name : A -> string;
  agent_choose : A -> Game.GameState -> float -> float -> res (Z * A);
  agent_decision : A -> option (float * float)
}.

Module Experiment.
Import Game Minimax.
Local Open Scope float_scope.

(** The [last_decision] dict of a [MinimaxAgent]. *)
Record MinimaxDecision : Type := mkMinimaxDecision {
  md_move : Z;
  md_estimated_value : float;
  md_ms_per_iteration : float;
  md_elapsed_ms : float
}.

Record MinimaxAgent (R : Type) : Type := mkMinimaxAgent {
  mm_rng : R;
  mm_name : string;
  mm_last_decision : option MinimaxDecision
}.

Arguments mkMinimaxAgent {R} _ _ _.
Arguments mm_rng {R} _.
Arguments mm_name {R} _.
Arguments mm_last_decision {R} _.

(** [MinimaxAgent.__init__] *)
Definition new_minimax_agent {R : Type} `{PyRandom R} (seed : option Z)
    (entropy : Z) (nm : string) : MinimaxAgent R :=
  mkMinimaxAgent (Evaluators.Random seed entropy) nm None.

(** [MinimaxAgent.choose_move] *)
Definition minimax_choose_move {R : Type} `{PyRandom R}
    (a : MinimaxAgent R) (state : GameState) (start stop : float)
  : res (Z * MinimaxAgent R) :=
  '((move, value), g) ← choose_perfect_move state (mm_rng a);
  let elapsed_ms := (stop - start) * 1000 in
  mret (move,
        mkMinimaxAgent g (mm_name a)
          (Some (mkMinimaxDecision move value 0 elapsed_ms))).

#[global] Instance MinimaxPlayer {R : Type} `{PyRandom R}
  : Agent (MinimaxAgent R) :=
  {| agent_name := mm_name;
     agent_choose := minimax_choose_move;
     agent_decision := fun a =>
       match mm_last_decision a with
       | Some d => Some (md_estimated_value d, md_ms_per_iteration d)
       | None => None
       end |}.

#[global] Instance MCTSPlayer {R : Type} `{PyRandom R} {W : Type} `{Host W}
    {E : Type} `{Evaluator E}
  : Agent (@MCTS.MCTSAgent R E) :=
  {| agent_name := MCTS.name;
     agent_choose := fun a state start stop =>
       MCTS.choose_move (W := W) a state start stop;
     agent_decision := fun a =>
       match MCTS.last_decision a with
       | Some d => Some (MCTS.estimated_value d, MCTS.ms_per_iteration d)
       | None => None
       end |}.

(** A row of [move_logs]. *)
Record MoveLog : Type := mkMoveLog {
  log_agent : string;
  log_player : string;
  log_move : Z;
  log_estimated_value : float;
  log_ms_per_iteration : float
}.

Definition log_row {A : Type} `{Agent A} (a : A) (state : GameState)
    (move : Z) : MoveLog :=
  match agent_decision a with
  | Some (est, ms_iter) =>
      mkMoveLog (agent_name a) (player state) move est ms_iter
  | None => mkMoveLog (agent_name a) (player state) move 0.5 0
  end.

Section PlayGame.
Context {AX : Type} `{Agent AX} {AO : Type} `{Agent AO}.

(** The [while True] loop of [play_game], bounded by [fuel]; [clock k]
    holds the clock readings during the [k]-th call of [choose_move]. *)
Fixpoint play_loop (fuel : nat) (clock : nat -> float * float) (k : nat)
    (state : GameState) (agent_x : AX) (agent_o : AO)
    (move_logs : list MoveLog)
  : res (string * list MoveLog * (AX * AO)) :=
  match terminal_outcome state with
  | Some outcome => Ok (outcome, move_logs, (agent_x, agent_o))
  | None =>
      match fuel with
      | O => Raise OutOfFuel
      | S fuel' =>
          if String.eqb (player state) PLAYER_X then
            '(move, agent_x) ←
              agent_choose agent_x state (fst (clock k)) (snd (clock k));
            let row := log_row agent_x state move in
            state' ← apply_move state move;
            play_loop fuel' clock (S k) state' agent_x agent_o
                      (move_logs ++ [row])
          else
            '(move, agent_o) ←
              agent_choose agent_o state (fst (clock k)) (snd (clock k));
            let row := log_row agent_o state move in
            state' ← apply_move state move;
            play_loop fuel' clock (S k) state' agent_x agent_o
                      (move_logs ++ [row])
      end
  end.

(** [play_game]: a game has at most as many moves as the board has
    cells.  The agents are returned in the state the game left them. *)
Definition play_game (agent_x : AX) (agent_o : AO)
    (clock : nat -> float * float)
  : res (string * list MoveLog * (AX * AO)) :=
  play_loop (length (legal_moves initial_state)) clock 0
            initial_state agent_x agent_o [].

End PlayGame.

End Experiment.

(** ** Stand-ins for the host *)

(** Concrete generators and host functions, used to run the model on
    examples.  Every general statement below holds for all instances of
    [PyRandom] and [Host], these included. *)
Module Doubles.
Local Open Scope float_scope.

Definition lcg_next (r : Z) : Z :=
  ((r * 1103515245 + 12345) mod 2147483648)%Z.

Definition lcg_randbelow (r : Z) (n : nat) : nat * Z :=
  (Z.to_nat (lcg_next r / 65536) mod n, lcg_next r)%nat.

Lemma lcg_randbelow_lt (r : Z) (n : nat) :
  (0 < n)%nat -> (fst (lcg_randbelow r n) < n)%nat.
Proof. intros Hn. simpl. apply Nat.mod_upper_bound. lia. Qed.

(** A linear congruential generator. *)
#[global] Instance lcg : PyRandom Z :=
  {| seeded := fun n => n;
     randbelow := lcg_randbelow;
     randbelow_lt := lcg_randbelow_lt |}.

(** A step function in place of [math.exp]. *)
Definition exp_steps (x : float) : float :=
  if x <? -1 then 0.25
  else if x <? 0 then 0.6
       else if x <? 1 then 1.6 else 4.

Lemma exp_steps_divisor (x : float) :
  PrimFloat.eqb (1 + exp_steps x) 0 = false.
Proof. unfold exp_steps. repeat destruct (_ <? _); reflexivity. Qed.

(** [1024 * (x ** (1/1024) - 1)] in place of [math.log]. *)
Definition log_roots (n : Z) : float :=
  let root := Nat.iter 10 PrimFloat.sqrt (float_of_int n) in
  1024 * (root - 1).

(** A polynomial hash in place of the SHA-256 prefix. *)
Definition poly_hash (key : string) : Z :=
  fold_left (fun h c => ((h * 31 + Z.of_nat (Ascii.nat_of_ascii c))
                           mod 18446744073709551616)%Z)
            (String.list_ascii_of_string key) 0%Z.

(** A host without network: every request fails. *)
#[global] Instance offline : Host unit :=
  {| math_exp := exp_steps;
     math_log := log_roots;
     sha256_seed := poly_hash;
     chat_completion := fun w _ _ _ _ _ => (None, w);
     parse_probability := fun _ => None;
     math_exp_divisor := exp_steps_divisor |}.

End Doubles.

(** * Properties *)

(** ** The game contract *)

Section GameFacts.
Import Game.

Lemma empty_indices_In (cells : list string) (k i : Z) :
  In i (empty_indices k cells) <->
  k <= i /\ cells !! Z.to_nat (i - k) = Some EMPTY.
Proof.
  revert k. induction cells as [|c rest IH]; intros k; simpl.
  - split; [tauto | intros [_ H]; discriminate].
  - assert (Hstep : forall j, k + 1 <= j ->
              Z.to_nat (j - k) = S (Z.to_nat (j - (k + 1)))) by (intros; lia).
    destruct (String.eqb c EMPTY) eqn:Hc; simpl; rewrite IH.
    + apply String.eqb_eq in Hc. subst c. split.
      * intros [<- | [Hle Hl]].
        -- split; [lia |]. now replace (k - k) with 0 by lia.
        -- split; [lia |]. now rewrite Hstep by lia.
      * intros [Hle Hl]. destruct (Z.eq_dec k i) as [-> | Hne]; [now left |].
        right. split; [lia |]. now rewrite Hstep in Hl by lia.
    + apply String.eqb_neq in Hc. split.
      * intros [Hle Hl]. split; [lia |]. now rewrite Hstep by lia.
      * intros [Hle Hl]. destruct (Z.eq_dec k i) as [-> | Hne].
        -- replace (i - i) with 0 in Hl by lia. simpl in Hl. congruence.
        -- split; [lia |]. now rewrite Hstep in Hl by lia.
Qed.

Lemma empty_indices_lower (cells : list string) (k : Z) :
  Forall (fun i => k <= i) (empty_indices k cells).
Proof.
  apply List.Forall_forall. intros i Hi. now apply empty_indices_In in Hi.
Qed.

Lemma empty_indices_sorted (cells : list string) (k : Z) :
  StronglySorted Z.lt (empty_indices k cells).
Proof.
  revert k. induction cells as [|c rest IH]; intros k; simpl.
  - constructor.
  - destruct (String.eqb c EMPTY); [| apply IH].
    constructor; [apply IH |].
    eapply List.Forall_impl; [| apply (empty_indices_lower rest (k + 1))].
    intros; simpl in *; lia.
Qed.

Lemma strongly_sorted_NoDup (l : list Z) :
  StronglySorted Z.lt l -> List.NoDup l.
Proof.
  induction 1 as [|x l Hs IH Hall]; constructor; [| exact IH].
  intros Hin. rewrite List.Forall_forall in Hall. specialize (Hall _ Hin). lia.
Qed.

Lemma empty_indices_nil (cells : list string) (k : Z) :
  empty_indices k cells = [] <-> has_empty cells = false.
Proof.
  unfold has_empty. revert k.
  induction cells as [|c rest IH]; intros k; simpl; [tauto |].
  destruct (String.eqb c EMPTY); simpl; [split; discriminate | apply IH].
Qed.

Lemma legal_moves_In (s : GameState) (i : Z) :
  In i (legal_moves s) <-> 0 <= i /\ board s !! Z.to_nat i = Some EMPTY.
Proof.
  unfold legal_moves. rewrite empty_indices_In.
  now replace (i - 0) with i by lia.
Qed.

Lemma nonterminal_has_move (s : GameState) :
  terminal_outcome s = None -> legal_moves s <> [].
Proof.
  unfold terminal_outcome, legal_moves.
  destruct (winner (board s)); [discriminate |].
  destruct (has_empty (board s)) eqn:He; [| discriminate].
  intros _ Hnil. apply empty_indices_nil in Hnil. congruence.
Qed.

Lemma other_player_flips (p : string) :
  p = PLAYER_X \/ p = PLAYER_O ->
  other_player p <> p /\
  (other_player p = PLAYER_X \/ other_player p = PLAYER_O).
Proof. intros [-> | ->]; vm_compute; split; (discriminate || tauto). Qed.

Lemma new_state_ok (b : list string) (p : string) :
  length b = 9%nat -> p = PLAYER_X \/ p = PLAYER_O ->
  new_state b p = Ok (mkGameState b p).
Proof.
  intros Hlen Hp. unfold new_state. rewrite Hlen. simpl.
  destruct Hp as [-> | ->]; reflexivity.
Qed.

(** The state a legal move leads to. *)
Definition moved (s : GameState) (move : Z) : GameState :=
  mkGameState (<[Z.to_nat move := player s]> (board s))
              (other_player (player s)).

Lemma moved_valid (s : GameState) (move : Z) :
  valid_state s -> valid_state (moved s move).
Proof.
  intros [Hlen Hp]. split; simpl.
  - now rewrite length_insert.
  - now apply other_player_flips.
Qed.

Lemma apply_move_ok (s : GameState) (move : Z) :
  valid_state s -> 0 <= move <= 8 ->
  board s !! Z.to_nat move = Some EMPTY ->
  apply_move s move = Ok (moved s move).
Proof.
  intros Hv Hrange Hcell. unfold apply_move.
  replace (move <? 0) with false by (symmetry; apply Z.ltb_ge; lia).
  replace (8 <? move) with false by (symmetry; apply Z.ltb_ge; lia).
  simpl. rewrite Hcell. simpl.
  destruct (moved_valid s move Hv) as [Hlen Hp].
  now apply new_state_ok.
Qed.

Lemma apply_move_inv (s s' : GameState) (move : Z) :
  apply_move s move = Ok s' ->
  0 <= move <= 8 /\ board s !! Z.to_nat move = Some EMPTY /\
  s' = moved s move.
Proof.
  unfold apply_move.
  destruct (move <? 0) eqn:Hlo; [discriminate |].
  destruct (8 <? move) eqn:Hhi; [discriminate |]. simpl.
  apply Z.ltb_ge in Hlo, Hhi.
  destruct (board s !! Z.to_nat move) as [c|]; [| discriminate].
  destruct (String.eqb c EMPTY) eqn:Hc; [| discriminate]. simpl.
  apply String.eqb_eq in Hc. subst c. unfold new_state.
  destruct (negb _); [discriminate |].
  destruct (negb _); [discriminate |].
  intros [= <-]. split; [lia | split; reflexivity].
Qed.

Lemma legal_move_range (s : GameState) (move : Z) :
  valid_state s -> In move (legal_moves s) ->
  0 <= move <= 8 /\ board s !! Z.to_nat move = Some EMPTY.
Proof.
  intros [Hlen _] Hin. apply legal_moves_In in Hin as [H0 Hcell].
  split; [| exact Hcell]. apply lookup_lt_Some in Hcell. lia.
Qed.

Lemma apply_legal_move (s : GameState) (move : Z) :
  valid_state s -> In move (legal_moves s) ->
  apply_move s move = Ok (moved s move).
Proof.
  intros Hv Hin. destruct (legal_move_range s move Hv Hin).
  now apply apply_move_ok.
Qed.

(** C3 (as amended): [legal_moves] lists the index of every empty cell,
    each once and in ascending order, whatever the state; it is empty
    exactly when the board has no empty cell, hence on every terminal
    state without a winner. *)
Theorem legal_moves_spec (s : GameState) :
  (forall i : Z,
      In i (legal_moves s) <->
      0 <= i /\ board s !! Z.to_nat i = Some EMPTY) /\
  StronglySorted Z.lt (legal_moves s) /\
  List.NoDup (legal_moves s) /\
  (legal_moves s = [] <-> has_empty (board s) = false) /\
  (winner (board s) = None -> terminal_outcome s <> None ->
   legal_moves s = []).
Proof.
  split; [intros i; apply legal_moves_In |].
  split; [apply empty_indices_sorted |].
  split; [apply strongly_sorted_NoDup, empty_indices_sorted |].
  split; [apply empty_indices_nil |].
  - intros Hw Ht. apply empty_indices_nil.
    unfold terminal_outcome in Ht. rewrite Hw in Ht.
    destruct (has_empty (board s)); [now contradiction Ht | reflexivity].
Qed.

(** A position X has just won, with four cells still empty. *)
Definition won_with_empties : GameState :=
  mkGameState ["X"; "X"; "X"; "O"; "O"; "."; "."; "."; "."] "O".

(** C3, counterexample: a terminal state on which [legal_moves] is not
    empty. *)
Lemma legal_moves_terminal_nonempty :
  valid_state won_with_empties /\
  terminal_outcome won_with_empties = Some "X" /\
  legal_moves won_with_empties = [5; 6; 7; 8].
Proof. repeat split; (reflexivity || (left; reflexivity) || (right; reflexivity)). Qed.

(** C7: [apply_move] raises exactly when the move is out of bounds or the
    targeted cell is not empty; otherwise the new state has the mover's
    mark in the targeted cell, every other cell as before, and the other
    player to move.  (The embedding is a function: the argument state is
    never changed.) *)
Theorem apply_move_spec (s : GameState) (move : Z) :
  valid_state s ->
  (is_ok (apply_move s move) = false <->
   move < 0 \/ move > 8 \/ board s !! Z.to_nat move <> Some EMPTY) /\
  (forall s', apply_move s move = Ok s' ->
     valid_state s' /\
     board s' !! Z.to_nat move = Some (player s) /\
     (forall j : nat, j <> Z.to_nat move -> board s' !! j = board s !! j) /\
     player s' = other_player (player s) /\
     player s' <> player s).
Proof.
  intros Hv. split.
  - split.
    + intros Hraise.
      destruct (Z_lt_dec move 0) as [|Hlo]; [now left |].
      destruct (Z_gt_dec move 8) as [|Hhi]; [now right; left |].
      right; right. intros Hcell.
      rewrite (apply_move_ok s move Hv) in Hraise by (lia || assumption).
      discriminate.
    + intros Hbad. destruct (apply_move s move) as [s'|e] eqn:Happ;
        [| reflexivity].
      apply apply_move_inv in Happ as (Hr & Hcell & _).
      destruct Hbad as [H | [H | H]]; (lia || contradiction).
  - intros s' Happ. apply apply_move_inv in Happ as (Hr & Hcell & ->).
    destruct Hv as [Hlen Hp].
    split; [now apply moved_valid |]. simpl. repeat split.
    + apply list_lookup_insert_eq. apply lookup_lt_Some in Hcell. lia.
    + intros j Hj. now apply list_lookup_insert_ne.
    + now apply other_player_flips.
Qed.

Lemma initial_state_valid : valid_state initial_state.
Proof. split; [reflexivity | left; reflexivity]. Qed.

(** C7, witness: the centre move from the initial position. *)
Lemma apply_move_spec_witness :
  valid_state initial_state /\
  ((is_ok (apply_move initial_state 4) = false <->
    4 < 0 \/ 4 > 8 \/ board initial_state !! Z.to_nat 4 <> Some EMPTY) /\
   (forall s', apply_move initial_state 4 = Ok s' ->
      valid_state s' /\
      board s' !! Z.to_nat 4 = Some (player initial_state) /\
      (forall j : nat, j <> Z.to_nat 4 ->
         board s' !! j = board initial_state !! j) /\
      player s' = other_player (player initial_state) /\
      player s' <> player initial_state)).
Proof.
  split; [exact initial_state_valid |].
  exact (apply_move_spec initial_state 4 initial_state_valid).
Defined.

End GameFacts.

(** ** Results and Python's [max]/[min] *)

Section ResFacts.
Context {A B : Type}.

Lemma map_res_ext (f g : A -> res B) (l : list A) :
  (forall x, In x l -> f x = g x) -> map_res f l = map_res g l.
Proof.
  induction l as [|x rest IH]; intros Hfg; simpl; [reflexivity |].
  rewrite (Hfg x) by now left.
  rewrite IH; [reflexivity |]. intros y Hy. apply Hfg. now right.
Qed.

Lemma map_res_Forall2 (f : A -> res B) (l : list A) (ys : list B) :
  map_res f l = Ok ys <-> List.Forall2 (fun x y => f x = Ok y) l ys.
Proof.
  revert ys. induction l as [|x rest IH]; intros ys; simpl.
  - split.
    + intros [= <-]. constructor.
    + intros H. inversion H. reflexivity.
  - split.
    + destruct (f x) as [y|e] eqn:Hx; [| discriminate]. simpl.
      destruct (map_res f rest) as [ys'|e] eqn:Hr; [| discriminate]. simpl.
      intros [= <-]. constructor; [exact Hx | now apply IH].
    + intros H. inversion H as [|x' y l' ys' Hx Hrest]; subst.
      rewrite Hx. simpl. apply IH in Hrest. rewrite Hrest. reflexivity.
Qed.

Lemma map_res_total (f : A -> res B) (l : list A) :
  (forall x, In x l -> exists y, f x = Ok y) ->
  exists ys, map_res f l = Ok ys.
Proof.
  induction l as [|x rest IH]; intros Hf; simpl; [now exists [] |].
  destruct (Hf x) as [y Hy]; [now left |].
  destruct IH as [ys Hys]; [intros z Hz; apply Hf; now right |].
  exists (y :: ys). now rewrite Hy, Hys.
Qed.

Lemma Forall2_In_r (P : A -> B -> Prop) (l : list A) (ys : list B) (y : B) :
  List.Forall2 P l ys -> In y ys -> exists x, In x l /\ P x y.
Proof.
  induction 1 as [|x y' l' ys' Hxy Hrest IH]; simpl; [tauto |].
  intros [<- | Hin].
  - exists x. split; [now left | exact Hxy].
  - destruct (IH Hin) as (x0 & Hx0 & HP). exists x0. split; [now right | exact HP].
Qed.

Lemma Forall2_In_l (P : A -> B -> Prop) (l : list A) (ys : list B) (x : A) :
  List.Forall2 P l ys -> In x l -> exists y, In y ys /\ P x y.
Proof.
  induction 1 as [|x' y l' ys' Hxy Hrest IH]; simpl; [tauto |].
  intros [<- | Hin].
  - exists y. split; [now left | exact Hxy].
  - destruct (IH Hin) as (y0 & Hy0 & HP). exists y0. split; [now right | exact HP].
Qed.

End ResFacts.

Section ExtremumFacts.
Local Open Scope float_scope.

(** The three values a finished game can have. *)
Definition game_value (v : float) : Prop := v = 0 \/ v = 0.5 \/ v = 1.

Lemma max_from_In (best : float) (l : list float) :
  In (max_from best l) (best :: l).
Proof.
  revert best. induction l as [|x rest IH]; intros best; simpl; [now left |].
  destruct (IH (if best <? x then x else best)) as [H | H].
  - destruct (best <? x); rewrite <- H; [right; now left | now left].
  - right; now right.
Qed.

Lemma min_from_In (best : float) (l : list float) :
  In (min_from best l) (best :: l).
Proof.
  revert best. induction l as [|x rest IH]; intros best; simpl; [now left |].
  destruct (IH (if x <? best then x else best)) as [H | H].
  - destruct (x <? best); rewrite <- H; [right; now left | now left].
  - right; now right.
Qed.

Ltac game_values :=
  repeat match goal with
         | H : game_value _ |- _ => destruct H as [-> | [-> | ->]]
         end.

Lemma game_value_leb_trans (a b c : float) :
  game_value a -> game_value b -> game_value c ->
  (a <=? b) = true -> (b <=? c) = true -> (a <=? c) = true.
Proof. intros Ha Hb Hc; game_values; vm_compute; congruence. Qed.

Lemma game_value_pick_max (a b : float) :
  game_value a -> game_value b ->
  let m := if a <? b then b else a in
  game_value m /\ (a <=? m) = true /\ (b <=? m) = true.
Proof. intros Ha Hb; game_values; vm_compute; tauto. Qed.

Lemma game_value_pick_min (a b : float) :
  game_value a -> game_value b ->
  let m := if b <? a then b else a in
  game_value m /\ (m <=? a) = true /\ (m <=? b) = true.
Proof. intros Ha Hb; game_values; vm_compute; tauto. Qed.

Lemma game_value_eqb (a b : float) :
  game_value a -> game_value b -> (a =? b) = true <-> a = b.
Proof.
  intros Ha Hb; game_values; vm_compute; split; congruence.
Qed.

Lemma max_from_upper (best : float) (l : list float) :
  game_value best -> List.Forall game_value l ->
  game_value (max_from best l) /\
  (best <=? max_from best l) = true /\
  List.Forall (fun x => (x <=? max_from best l) = true) l.
Proof.
  revert best. induction l as [|x rest IH]; intros best Hb Hl; simpl.
  - split; [exact Hb |]. split; [| constructor].
    destruct Hb as [-> | [-> | ->]]; reflexivity.
  - inversion Hl as [|x' l' Hx Hrest]; subst.
    destruct (game_value_pick_max best x Hb Hx) as (Hm & Hbm & Hxm).
    destruct (IH _ Hm Hrest) as (Hv & Hle & Hall).
    split; [exact Hv |]. split.
    + exact (game_value_leb_trans _ _ _ Hb Hm Hv Hbm Hle).
    + constructor; [| exact Hall].
      exact (game_value_leb_trans _ _ _ Hx Hm Hv Hxm Hle).
Qed.

Lemma min_from_lower (best : float) (l : list float) :
  game_value best -> List.Forall game_value l ->
  game_value (min_from best l) /\
  (min_from best l <=? best) = true /\
  List.Forall (fun x => (min_from best l <=? x) = true) l.
Proof.
  revert best. induction l as [|x rest IH]; intros best Hb Hl; simpl.
  - split; [exact Hb |]. split; [| constructor].
    destruct Hb as [-> | [-> | ->]]; reflexivity.
  - inversion Hl as [|x' l' Hx Hrest]; subst.
    destruct (game_value_pick_min best x Hb Hx) as (Hm & Hbm & Hxm).
    destruct (IH _ Hm Hrest) as (Hv & Hle & Hall).
    split; [exact Hv |]. split.
    + exact (game_value_leb_trans _ _ _ Hv Hm Hb Hle Hbm).
    + constructor; [| exact Hall].
      exact (game_value_leb_trans _ _ _ Hv Hm Hx Hle Hxm).
Qed.

(** On game values, [max] returns an element above all the others. *)
Lemma py_max_spec (l : list float) :
  l <> [] -> List.Forall game_value l ->
  exists v, py_max l = Ok v /\ In v l /\ game_value v /\
            List.Forall (fun x => (x <=? v) = true) l.
Proof.
  destruct l as [|b rest]; [congruence |]. intros _ Hl.
  inversion Hl as [|b' l' Hb Hrest]; subst.
  destruct (max_from_upper b rest Hb Hrest) as (Hv & Hle & Hall).
  exists (max_from b rest). split; [reflexivity |].
  split; [apply max_from_In |]. split; [exact Hv |].
  constructor; assumption.
Qed.

Lemma py_min_spec (l : list float) :
  l <> [] -> List.Forall game_value l ->
  exists v, py_min l = Ok v /\ In v l /\ game_value v /\
            List.Forall (fun x => (v <=? x) = true) l.
Proof.
  destruct l as [|b rest]; [congruence |]. intros _ Hl.
  inversion Hl as [|b' l' Hb Hrest]; subst.
  destruct (min_from_lower b rest Hb Hrest) as (Hv & Hle & Hall).
  exists (min_from b rest). split; [reflexivity |].
  split; [apply min_from_In |]. split; [exact Hv |].
  constructor; assumption.
Qed.

End ExtremumFacts.

(** ** Exact minimax *)

Section MinimaxFacts.
Import Game Minimax.
Local Open Scope float_scope.

Lemma empty_indices_insert (cells : list string) (k : Z) (n : nat)
      (p : string) :
  cells !! n = Some EMPTY -> p <> EMPTY ->
  S (length (empty_indices k (<[n := p]> cells))) =
  length (empty_indices k cells).
Proof.
  intros Hcell Hp. revert k n Hcell.
  induction cells as [|c rest IH]; intros k n Hcell; [discriminate |].
  destruct n as [|n]; simpl in *.
  - injection Hcell as ->. apply String.eqb_neq in Hp. rewrite Hp.
    reflexivity.
  - destruct (String.eqb c EMPTY); simpl; now rewrite IH.
Qed.

Lemma valid_player_not_empty (s : GameState) :
  valid_state s -> player s <> EMPTY.
Proof. intros [_ [-> | ->]]; discriminate. Qed.

(** A legal move leaves one empty cell fewer. *)
Lemma moved_legal_count (s : GameState) (move : Z) :
  valid_state s -> In move (legal_moves s) ->
  S (length (legal_moves (moved s move))) = length (legal_moves s).
Proof.
  intros Hv Hin. destruct (legal_move_range s move Hv Hin) as [_ Hcell].
  unfold legal_moves, moved. simpl.
  apply empty_indices_insert; [exact Hcell |].
  now apply valid_player_not_empty.
Qed.

(** Any fuel that covers the empty cells gives the same value. *)
Lemma minimax_fuel_enough (p : string) (n m : nat) (s : GameState) :
  valid_state s ->
  (length (legal_moves s) <= n)%nat -> (length (legal_moves s) <= m)%nat ->
  minimax_fuel n s p = minimax_fuel m s p.
Proof.
  revert m s. induction n as [|n IH]; intros m s Hv Hn Hm.
  - destruct m as [|m]; [reflexivity |]. simpl.
    destruct (terminal_value s p) eqn:Ht; [reflexivity |].
    unfold terminal_value in Ht.
    destruct (terminal_outcome s) eqn:Ho.
    + repeat destruct (String.eqb _ _); discriminate.
    + apply nonterminal_has_move in Ho.
      destruct (legal_moves s); [congruence | simpl in Hn; lia].
  - destruct m as [|m].
    + simpl. destruct (terminal_value s p) eqn:Ht; [reflexivity |].
      unfold terminal_value in Ht.
      destruct (terminal_outcome s) eqn:Ho.
      * repeat destruct (String.eqb _ _); discriminate.
      * apply nonterminal_has_move in Ho.
        destruct (legal_moves s); [congruence | simpl in Hm; lia].
    + simpl. destruct (terminal_value s p); [reflexivity |].
      f_equal. apply map_res_ext.
      intros move Hin. rewrite (apply_legal_move s move Hv Hin). simpl.
      pose proof (moved_legal_count s move Hv Hin) as Hc.
      apply IH; [now apply moved_valid | lia | lia].
Qed.

(** The body of [minimax_value] on a state that is not terminal. *)
Lemma minimax_value_unfold (s : GameState) (p : string) :
  valid_state s -> terminal_value s p = None ->
  minimax_value s p =
  (child_values ←
     map_res (fun move =>
                child ← apply_move s move;
                minimax_value child p)
             (legal_moves s);
   if String.eqb (player s) p
   then py_max child_values
   else py_min child_values).
Proof.
  intros Hv Ht. unfold minimax_value at 1.
  destruct (length (legal_moves s)) as [|k] eqn:Hlen.
  - exfalso. unfold terminal_value in Ht.
    destruct (terminal_outcome s) eqn:Ho.
    + repeat destruct (String.eqb _ _); discriminate.
    + apply nonterminal_has_move in Ho.
      destruct (legal_moves s); [congruence | discriminate].
  - simpl. rewrite Ht.
    f_equal. apply map_res_ext.
    intros move Hin. rewrite (apply_legal_move s move Hv Hin). simpl.
    pose proof (moved_legal_count s move Hv Hin) as Hc.
    unfold minimax_value.
    apply minimax_fuel_enough; [now apply moved_valid | lia | lia].
Qed.

Lemma terminal_value_game_value (s : GameState) (p : string) (t : float) :
  terminal_value s p = Some t -> game_value t.
Proof.
  unfold terminal_value, game_value.
  destruct (terminal_outcome s); [| discriminate].
  repeat destruct (String.eqb _ _); intros [= <-]; tauto.
Qed.

Lemma terminal_value_None (s : GameState) (p : string) :
  terminal_value s p = None <-> terminal_outcome s = None.
Proof.
  unfold terminal_value. destruct (terminal_outcome s).
  - repeat destruct (String.eqb _ _); split; discriminate.
  - tauto.
Qed.

(** [minimax_value] returns, and returns one of 0, 0.5 and 1. *)
Lemma minimax_value_total (p : string) (s : GameState) :
  valid_state s ->
  exists v, minimax_value s p = Ok v /\ game_value v.
Proof.
  remember (length (legal_moves s)) as n eqn:Hn.
  revert s Hn. induction n as [n IH] using lt_wf_ind. intros s Hn Hv.
  destruct (terminal_value s p) as [t|] eqn:Ht.
  - exists t. split; [| eapply terminal_value_game_value; eauto].
    unfold minimax_value. destruct (length (legal_moves s)); simpl;
      now rewrite Ht.
  - rewrite (minimax_value_unfold s p Hv Ht).
    destruct (map_res_total
                (fun move => child ← apply_move s move;
                             minimax_value child p)
                (legal_moves s)) as [cvs Hcvs].
    { intros move Hin. rewrite (apply_legal_move s move Hv Hin). simpl.
      pose proof (moved_legal_count s move Hv Hin) as Hc.
      destruct (IH (length (legal_moves (moved s move)))) with
        (s := moved s move) as [v [Hval _]];
        [lia | reflexivity | now apply moved_valid |].
      now exists v. }
    rewrite Hcvs. simpl.
    assert (Hall : List.Forall game_value cvs).
    { apply List.Forall_forall. intros v Hin.
      apply map_res_Forall2 in Hcvs.
      destruct (Forall2_In_r _ _ _ _ Hcvs Hin) as (move & Hmove & Hval).
      rewrite (apply_legal_move s move Hv Hmove) in Hval. simpl in Hval.
      pose proof (moved_legal_count s move Hv Hmove) as Hc.
      destruct (IH (length (legal_moves (moved s move)))) with
        (s := moved s move) as [v' [Hval' Hgv]];
        [lia | reflexivity | now apply moved_valid |].
      congruence. }
    assert (Hne : cvs <> []).
    { apply terminal_value_None, nonterminal_has_move in Ht.
      apply map_res_Forall2 in Hcvs.
      intros ->. inversion Hcvs as [Hl |]. congruence. }
    destruct (String.eqb (player s) p).
    + destruct (py_max_spec cvs Hne Hall) as (v & Hv' & _ & Hg & _).
      now exists v.
    + destruct (py_min_spec cvs Hne Hall) as (v & Hv' & _ & Hg & _).
      now exists v.
Qed.

(** C1: on a terminal state [minimax_value] is the terminal value;
    otherwise it is the maximum (when the mover is the perspective
    player) or the minimum (otherwise) of [minimax_value] over the states
    reached by the legal moves; the initial position is worth 0.5 to X. *)
Theorem minimax_value_spec (s : GameState) (p : string) :
  valid_state s ->
  (forall t, terminal_value s p = Some t -> minimax_value s p = Ok t) /\
  (terminal_value s p = None ->
   exists (child_values : list float) (v : float),
     map_res (fun move =>
                child ← apply_move s move;
                minimax_value child p)
             (legal_moves s) = Ok child_values /\
     minimax_value s p = Ok v /\
     (if String.eqb (player s) p
      then py_max child_values else py_min child_values) = Ok v /\
     In v child_values /\
     List.Forall (fun x => if String.eqb (player s) p
                           then (x <=? v) = true
                           else (v <=? x) = true) child_values) /\
  minimax_value initial_state "X" = Ok 0.5.
Proof.
  intros Hv. split; [| split].
  - intros t Ht. unfold minimax_value.
    destruct (length (legal_moves s)); simpl; now rewrite Ht.
  - intros Ht. rewrite (minimax_value_unfold s p Hv Ht).
    destruct (map_res_total
                (fun move => child ← apply_move s move;
                             minimax_value child p)
                (legal_moves s)) as [cvs Hcvs].
    { intros move Hin. rewrite (apply_legal_move s move Hv Hin). simpl.
      destruct (minimax_value_total p (moved s move)) as [v [Hval _]];
        [now apply moved_valid |].
      now exists v. }
    assert (Hall : List.Forall game_value cvs).
    { apply List.Forall_forall. intros v Hin.
      pose proof Hcvs as HF. apply map_res_Forall2 in HF.
      destruct (Forall2_In_r _ _ _ _ HF Hin) as (move & Hmove & Hval).
      rewrite (apply_legal_move s move Hv Hmove) in Hval. simpl in Hval.
      destruct (minimax_value_total p (moved s move)) as [v' [Hval' Hg]];
        [now apply moved_valid |].
      congruence. }
    assert (Hne : cvs <> []).
    { apply terminal_value_None, nonterminal_has_move in Ht.
      pose proof Hcvs as HF. apply map_res_Forall2 in HF.
      intros ->. inversion HF as [Hl |]. congruence. }
    exists cvs. rewrite Hcvs. simpl.
    destruct (String.eqb (player s) p).
    + destruct (py_max_spec cvs Hne Hall) as (v & Hmax & Hin & _ & Hup).
      exists v. tauto.
    + destruct (py_min_spec cvs Hne Hall) as (v & Hmin & Hin & _ & Hlow).
      exists v. tauto.
  - vm_compute. reflexivity.
Qed.

(** The position [X X . / O O . / . . .] with X to move. *)
Definition two_in_a_row : GameState :=
  mkGameState ["X"; "X"; "."; "O"; "O"; "."; "."; "."; "."] "X".

Lemma two_in_a_row_valid : valid_state two_in_a_row.
Proof. split; [reflexivity | left; reflexivity]. Qed.

(** C1, witness: the forced-win position seen by X. *)
Lemma minimax_value_spec_witness :
  valid_state two_in_a_row /\
  ((forall t, terminal_value two_in_a_row "X" = Some t ->
              minimax_value two_in_a_row "X" = Ok t) /\
   (terminal_value two_in_a_row "X" = None ->
    exists (child_values : list float) (v : float),
      map_res (fun move =>
                 child ← apply_move two_in_a_row move;
                 minimax_value child "X")
              (legal_moves two_in_a_row) = Ok child_values /\
      minimax_value two_in_a_row "X" = Ok v /\
      (if String.eqb (player two_in_a_row) "X"
       then py_max child_values else py_min child_values) = Ok v /\
      In v child_values /\
      List.Forall (fun x => if String.eqb (player two_in_a_row) "X"
                            then (x <=? v) = true
                            else (v <=? x) = true) child_values) /\
   minimax_value initial_state "X" = Ok 0.5).
Proof.
  split; [exact two_in_a_row_valid |].
  exact (minimax_value_spec two_in_a_row "X" two_in_a_row_valid).
Defined.

(** What [best_moves] scores a move with. *)
Definition score_move (s : GameState) (move : Z) : res (Z * float) :=
  child ← apply_move s move;
  value ← minimax_value child (player s);
  mret (move, value).

Lemma score_move_ok (s : GameState) (move : Z) :
  valid_state s -> In move (legal_moves s) ->
  exists v, score_move s move = Ok (move, v) /\ game_value v /\
            minimax_value (moved s move) (player s) = Ok v.
Proof.
  intros Hv Hin. unfold score_move.
  rewrite (apply_legal_move s move Hv Hin). simpl.
  destruct (minimax_value_total (player s) (moved s move)) as [v [Hval Hg]];
    [now apply moved_valid |].
  exists v. now rewrite Hval.
Qed.

Lemma game_value_leb_antisym (a b : float) :
  game_value a -> game_value b ->
  (a <=? b) = true -> (b <=? a) = true -> a = b.
Proof.
  intros [-> | [-> | ->]] [-> | [-> | ->]]; vm_compute; congruence.
Qed.

(** C2: [best_moves] keeps exactly the legal moves whose child has the
    greatest minimax value for the player to move, ties included; on
    [X X . / O O . / . . .] with X to move it keeps move 2, and
    [choose_perfect_move] returns it with value 1.0. *)
Theorem best_moves_spec (s : GameState) :
  valid_state s -> legal_moves s <> [] ->
  (exists picks : list (Z * float),
     best_moves s = Ok picks /\ picks <> [] /\
     forall (m : Z) (v : float),
       In (m, v) picks <->
       In m (legal_moves s) /\
       (exists child, apply_move s m = Ok child /\
                      minimax_value child (player s) = Ok v) /\
       (forall m', In m' (legal_moves s) ->
          exists child' v',
            apply_move s m' = Ok child' /\
            minimax_value child' (player s) = Ok v' /\
            (v' <=? v) = true)) /\
  best_moves two_in_a_row = Ok [(2%Z, 1)] /\
  (forall (R : Type) (G : PyRandom R) (rng : R),
     exists rng', choose_perfect_move two_in_a_row rng = Ok ((2%Z, 1), rng')).
Proof.
  intros Hv Hne. split; [| split].
  - destruct (map_res_total (score_move s) (legal_moves s)) as [scored Hsc].
    { intros move Hin. destruct (score_move_ok s move Hv Hin) as (v & H & _).
      now exists (move, v). }
    pose proof Hsc as HF. apply map_res_Forall2 in HF.
    assert (Hscored : forall m v,
               In (m, v) scored <->
               In m (legal_moves s) /\ game_value v /\
               minimax_value (moved s m) (player s) = Ok v).
    { intros m v. split.
      - intros Hin.
        destruct (Forall2_In_r _ _ _ _ HF Hin) as (m0 & Hm0 & Hval).
        destruct (score_move_ok s m0 Hv Hm0) as (v0 & H0 & Hg & Hmm).
        rewrite H0 in Hval. injection Hval as -> ->. tauto.
      - intros (Hin & Hg & Hmm).
        destruct (Forall2_In_l _ _ _ _ HF Hin) as (y & Hy & Hval).
        destruct (score_move_ok s m Hv Hin) as (v0 & H0 & _ & Hmm0).
        rewrite H0 in Hval. injection Hval as <-.
        replace v with v0 by congruence. exact Hy. }
    assert (Hsne : scored <> []).
    { intros ->. inversion HF as [Hl |]. congruence. }
    assert (Hall : List.Forall game_value (map snd scored)).
    { apply List.Forall_forall. intros v Hin.
      apply in_map_iff in Hin as ([m v'] & <- & Hin).
      apply Hscored in Hin. tauto. }
    destruct (py_max_spec (map snd scored)) as (best & Hmax & Hbin & Hbg & Hup);
      [destruct scored; [congruence | discriminate] | exact Hall |].
    rewrite List.Forall_forall in Hup.
    apply in_map_iff in Hbin as ([mb vb] & Hvb & Hbin). simpl in Hvb. subst vb.
    exists (List.filter (fun mv => snd mv =? best) scored).
    split; [| split].
    + unfold best_moves. fold (score_move s).
      change (map_res (fun move => child ← apply_move s move;
                                   value ← minimax_value child (player s);
                                   mret (move, value)) (legal_moves s))
        with (map_res (score_move s) (legal_moves s)).
      rewrite Hsc. simpl. destruct scored; [congruence |].
      rewrite Hmax. reflexivity.
    + intros Hnil.
      assert (Hin : In (mb, best)
                       (List.filter (fun mv => snd mv =? best) scored)).
      { apply filter_In. split; [exact Hbin |]. simpl.
        now apply game_value_eqb. }
      rewrite Hnil in Hin. exact Hin.
    + intros m v. rewrite filter_In. simpl. split.
      * intros [Hin Heq]. pose proof Hin as Hin'.
        apply Hscored in Hin as (Hm & Hg & Hmm).
        apply game_value_eqb in Heq; [| assumption | assumption]. subst v.
        split; [exact Hm |]. split.
        -- exists (moved s m). split; [now apply apply_legal_move | exact Hmm].
        -- intros m' Hm'.
           destruct (score_move_ok s m' Hv Hm') as (v' & _ & Hg' & Hmm').
           exists (moved s m'), v'.
           split; [now apply apply_legal_move |]. split; [exact Hmm' |].
           apply Hup. apply in_map_iff. exists (m', v'). split; [reflexivity |].
           apply Hscored. tauto.
      * intros (Hm & (child & Happ & Hval) & Hbest).
        rewrite (apply_legal_move s m Hv Hm) in Happ. injection Happ as <-.
        destruct (score_move_ok s m Hv Hm) as (v0 & _ & Hg & Hmm).
        assert (v0 = v) by congruence. subst v0.
        assert (Hin : In (m, v) scored) by (apply Hscored; tauto).
        split; [exact Hin |]. apply game_value_eqb; [assumption.. |].
        apply game_value_leb_antisym; [assumption.. | |].
        -- apply Hup. apply in_map_iff. now exists (m, v).
        -- apply Hscored in Hbin as (Hmb & _ & Hvalb).
           destruct (Hbest mb Hmb) as (cb & vb & Happb & Hvb & Hle).
           rewrite (apply_legal_move s mb Hv Hmb) in Happb.
           injection Happb as <-. congruence.
  - vm_compute. reflexivity.
  - intros R G rng. unfold choose_perfect_move.
    replace (best_moves two_in_a_row) with (Ok [(2%Z, 1%float)])
      by (vm_compute; reflexivity).
    simpl. unfold choice. simpl.
    pose proof (randbelow_lt rng 1 ltac:(lia)) as Hlt.
    destruct (randbelow rng 1) as [i rng']. simpl in Hlt.
    replace i with 0%nat by lia. simpl. now exists rng'.
Qed.

(** C2, witness: the forced-win position. *)
Lemma best_moves_spec_witness :
  valid_state two_in_a_row /\ legal_moves two_in_a_row <> [] /\
  ((exists picks : list (Z * float),
      best_moves two_in_a_row = Ok picks /\ picks <> [] /\
      forall (m : Z) (v : float),
        In (m, v) picks <->
        In m (legal_moves two_in_a_row) /\
        (exists child, apply_move two_in_a_row m = Ok child /\
                       minimax_value child (player two_in_a_row) = Ok v) /\
        (forall m', In m' (legal_moves two_in_a_row) ->
           exists child' v',
             apply_move two_in_a_row m' = Ok child' /\
             minimax_value child' (player two_in_a_row) = Ok v' /\
             (v' <=? v) = true)) /\
   best_moves two_in_a_row = Ok [(2%Z, 1)] /\
   (forall (R : Type) (G : PyRandom R) (rng : R),
      exists rng', choose_perfect_move two_in_a_row rng = Ok ((2%Z, 1), rng'))).
Proof.
  assert (Hne : legal_moves two_in_a_row <> []) by (vm_compute; discriminate).
  split; [exact two_in_a_row_valid |]. split; [exact Hne |].
  exact (best_moves_spec two_in_a_row two_in_a_row_valid Hne).
Defined.

End MinimaxFacts.

(** ** Random choice *)

Section ChoiceFacts.
Context {R : Type} `{PyRandom R} {A : Type}.

Lemma choice_ok (g : R) (l : list A) :
  l <> [] -> exists x g', choice g l = Ok (x, g') /\ In x l.
Proof.
  intros Hne. unfold choice. destruct l as [|a rest]; [congruence |].
  pose proof (randbelow_lt g (length (a :: rest)) ltac:(simpl; lia)) as Hlt.
  destruct (randbelow g (length (a :: rest))) as [i g'] eqn:Hr.
  simpl in Hlt.
  destruct ((a :: rest) !! i) as [x|] eqn:Hx.
  - exists x, g'. split; [reflexivity |].
    apply list_elem_of_In. eapply list_elem_of_lookup_2; eauto.
  - apply lookup_ge_None in Hx. simpl in *. lia.
Qed.

Lemma choice_inv (g g' : R) (l : list A) (x : A) :
  choice g l = Ok (x, g') -> In x l.
Proof.
  unfold choice. destruct l as [|a rest]; [discriminate |].
  destruct (randbelow g (length (a :: rest))) as [i g1].
  destruct ((a :: rest) !! i) as [y|] eqn:Hy; [| discriminate].
  intros [= <- <-]. apply list_elem_of_In.
  eapply list_elem_of_lookup_2; eauto.
Qed.

Lemma choice_raise (g : R) (l : list A) (e : exn) :
  choice g l = Raise e -> l = [] /\ e = IndexError.
Proof.
  intros Hc. destruct l as [|a rest].
  - simpl in Hc. injection Hc as <-. tauto.
  - destruct (choice_ok g (a :: rest)) as (x & g' & Hok & _); congruence.
Qed.

End ChoiceFacts.

(** ** Position evaluators *)

Section PlayoutFacts.
Import Game Evaluators.
Context {R : Type} `{PyRandom R}.
Local Open Scope float_scope.

Lemma outcome_value_game_value (outcome root_player : string) :
  game_value (outcome_value outcome root_player).
Proof.
  unfold outcome_value, game_value.
  repeat destruct (String.eqb _ _); tauto.
Qed.

Lemma terminal_value_outcome (s : GameState) (p outcome : string) :
  terminal_outcome s = Some outcome ->
  terminal_value s p = Some (outcome_value outcome p).
Proof.
  intros Ho. unfold terminal_value, outcome_value. rewrite Ho.
  repeat destruct (String.eqb _ _); reflexivity.
Qed.

(** The random playout ends, on one of the three game values. *)
Lemma random_playout_total (p : string) (fuel : nat) (s : GameState)
      (g : R) :
  valid_state s -> (length (legal_moves s) <= fuel)%nat ->
  exists v g', random_playout fuel s p g = Ok (v, g') /\ game_value v.
Proof.
  revert s g. induction fuel as [|fuel IH]; intros s g Hv Hlen.
  - simpl. destruct (terminal_outcome s) as [o|] eqn:Ho.
    + eexists _, _. split; [reflexivity | apply outcome_value_game_value].
    + apply nonterminal_has_move in Ho.
      destruct (legal_moves s); [congruence | simpl in Hlen; lia].
  - simpl. destruct (terminal_outcome s) as [o|] eqn:Ho.
    + eexists _, _. split; [reflexivity | apply outcome_value_game_value].
    + destruct (choice_ok g (legal_moves s)) as (m & g1 & Hc & Hin);
        [now apply nonterminal_has_move |].
      rewrite Hc. simpl. rewrite (apply_legal_move s m Hv Hin). simpl.
      pose proof (moved_legal_count s m Hv Hin).
      apply IH; [now apply moved_valid | lia].
Qed.

Lemma random_rollout_evaluate_total (g : R) (s : GameState) (p : string) :
  valid_state s ->
  exists v g', random_rollout_evaluate g s p = Ok (v, g') /\ game_value v.
Proof.
  intros Hv. unfold random_rollout_evaluate.
  destruct (terminal_value s p) as [t|] eqn:Ht.
  - exists t, g. split; [reflexivity |].
    eapply terminal_value_game_value; eauto.
  - now apply random_playout_total.
Qed.

Lemma winning_moves_total (s : GameState) (moves : list Z) :
  valid_state s -> (forall m, In m moves -> In m (legal_moves s)) ->
  exists w, _winning_moves_for_current_player s moves = Ok w /\
            (forall m, In m w -> In m moves).
Proof.
  intros Hv Hsub. unfold _winning_moves_for_current_player.
  match goal with |- context [map_res ?f moves] =>
    destruct (map_res_total f moves) as [flags Hflags] end.
  { intros m Hm. rewrite (apply_legal_move s m Hv (Hsub m Hm)). simpl.
    eauto. }
  rewrite Hflags. simpl. eexists. split; [reflexivity |].
  intros m Hm. apply in_map_iff in Hm as ([m' b] & <- & Hin).
  apply filter_In in Hin as [Hin _]. apply map_res_Forall2 in Hflags.
  destruct (Forall2_In_r _ _ _ _ Hflags Hin) as (m0 & Hm0 & Hf).
  rewrite (apply_legal_move s m0 Hv (Hsub m0 Hm0)) in Hf. simpl in Hf.
  injection Hf as -> _. exact Hm0.
Qed.

(** The rollout policy picks a legal move. *)
Lemma rollout_policy_move_legal (s : GameState) (g : R) :
  valid_state s -> legal_moves s <> [] ->
  exists m g', _rollout_policy_move s g = Ok (m, g') /\
               In m (legal_moves s).
Proof.
  intros Hv Hne. unfold _rollout_policy_move.
  destruct (winning_moves_total s (legal_moves s) Hv) as (w & Hw & Hwsub);
    [tauto |].
  rewrite Hw. simpl. destruct w as [|w0 wrest].
  - match goal with |- context [map_res ?f (legal_moves s)] =>
      destruct (map_res_total f (legal_moves s)) as [flags Hflags] end.
    { intros m Hm. rewrite (apply_legal_move s m Hv Hm). simpl.
      destruct (winning_moves_total (moved s m) (legal_moves (moved s m)))
        as (w' & Hw' & _); [now apply moved_valid | tauto |].
      rewrite Hw'. simpl. eauto. }
    rewrite Hflags. simpl.
    set (safe := map fst (List.filter snd flags)).
    assert (Hsafe : forall m, In m safe -> In m (legal_moves s)).
    { intros m Hm. apply in_map_iff in Hm as ([m' b] & <- & Hin).
      apply filter_In in Hin as [Hin _]. apply map_res_Forall2 in Hflags.
      destruct (Forall2_In_r _ _ _ _ Hflags Hin) as (m0 & Hm0 & Hf).
      rewrite (apply_legal_move s m0 Hv Hm0) in Hf. simpl in Hf.
      destruct (_winning_moves_for_current_player
                  (moved s m0) (legal_moves (moved s m0)));
        simpl in Hf; [| discriminate].
      injection Hf as -> _. exact Hm0. }
    set (cand := match safe with [] => legal_moves s | _ => safe end).
    assert (Hcand : (forall m, In m cand -> In m (legal_moves s)) /\
                    cand <> []).
    { subst cand. destruct safe; [tauto |]. split; [exact Hsafe | discriminate]. }
    destruct Hcand as [Hcsub Hcne].
    destruct (mem_Z 4 cand) eqn:H4.
    + exists 4%Z, g. split; [reflexivity |]. apply Hcsub.
      unfold mem_Z in H4. apply existsb_exists in H4 as (x & Hx & Heq).
      apply Z.eqb_eq in Heq. now subst x.
    + destruct (List.filter is_corner cand) as [|c0 crest] eqn:Hcorn.
      * destruct (choice_ok g cand Hcne) as (m & g' & Hc & Hin).
        exists m, g'. split; [exact Hc | now apply Hcsub].
      * destruct (choice_ok g (c0 :: crest)) as (m & g' & Hc & Hin);
          [discriminate |].
        exists m, g'. split; [exact Hc |]. apply Hcsub.
        rewrite <- Hcorn in Hin. now apply filter_In in Hin.
  - destruct (choice_ok g (w0 :: wrest)) as (m & g' & Hc & Hin);
      [discriminate |].
    exists m, g'. split; [exact Hc | now apply Hwsub].
Qed.

Lemma guided_playout_total (p : string) (fuel : nat) (s : GameState)
      (g : R) :
  valid_state s -> (length (legal_moves s) <= fuel)%nat ->
  exists v g', guided_playout fuel s p g = Ok (v, g') /\ game_value v.
Proof.
  revert s g. induction fuel as [|fuel IH]; intros s g Hv Hlen.
  - simpl. destruct (terminal_outcome s) as [o|] eqn:Ho.
    + eexists _, _. split; [reflexivity | apply outcome_value_game_value].
    + apply nonterminal_has_move in Ho.
      destruct (legal_moves s); [congruence | simpl in Hlen; lia].
  - simpl. destruct (terminal_outcome s) as [o|] eqn:Ho.
    + eexists _, _. split; [reflexivity | apply outcome_value_game_value].
    + destruct (rollout_policy_move_legal s g Hv) as (m & g1 & Hc & Hin);
        [now apply nonterminal_has_move |].
      rewrite Hc. simpl. rewrite (apply_legal_move s m Hv Hin). simpl.
      pose proof (moved_legal_count s m Hv Hin).
      apply IH; [now apply moved_valid | lia].
Qed.

Lemma guided_rollout_loop_total (n : nat) (s : GameState) (p : string)
      (g : R) (total : float) (count : Z) :
  valid_state s ->
  exists total', guided_rollout_loop n s p g total count
                 = Ok (total', (count + Z.of_nat n)%Z).
Proof.
  intros Hv. revert g total count.
  induction n as [|n IH]; intros g total count.
  - simpl. exists total. do 2 f_equal. lia.
  - cbn [guided_rollout_loop]. unfold _guided_rollout.
    destruct (guided_playout_total p (length (legal_moves s)) s g Hv)
      as (v & g' & Hp & _); [lia |].
    rewrite Hp. simpl. destruct (IH g' (total + v) (count + 1)%Z) as [t Ht].
    exists t. rewrite Ht. do 2 f_equal. lia.
Qed.

End PlayoutFacts.

Section ClampFacts.
Import Evaluators.
Local Open Scope float_scope.

(** Membership in the closed interval [0, 1] (false for [nan]). *)
Definition in_unit (v : float) : bool := (0 <=? v) && (v <=? 1).

Lemma ltb_leb (x y : float) : (x <? y) = true -> (x <=? y) = true.
Proof.
  rewrite ltb_spec, leb_spec. unfold SFltb, SFleb.
  destruct (SFcompare _ _) as [[]|]; congruence.
Qed.

(** [_clamp] lands in [0, 1] on every float, [nan] and the infinities
    included. *)
Lemma clamp_in_unit (v : float) : in_unit (_clamp v) = true.
Proof.
  unfold in_unit, _clamp, py_max2, py_min2.
  destruct (v <? 1) eqn:H1.
  - destruct (0 <? v) eqn:H0; [| reflexivity].
    now rewrite (ltb_leb _ _ H0), (ltb_leb _ _ H1).
  - reflexivity.
Qed.

Lemma game_value_in_unit (v : float) : game_value v -> in_unit v = true.
Proof. intros [-> | [-> | ->]]; reflexivity. Qed.

End ClampFacts.

Section EvaluateFacts.
Import Game Evaluators.
Context {R : Type} `{PyRandom R} {W : Type} `{Host W}.
Local Open Scope float_scope.

(** Two evaluator states with the same configuration and cache. *)
Definition same_setup (e e' : LLMPositionEvaluator) : Prop :=
  provider e' = provider e /\ model e' = model e /\
  api_key e' = api_key e /\ timeout_seconds e' = timeout_seconds e /\
  heuristic_weight e' = heuristic_weight e /\
  rollout_samples e' = rollout_samples e /\
  cache e' = cache e.

Lemma same_setup_refl (e : LLMPositionEvaluator) : same_setup e e.
Proof. repeat split. Qed.

Lemma same_setup_with_stats (e : LLMPositionEvaluator) (st : Stats) :
  same_setup e (with_stats e st).
Proof. repeat split. Qed.

Lemma same_setup_trans (e1 e2 e3 : LLMPositionEvaluator) :
  same_setup e1 e2 -> same_setup e2 e3 -> same_setup e1 e3.
Proof.
  unfold same_setup. intros (?&?&?&?&?&?&?) (?&?&?&?&?&?&?).
  repeat split; congruence.
Qed.

Lemma guided_rollout_average_total (e : LLMPositionEvaluator)
      (s : GameState) (p key : string) :
  valid_state s ->
  exists v e', _guided_rollout_average (R := R) e s p key = Ok (v, e') /\
               same_setup e e' /\
               cache_hits (stats e') = cache_hits (stats e) /\
               cache_misses (stats e') = cache_misses (stats e).
Proof.
  intros Hv. unfold _guided_rollout_average.
  destruct (rollout_samples e <=? 0)%Z eqn:Hn.
  - exists 0.5, e. split; [reflexivity |].
    split; [apply same_setup_refl | tauto].
  - apply Z.leb_gt in Hn.
    match goal with |- context [guided_rollout_loop ?n s p ?g ?t ?c] =>
      destruct (guided_rollout_loop_total n s p g t c Hv) as [total Ht] end.
    rewrite Ht. simpl. unfold div_int.
    replace (rollout_samples e =? 0)%Z with false
      by (symmetry; apply Z.eqb_neq; lia).
    simpl. eexists _, _. split; [reflexivity |].
    split; [apply same_setup_with_stats | tauto].
Qed.

Lemma heuristic_value_total (e : LLMPositionEvaluator) (s : GameState)
      (p key : string) :
  valid_state s ->
  exists v e', _heuristic_value (R := R) e s p key = Ok (v, e') /\
               in_unit v = true /\ same_setup e e' /\
               cache_hits (stats e') = cache_hits (stats e) /\
               cache_misses (stats e') = cache_misses (stats e).
Proof.
  intros Hv. unfold _heuristic_value.
  match goal with |- context [div_float 1 (1 + math_exp ?x)] =>
    unfold div_float; rewrite (math_exp_divisor x) end.
  cbn [mbind res_bind].
  destruct (guided_rollout_average_total e s p key Hv)
    as (rv & e' & Hr & Hs & Hh & Hm).
  rewrite Hr. cbn [mbind res_bind mret res_ret].
  eexists _, e'. split; [reflexivity |].
  split; [apply clamp_in_unit | tauto].
Qed.

(** A terminal state is answered before the cache is looked at. *)
Lemma evaluate_terminal (e : LLMPositionEvaluator) (w : W)
      (s : GameState) (p : string) (t : float) :
  terminal_value s p = Some t ->
  evaluate (R := R) e w s p = Ok (t, (e, w)).
Proof. intros Ht. unfold evaluate. now rewrite Ht. Qed.

(** A cached key is answered from the cache, and counted. *)
Lemma evaluate_hit (e : LLMPositionEvaluator) (w : W)
      (s : GameState) (p : string) (v : float) :
  terminal_value s p = None ->
  cache e !! cache_key e s p = Some v ->
  evaluate (R := R) e w s p = Ok (v, (with_stats e (hit (stats e)), w)).
Proof. intros Ht Hc. unfold evaluate. now rewrite Ht, Hc. Qed.

(** A key that is not cached is computed, clamped and stored. *)
Lemma evaluate_miss (e : LLMPositionEvaluator) (w : W)
      (s : GameState) (p : string) :
  valid_state s -> terminal_value s p = None ->
  cache e !! cache_key e s p = None ->
  exists v e' w',
    evaluate (R := R) e w s p = Ok (v, (e', w')) /\
    in_unit v = true /\
    cache e' = <[cache_key e s p := v]> (cache e) /\
    provider e' = provider e /\ model e' = model e /\
    cache_hits (stats e') = cache_hits (stats e).
Proof.
  intros Hv Ht Hc. unfold evaluate. rewrite Ht, Hc.
  set (e1 := with_stats e (miss (stats e))).
  set (key := cache_key e s p).
  destruct (String.eqb (provider e1) "openai" && nonempty (api_key e1)).
  - unfold _evaluate_with_openai.
    destruct (chat_completion _ _ _ _ _ _) as [[msg|] w'].
    + destruct (parse_probability msg) as [prob|].
      * cbn [mbind res_bind mret res_ret].
        eexists _, _, _. split; [reflexivity |].
        split; [apply clamp_in_unit |]. simpl. tauto.
      * match goal with |- context [_heuristic_value ?x s p key] =>
          destruct (heuristic_value_total x s p key Hv)
            as (v & e' & Hh & Hu & Hs & Hhits & _) end.
        rewrite Hh. cbn [mbind res_bind mret res_ret].
        eexists _, _, _. split; [reflexivity |]. split; [exact Hu |].
        destruct Hs as (Hp & Hm & _ & _ & _ & _ & Hca). simpl in *.
        rewrite Hca, Hp, Hm, Hhits. tauto.
    + match goal with |- context [_heuristic_value ?x s p key] =>
        destruct (heuristic_value_total x s p key Hv)
          as (v & e' & Hh & Hu & Hs & Hhits & _) end.
      rewrite Hh. cbn [mbind res_bind mret res_ret].
      eexists _, _, _. split; [reflexivity |]. split; [exact Hu |].
      destruct Hs as (Hp & Hm & _ & _ & _ & _ & Hca). simpl in *.
      rewrite Hca, Hp, Hm, Hhits. tauto.
  - destruct (String.eqb (provider e1) "openai"
              && negb (nonempty (api_key e1)));
      match goal with |- context [_heuristic_value ?x s p key] =>
        destruct (heuristic_value_total x s p key Hv)
          as (v & e' & Hh & Hu & Hs & Hhits & _) end;
      rewrite Hh; cbn [mbind res_bind mret res_ret];
      (eexists _, _, _; split; [reflexivity |]; split; [exact Hu |]);
      destruct Hs as (Hp & Hm & _ & _ & _ & _ & Hca); simpl in *;
      rewrite Hca, Hp, Hm, Hhits; tauto.
Qed.

End EvaluateFacts.

Section EvaluatorClaims.
Import Game Evaluators.
Local Open Scope float_scope.

(** C4: on a terminal state both evaluators return the terminal value,
    whatever the generator, the cache, the counters and the provider,
    and leave their state as it was. *)
Theorem evaluate_terminal_spec (s : GameState) (p : string) (t : float) :
  terminal_value s p = Some t ->
  (forall (R : Type) (G : PyRandom R) (g : R),
      random_rollout_evaluate g s p = Ok (t, g)) /\
  (forall (R : Type) (G : PyRandom R) (W : Type) (H : Host W)
          (e : LLMPositionEvaluator) (w : W),
      evaluate (R := R) e w s p = Ok (t, (e, w))).
Proof.
  intros Ht. split.
  - intros R G g. unfold random_rollout_evaluate. now rewrite Ht.
  - intros R G W H e w. now apply evaluate_terminal.
Qed.

(** C4, witness: a won position seen by the winner. *)
Lemma evaluate_terminal_spec_witness :
  terminal_value won_with_empties "X" = Some 1 /\
  ((forall (R : Type) (G : PyRandom R) (g : R),
       random_rollout_evaluate g won_with_empties "X" = Ok (1, g)) /\
   (forall (R : Type) (G : PyRandom R) (W : Type) (H : Host W)
           (e : LLMPositionEvaluator) (w : W),
       evaluate (R := R) e w won_with_empties "X" = Ok (1, (e, w)))).
Proof.
  split; [reflexivity |].
  exact (evaluate_terminal_spec won_with_empties "X" 1 eq_refl).
Defined.

Lemma cache_key_same (e e' : LLMPositionEvaluator) (s : GameState)
      (p : string) :
  provider e' = provider e -> model e' = model e ->
  cache_key e' s p = cache_key e s p.
Proof. intros Hp Hm. unfold cache_key. now rewrite Hp, Hm. Qed.

(** C5 (as amended): on a state that is not terminal, a second
    [evaluate] with the same root player and state returns the value
    of the first, adds one to [cache_hits] and changes nothing else:
    the cache and the world are those the first call left. *)
Theorem evaluate_twice_spec (R : Type) (G : PyRandom R) (W : Type)
        (H : Host W) (e : LLMPositionEvaluator) (w : W)
        (s : GameState) (p : string) :
  valid_state s -> terminal_value s p = None ->
  exists (v : float) (e1 : LLMPositionEvaluator) (w1 : W),
    evaluate (R := R) e w s p = Ok (v, (e1, w1)) /\
    evaluate (R := R) e1 w1 s p
    = Ok (v, (with_stats e1 (hit (stats e1)), w1)) /\
    cache (with_stats e1 (hit (stats e1))) = cache e1 /\
    cache_hits (stats (with_stats e1 (hit (stats e1))))
    = (cache_hits (stats e1) + 1)%Z.
Proof.
  intros Hv Ht.
  destruct (cache e !! cache_key e s p) as [v|] eqn:Hc.
  - exists v, (with_stats e (hit (stats e))), w.
    split; [now apply evaluate_hit |].
    split; [| split; reflexivity].
    apply evaluate_hit; [exact Ht |]. exact Hc.
  - destruct (evaluate_miss (R := R) e w s p Hv Ht Hc)
      as (v & e1 & w1 & He & _ & Hca & Hp & Hm & _).
    exists v, e1, w1. split; [exact He |].
    split; [| split; reflexivity].
    apply evaluate_hit; [exact Ht |].
    rewrite (cache_key_same e e1 s p Hp Hm), Hca.
    apply lookup_insert_eq.
Qed.

(** [LLMPositionEvaluator(provider="heuristic")] with no cache file and
    no API key in the environment. *)
Definition heuristic_evaluator : LLMPositionEvaluator :=
  new_evaluator "heuristic" "gpt-4.1-mini" None "" NoFile 25 0.7 4.

(** The position of the cache test: X in a corner, O in the centre. *)
Definition corner_centre : GameState :=
  mkGameState ["X"; "."; "."; "."; "O"; "."; "."; "."; "."] "X".

Lemma corner_centre_valid : valid_state corner_centre.
Proof. split; [reflexivity | left; reflexivity]. Qed.

(** C5, witness: the state of the repository's cache test. *)
Lemma evaluate_twice_spec_witness :
  valid_state corner_centre /\ terminal_value corner_centre "X" = None /\
  exists (v : float) (e1 : LLMPositionEvaluator) (w1 : unit),
    evaluate (R := Z) heuristic_evaluator tt corner_centre "X"
    = Ok (v, (e1, w1)) /\
    evaluate (R := Z) e1 w1 corner_centre "X"
    = Ok (v, (with_stats e1 (hit (stats e1)), w1)) /\
    cache (with_stats e1 (hit (stats e1))) = cache e1 /\
    cache_hits (stats (with_stats e1 (hit (stats e1))))
    = (cache_hits (stats e1) + 1)%Z.
Proof.
  split; [exact corner_centre_valid |]. split; [reflexivity |].
  exact (evaluate_twice_spec Z Doubles.lcg unit Doubles.offline
           heuristic_evaluator tt corner_centre "X"
           corner_centre_valid eq_refl).
Defined.

(** C5, counterexample: on a terminal state the second call returns the
    same value but is not counted as a cache hit. *)
Lemma evaluate_twice_terminal_no_hit :
  valid_state won_with_empties /\
  evaluate (R := Z) heuristic_evaluator tt won_with_empties "X"
  = Ok (1, (heuristic_evaluator, tt)) /\
  (forall e1 w1 v2 e2 w2,
      evaluate (R := Z) heuristic_evaluator tt won_with_empties "X"
      = Ok (1, (e1, w1)) ->
      evaluate (R := Z) e1 w1 won_with_empties "X" = Ok (v2, (e2, w2)) ->
      cache_hits (stats e2) = cache_hits (stats e1)) /\
  cache_hits (stats heuristic_evaluator) = 0%Z.
Proof.
  split; [split; [reflexivity | right; reflexivity] |].
  split; [reflexivity |]. split; [| reflexivity].
  intros e1 w1 v2 e2 w2 H1 H2.
  rewrite (evaluate_terminal (R := Z) e1 w1 won_with_empties "X" 1 eq_refl)
    in H2.
  now injection H2 as _ <- _.
Qed.

(** The cache file of the failing run: one entry, for the initial
    position seen by X, with the value 5.0. *)
Definition out_of_range_file : cache_file :=
  Object [("heuristic|gpt-4.1-mini|X|.........:X", Some 5)].

(** C6, failing input: an evaluator whose cache was loaded from a file
    holding 5.0 returns 5.0, outside [0, 1]. *)
Theorem evaluate_returns_loaded_value :
  let e := new_evaluator "heuristic" "gpt-4.1-mini" None ""
                         out_of_range_file 25 0.7 4 in
  evaluate (R := Z) e tt initial_state "X"
  = Ok (5, (with_stats e (hit (stats e)), tt)) /\
  in_unit 5 = false.
Proof.
  split; [| reflexivity].
  apply (evaluate_hit (R := Z)); [reflexivity |].
  vm_compute. reflexivity.
Qed.

(** Every value of the cache is in [0, 1]. *)
Definition cache_in_unit (c : gmap string float) : Prop :=
  forall k v, c !! k = Some v -> in_unit v = true.

(** X1: both evaluators return a value in [0, 1] on every well-formed
    state, as long as the cache holds only values in [0, 1]; the cache
    keeps that property, and has it when no object was loaded. *)
Theorem evaluate_in_unit (R : Type) (G : PyRandom R) (W : Type)
        (H : Host W) (s : GameState) (p : string) :
  valid_state s ->
  (forall g : R, exists v g',
      random_rollout_evaluate g s p = Ok (v, g') /\ in_unit v = true) /\
  (forall (e : LLMPositionEvaluator) (w : W),
      cache_in_unit (cache e) ->
      exists v e' w',
        evaluate (R := R) e w s p = Ok (v, (e', w')) /\
        in_unit v = true /\ cache_in_unit (cache e')) /\
  cache_in_unit (load_cache NoFile) /\
  cache_in_unit (load_cache Unreadable) /\
  cache_in_unit (load_cache NotAnObject).
Proof.
  intros Hv. split; [| split].
  - intros g. destruct (random_rollout_evaluate_total g s p Hv)
      as (v & g' & He & Hg).
    exists v, g'. split; [exact He | now apply game_value_in_unit].
  - intros e w Hc. destruct (terminal_value s p) as [t|] eqn:Ht.
    + exists t, e, w. split; [now apply evaluate_terminal |].
      split; [| exact Hc].
      apply game_value_in_unit. eapply terminal_value_game_value; eauto.
    + destruct (cache e !! cache_key e s p) as [v|] eqn:Hk.
      * exists v, (with_stats e (hit (stats e))), w.
        split; [now apply evaluate_hit |]. split; [eauto | exact Hc].
      * destruct (evaluate_miss (R := R) e w s p Hv Ht Hk)
          as (v & e' & w' & He & Hu & Hca & _).
        exists v, e', w'. split; [exact He |]. split; [exact Hu |].
        rewrite Hca. intros k x Hx.
        destruct (decide (cache_key e s p = k)) as [<- | Hne].
        -- rewrite lookup_insert_eq in Hx. congruence.
        -- rewrite lookup_insert_ne in Hx by exact Hne. eauto.
  - repeat split; intros k v Hk; simpl in Hk;
      rewrite lookup_empty in Hk; discriminate.
Qed.

(** Witness for [evaluate_in_unit]: the initial position. *)
Lemma evaluate_in_unit_witness :
  valid_state initial_state /\
  ((forall g : Z, exists v g',
       random_rollout_evaluate g initial_state "X" = Ok (v, g') /\
       in_unit v = true) /\
   (forall (e : LLMPositionEvaluator) (w : unit),
       cache_in_unit (cache e) ->
       exists v e' w',
         evaluate (R := Z) e w initial_state "X" = Ok (v, (e', w')) /\
         in_unit v = true /\ cache_in_unit (cache e')) /\
   cache_in_unit (load_cache NoFile) /\
   cache_in_unit (load_cache Unreadable) /\
   cache_in_unit (load_cache NotAnObject)).
Proof.
  split; [exact initial_state_valid |].
  exact (evaluate_in_unit Z Doubles.lcg unit Doubles.offline
           initial_state "X" initial_state_valid).
Defined.

End EvaluatorClaims.

(** ** The MCTS driver *)

Section SelectionFacts.
Import Game MCTS.
Context {R : Type} `{PyRandom R} {W : Type} `{Host W}.
Local Open Scope float_scope.

(** A score that compares neither above nor equal to minus infinity:
    [_select_child] drops it.  Among floats only [nan] is one. *)
Definition unordered (score : float) : bool :=
  negb (neg_infinity <? score) && negb (score =? neg_infinity).

Lemma unordered_is_nan (score : float) : unordered score = is_nan score.
Proof.
  unfold unordered, is_nan.
  rewrite FloatAxioms.ltb_spec, !FloatAxioms.eqb_spec.
  change (Prim2SF neg_infinity) with (S754_infinity true).
  unfold SFltb, SFeqb.
  destruct (Prim2SF score) as [b | b | | b m e]; simpl.
  - reflexivity.
  - destruct b; reflexivity.
  - reflexivity.
  - rewrite Z.compare_refl, Pos.compare_cont_refl. destruct b; reflexivity.
Qed.

(** Every child of the list gets an unordered score. *)
Definition all_unordered (c : float) (same_player : bool)
    (log_parent : float) (l : list (Z * Node)) : Prop :=
  List.Forall
    (fun kc => exists score,
         ucb c same_player log_parent (snd kc) = Ok score /\
         unordered score = true) l.

Lemma ucb_ok (c : float) (sp : bool) (lp : float) (child : Node) :
  exists score, ucb c sp lp child = Ok score.
Proof.
  unfold ucb, div_int. destruct (visits child =? 0)%Z; simpl; eauto.
Qed.

Lemma best_children_loop_ok (c : float) (sp : bool) (lp : float)
      (l : list (Z * Node)) (bs : float) (best : list (Z * Node)) :
  exists best',
    best_children_loop c sp lp l bs best = Ok best' /\
    (forall kc, In kc best' -> In kc best \/ In kc l) /\
    (best <> [] -> best' <> []).
Proof.
  revert bs best. induction l as [|kc rest IH]; intros bs best; simpl.
  - exists best. split; [reflexivity |]. split; [tauto | tauto].
  - destruct (ucb_ok c sp lp (snd kc)) as [score Hs]. rewrite Hs. simpl.
    destruct (bs <? score).
    + destruct (IH score [kc]) as (b' & Hb & Hin & Hne).
      exists b'. split; [exact Hb |]. split.
      * intros x Hx. destruct (Hin x Hx) as [[<- | []] | Hr]; tauto.
      * intros _. apply Hne. discriminate.
    + destruct (score =? bs).
      * destruct (IH bs (best ++ [kc])%list) as (b' & Hb & Hin & Hne).
        exists b'. split; [exact Hb |]. split.
        -- intros x Hx. destruct (Hin x Hx) as [Hl | Hr]; [| tauto].
           apply in_app_iff in Hl as [Hl | [<- | []]]; tauto.
        -- intros _. apply Hne. now destruct best.
      * destruct (IH bs best) as (b' & Hb & Hin & Hne).
        exists b'. split; [exact Hb |]. split; [| exact Hne].
        intros x Hx. destruct (Hin x Hx); tauto.
Qed.

(** The candidate list stays empty only if every score is unordered. *)
Lemma best_children_loop_nil (c : float) (sp : bool) (lp : float)
      (l : list (Z * Node)) :
  best_children_loop c sp lp l neg_infinity [] = Ok [] ->
  all_unordered c sp lp l.
Proof.
  induction l as [|kc rest IH]; simpl; intros Hl; [constructor |].
  destruct (ucb_ok c sp lp (snd kc)) as [score Hs].
  rewrite Hs in Hl. simpl in Hl.
  destruct (neg_infinity <? score) eqn:Hlt.
  - destruct (best_children_loop_ok c sp lp rest score [kc])
      as (b' & Hb & _ & Hne).
    rewrite Hb in Hl. injection Hl as ->. now contradiction Hne.
  - destruct (score =? neg_infinity) eqn:Heq.
    + destruct (best_children_loop_ok c sp lp rest neg_infinity [kc])
        as (b' & Hb & _ & Hne).
      rewrite Hb in Hl. injection Hl as ->. now contradiction Hne.
    + constructor; [| now apply IH].
      exists score. split; [exact Hs |]. unfold unordered.
      now rewrite Hlt, Heq.
Qed.

(** [_select_child] returns a child of the node, or raises
    [IndexError] because every score was unordered. *)
Lemma select_child_cases (c : float) (g : R) (node : Node) (p : string) :
  children node <> [] ->
  (exists kc g', _select_child c g node p = Ok (kc, g') /\
                 In kc (children node)) \/
  (_select_child c g node p = Raise IndexError /\
   all_unordered c (String.eqb (player (state node)) p)
                 (math_log (Z.max 1 (visits node))) (children node)).
Proof.
  intros Hne. unfold _select_child.
  destruct (children node) as [|kc0 rest] eqn:Hch; [congruence |].
  cbn [is_nil].
  match goal with |- context [best_children_loop ?c ?sp ?lp ?l ?bs ?b] =>
    destruct (best_children_loop_ok c sp lp l bs b) as (best & Hb & Hin & _)
  end.
  rewrite Hb. cbn [mbind res_bind].
  destruct best as [|b0 brest].
  - right. split; [reflexivity |]. now apply best_children_loop_nil.
  - left. destruct (choice_ok g (b0 :: brest)) as (kc & g' & Hc & Hkc);
      [discriminate |].
    exists kc, g'. split; [exact Hc |].
    destruct (Hin kc Hkc) as [[] | Hl]. exact Hl.
Qed.

End SelectionFacts.

Section DictFacts.
Import MCTS.
Context {V : Type}.

Lemma dict_set_keys (k : Z) (v : V) (d : list (Z * V)) :
  forall x, In x (map fst d) -> In x (map fst (dict_set k v d)).
Proof.
  induction d as [|[k' v'] rest IH]; simpl; [tauto |].
  intros x [<- | Hx].
  - destruct (k' =? k)%Z eqn:Hk; simpl; [| now left].
    apply Z.eqb_eq in Hk. now left.
  - destruct (k' =? k)%Z; simpl; [now right | right; now apply IH].
Qed.

Lemma dict_set_has_key (k : Z) (v : V) (d : list (Z * V)) :
  In k (map fst (dict_set k v d)).
Proof.
  induction d as [|[k' v'] rest IH]; simpl; [now left |].
  destruct (k' =? k)%Z; simpl; [now left | now right].
Qed.

Lemma dict_set_keys_inv (k : Z) (v : V) (d : list (Z * V)) :
  forall x, In x (map fst (dict_set k v d)) -> x = k \/ In x (map fst d).
Proof.
  induction d as [|[k' v'] rest IH]; simpl; [intros x [<- | []]; now left |].
  destruct (k' =? k)%Z; simpl; intros x [<- | Hx]; try tauto.
  destruct (IH x Hx); tauto.
Qed.

Lemma dict_set_NoDup (k : Z) (v : V) (d : list (Z * V)) :
  List.NoDup (map fst d) -> List.NoDup (map fst (dict_set k v d)).
Proof.
  induction d as [|[k' v'] rest IH]; simpl; intros Hnd.
  - constructor; [tauto | constructor].
  - inversion Hnd as [|x l Hnotin Hrest]; subst.
    destruct (k' =? k)%Z eqn:Hk; simpl.
    + apply Z.eqb_eq in Hk. subst k'. now constructor.
    + apply Z.eqb_neq in Hk. constructor; [| now apply IH].
      intros Hin. apply dict_set_keys_inv in Hin as [-> | Hin]; tauto.
Qed.

Lemma dict_set_Forall (P : Z * V -> Prop) (k : Z) (v : V)
      (d : list (Z * V)) :
  P (k, v) -> List.Forall P d -> List.Forall P (dict_set k v d).
Proof.
  intros Hkv. induction 1 as [|[k' v'] rest Hx Hrest IH]; simpl.
  - now constructor.
  - destruct (k' =? k)%Z; now constructor.
Qed.

(** [dict_update] works on the entry stored under the key. *)
Lemma dict_update_found {A : Type} (f : V -> res (V * A)) (k : Z) (v : V)
      (d : list (Z * V)) :
  List.NoDup (map fst d) -> In (k, v) d ->
  exists pre post,
    d = pre ++ (k, v) :: post /\
    dict_update f k d =
    ('(v', a) ← f v; mret (pre ++ (k, v') :: post, a)).
Proof.
  induction d as [|[k' v'] rest IH]; simpl; intros Hnd Hin; [tauto |].
  inversion Hnd as [|x l Hnotin Hrest]; subst.
  destruct Hin as [[= -> ->] | Hin].
  - exists [], rest. rewrite Z.eqb_refl. split; reflexivity.
  - destruct (k' =? k)%Z eqn:Hk.
    + apply Z.eqb_eq in Hk. subst k'. exfalso. apply Hnotin.
      apply in_map_iff. now exists (k, v).
    + destruct (IH Hrest Hin) as (pre & post & -> & Hup).
      exists ((k', v') :: pre), post. split; [reflexivity |].
      rewrite Hup. destruct (f v) as [[v1 a]|e]; reflexivity.
Qed.

Lemma list_remove_subset (x : Z) (l : list Z) :
  forall y, In y (list_remove x l) -> In y l.
Proof.
  induction l as [|z rest IH]; simpl; [tauto |].
  destruct (z =? x)%Z; simpl; [tauto |].
  intros y [<- | Hy]; [now left | right; now apply IH].
Qed.

End DictFacts.

Section TreeFacts.
Import Game MCTS.
Context {R : Type} `{PyRandom R} {W : Type} `{Host W}
        {E : Type} `{Evaluator E}.
Local Open Scope float_scope.

(** The evaluator returns a value on every well-formed state. *)
Definition ev_total : Prop :=
  forall (ev : E) (s : GameState) (p : string),
    valid_state s -> exists v ev', ev_evaluate ev s p = Ok (v, ev').

(** The loop condition of the selection phase. *)
Definition selecting (n : Node) : bool :=
  negb (is_terminal (state n)) && is_nil (untried_moves n)
  && negb (is_nil (children n)).

(** The descent from [n] with generator [g] ends in a [_select_child]
    whose candidate list is empty: every child it scored has an
    unordered UCB score, and [rng.choice] raises [IndexError]. *)
Inductive select_raises (c : float) (p : string) : Node -> R -> Prop :=
| raises_here (n : Node) (g : R) :
    selecting n = true ->
    _select_child c g n p = Raise IndexError ->
    all_unordered c (String.eqb (player (state n)) p)
                  (math_log (Z.max 1 (visits n))) (children n) ->
    select_raises c p n g
| raises_below (n : Node) (g g1 : R) (kc : Z * Node) :
    selecting n = true ->
    _select_child c g n p = Ok (kc, g1) ->
    In kc (children n) ->
    select_raises c p (snd kc) g1 ->
    select_raises c p n g.

(** Well-formed search trees: states accepted by the constructor,
    untried moves that are legal, and children stored once under a
    legal move that is also their [move]. *)
Inductive wf : Node -> Prop :=
| wf_node (s : GameState) (mv : option Z) (ch : list (Z * Node))
          (un : list Z) (vis : Z) (vs : float) :
    valid_state s ->
    (forall m, In m un -> In m (legal_moves s)) ->
    List.NoDup (map fst ch) ->
    List.Forall (fun kc => move (snd kc) = Some (fst kc) /\
                           In (fst kc) (legal_moves s) /\
                           wf (snd kc)) ch ->
    wf (mkNode s mv ch un vis vs).

Lemma node_induction (P : Node -> Prop) :
  (forall s mv ch un vis vs,
      List.Forall (fun kc => P (snd kc)) ch ->
      P (mkNode s mv ch un vis vs)) ->
  forall n, P n.
Proof.
  intros Hstep. fix rec 1. intros [s mv ch un vis vs]. apply Hstep.
  induction ch as [|[k child] rest IH]; constructor; [apply rec | exact IH].
Qed.

Lemma new_node_wf (s : GameState) (mv : option Z) :
  valid_state s -> wf (new_node s mv).
Proof.
  intros Hv. unfold new_node. constructor; [exact Hv | tauto | constructor | constructor].
Qed.

Lemma iterate_eq (c : float) (p : string) (s : GameState)
      (mv : option Z) (ch : list (Z * Node)) (un : list Z) (vis : Z)
      (vs : float) (g : R) (ev : E) :
  iterate c p (mkNode s mv ch un vis vs) g ev =
  if negb (is_terminal s) && is_nil un && negb (is_nil ch) then
    '(kc, g1) ← _select_child c g (mkNode s mv ch un vis vs) p;
    '(ch', (value, g2, ev2)) ←
      dict_update
        (fun child =>
           '(child', value, g2, ev2) ← iterate c p child g1 ev;
           mret (child', (value, g2, ev2)))
        (fst kc) ch;
    mret (mkNode s mv ch' un (vis + 1)%Z (vs + value), value, g2, ev2)
  else if negb (is_terminal s) && negb (is_nil un) then
    '(m, g1) ← choice g un;
    s' ← apply_move s m;
    '(value, ev2) ← ev_evaluate ev s' p;
    let child := mkNode s' (Some m) [] (legal_moves s') 1 (0 + value) in
    mret (mkNode s mv (dict_set m child ch) (list_remove m un)
                 (vis + 1)%Z (vs + value),
          value, g1, ev2)
  else
    '(value, ev2) ← ev_evaluate ev s p;
    mret (mkNode s mv ch un (vis + 1)%Z (vs + value), value, g, ev2).
Proof. reflexivity. Qed.

(** What one iteration does to a well-formed tree. *)
Definition iterate_post (c : float) (p : string) (n : Node) (g : R)
    (r : res (Node * float * R * E)) : Prop :=
  match r with
  | Ok (n', _, _, _) =>
      wf n' /\ state n' = state n /\ move n' = move n /\
      (forall k, In k (map fst (children n)) ->
                 In k (map fst (children n')))
  | Raise e => e = IndexError /\ select_raises c p n g
  end.

Lemma iterate_inv (c : float) (p : string) :
  ev_total ->
  forall n g ev, wf n -> iterate_post c p n g (iterate c p n g ev).
Proof.
  intros Hev. induction n as [s mv ch un vis vs IHch] using node_induction.
  intros g ev Hwf.
  inversion Hwf as [s0 mv0 ch0 un0 vis0 vs0 Hv Hun Hnd Hch]; subst.
  rewrite iterate_eq.
  destruct (negb (is_terminal s) && is_nil un && negb (is_nil ch)) eqn:Hsel.
  - (* selection *)
    assert (Hne : children (mkNode s mv ch un vis vs) <> []).
    { simpl. intros ->. simpl in Hsel. now rewrite andb_false_r in Hsel. }
    destruct (select_child_cases c g (mkNode s mv ch un vis vs) p Hne)
      as [(kc & g1 & Hs & Hin) | [Hs Hall]].
    + rewrite Hs. cbn [mbind res_bind]. simpl in Hin.
      destruct kc as [k child].
      destruct (dict_update_found
                  (fun child0 =>
                     '(child', value, g2, ev2) ← iterate c p child0 g1 ev;
                     mret (child', (value, g2, ev2)))
                  k child ch Hnd Hin) as (pre & post & Hsplit & Hup).
      cbn [fst]. rewrite Hup.
      rewrite List.Forall_forall in IHch, Hch.
      specialize (IHch (k, child) Hin g1 ev).
      destruct (Hch (k, child) Hin) as (Hmv & Hleg & Hwfc).
      specialize (IHch Hwfc). cbn [snd] in *.
      destruct (iterate c p child g1 ev) as [[[[child' v] g2] ev2]|e].
      * cbn [mbind res_bind mret res_ret iterate_post] in *.
        destruct IHch as (Hwf' & Hst & Hmove & _).
        assert (Hkeys : map fst (pre ++ (k, child') :: post) = map fst ch).
        { subst ch. now rewrite !map_app. }
        split; [| split; [reflexivity | split; [reflexivity |]]].
        -- constructor; [exact Hv | exact Hun | now rewrite Hkeys |].
           apply List.Forall_forall. intros kc Hkc.
           apply in_app_iff in Hkc as [Hkc | [<- | Hkc]].
           ++ apply Hch. subst ch. apply in_app_iff. now left.
           ++ cbn [fst snd]. rewrite Hmove. tauto.
           ++ apply Hch. subst ch. apply in_app_iff. right. now right.
        -- simpl. intros x Hx. now rewrite Hkeys.
      * cbn [mbind res_bind iterate_post] in *.
        destruct IHch as [-> Hr]. split; [reflexivity |].
        eapply raises_below; [exact Hsel | exact Hs | exact Hin | exact Hr].
    + rewrite Hs. cbn [mbind res_bind iterate_post].
      split; [reflexivity |]. apply raises_here; assumption.
  - destruct (negb (is_terminal s) && negb (is_nil un)) eqn:Hexp.
    + (* expansion *)
      destruct (choice_ok g un) as (m & g1 & Hc & Hm).
      { intros ->. simpl in Hexp. now rewrite andb_false_r in Hexp. }
      rewrite Hc. cbn [mbind res_bind].
      rewrite (apply_legal_move s m Hv (Hun m Hm)). cbn [mbind res_bind].
      destruct (Hev ev (moved s m) p) as (v & ev2 & He);
        [now apply moved_valid |].
      rewrite He. cbn [mbind res_bind mret res_ret iterate_post].
      split; [| split; [reflexivity | split; [reflexivity |]]].
      * constructor; [exact Hv | | now apply dict_set_NoDup |].
        -- intros x Hx. apply Hun. eapply list_remove_subset; eauto.
        -- apply dict_set_Forall; [| exact Hch]. cbn [fst snd move].
           split; [reflexivity |]. split; [now apply Hun |].
           constructor; [now apply moved_valid | tauto | constructor
                        | constructor].
      * simpl. intros x Hx. now apply dict_set_keys.
    + (* evaluation of the node itself *)
      destruct (Hev ev s p Hv) as (v & ev2 & He).
      rewrite He. cbn [mbind res_bind mret res_ret iterate_post].
      split; [| split; [reflexivity | split; [reflexivity | tauto]]].
      now constructor.
Qed.

End TreeFacts.

Section SearchFacts.
Import Game MCTS.
Context {R : Type} `{PyRandom R} {W : Type} `{Host W}
        {E : Type} `{Evaluator E}.
Local Open Scope float_scope.
Local Abbreviation Agent := (@MCTSAgent R E).

(** Some iteration of the search, the one after [j < n] completed ones,
    ends in a [_select_child] that raises [IndexError]. *)
Definition search_raises (c : float) (p : string) (n : nat) (root : Node)
    (g : R) (ev : E) : Prop :=
  exists (j : nat) (tree : Node) (g1 : R) (ev1 : E),
    (j < n)%nat /\
    search j c p root g ev = Ok (tree, g1, ev1) /\
    select_raises c p tree g1.

Lemma search_raises_first (c : float) (p : string) (n : nat) (root : Node)
      (g : R) (ev : E) :
  select_raises c p root g -> search_raises c p (S n) root g ev.
Proof.
  intros Hr. exists 0%nat, root, g, ev.
  split; [lia | split; [reflexivity | exact Hr]].
Qed.

Lemma search_raises_later (c : float) (p : string) (n : nat)
      (root root' : Node) (v : float) (g g' : R) (ev ev' : E) :
  iterate c p root g ev = Ok (root', v, g', ev') ->
  search_raises c p n root' g' ev' ->
  search_raises c p (S n) root g ev.
Proof.
  intros Hi (j & tree & g1 & ev1 & Hj & Hs & Hr).
  exists (S j), tree, g1, ev1. split; [lia |]. split; [| exact Hr].
  simpl. rewrite Hi. exact Hs.
Qed.

Lemma search_inv (c : float) (p : string) :
  ev_total ->
  forall n root g ev, wf root ->
    match search n c p root g ev with
    | Ok (tree, _, _) =>
        wf tree /\ state tree = state root /\ move tree = move root /\
        (forall k, In k (map fst (children root)) ->
                   In k (map fst (children tree)))
    | Raise e => e = IndexError /\ search_raises c p n root g ev
    end.
Proof.
  intros Hev. induction n as [|n IH]; intros root g ev Hwf.
  - simpl. tauto.
  - simpl. pose proof (iterate_inv c p Hev root g ev Hwf) as Hi.
    destruct (iterate c p root g ev) as [[[[root' v] g'] ev']|e] eqn:Hit.
    + cbn [mbind res_bind iterate_post] in *.
      destruct Hi as (Hwf' & Hst & Hmv & Hkeys).
      specialize (IH root' g' ev' Hwf').
      destruct (search n c p root' g' ev') as [[[tree g2] ev2]|e].
      * destruct IH as (Hwt & Hst' & Hmv' & Hkeys').
        split; [exact Hwt |]. split; [congruence |].
        split; [congruence |]. auto.
      * destruct IH as [-> Hr]. split; [reflexivity |].
        eapply search_raises_later; eauto.
    + cbn [mbind res_bind iterate_post] in *. destruct Hi as [-> Hr].
      split; [reflexivity |]. now apply search_raises_first.
Qed.

(** The first iteration expands a move of the root. *)
Lemma first_iteration (c : float) (p : string) (root : GameState)
      (mv : option Z) (g : R) (ev : E) :
  ev_total -> valid_state root -> terminal_outcome root = None ->
  exists m v g1 ev1,
    In m (legal_moves root) /\
    iterate c p (new_node root mv) g ev =
    Ok (mkNode root mv
               [(m, mkNode (moved root m) (Some m) []
                           (legal_moves (moved root m)) 1 (0 + v))]
               (list_remove m (legal_moves root)) 1 (0 + v),
        v, g1, ev1).
Proof.
  intros Hev Hv Ht. unfold new_node. rewrite iterate_eq.
  unfold is_terminal. rewrite Ht. cbn [negb is_nil andb].
  pose proof (nonterminal_has_move root Ht) as Hne.
  assert (Hnil : is_nil (legal_moves root) = false)
    by (destruct (legal_moves root); [congruence | reflexivity]).
  rewrite Hnil. cbn [negb].
  destruct (choice_ok g (legal_moves root) Hne) as (m & g1 & Hc & Hm).
  rewrite Hc. cbn [mbind res_bind].
  rewrite (apply_legal_move root m Hv Hm). cbn [mbind res_bind].
  destruct (Hev ev (moved root m) p) as (v & ev1 & He);
    [now apply moved_valid |].
  rewrite He. exists m, v, g1, ev1. split; [exact Hm | reflexivity].
Qed.

Lemma insert_desc_In (x y : (Z * float) * Node)
      (l : list ((Z * float) * Node)) :
  In y (insert_desc x l) <-> y = x \/ In y l.
Proof.
  induction l as [|z rest IH]; simpl; [intuition congruence |].
  destruct (key_lt (fst x) (fst z)); simpl; rewrite ?IH; intuition congruence.
Qed.

Lemma sorted_desc_In (y : (Z * float) * Node)
      (l : list ((Z * float) * Node)) :
  In y (sorted_desc l) <-> In y l.
Proof.
  induction l as [|x rest IH]; simpl; [tauto |].
  rewrite insert_desc_In, IH. intuition congruence.
Qed.

Lemma mean_value_ok (n : Node) : exists m, mean_value n = Ok m.
Proof.
  unfold mean_value, div_int. destruct (visits n =? 0)%Z; eauto.
Qed.

(** What [choose_move] does once the iterations are over. *)
Definition finish (a : Agent) (root_state : GameState)
    (start stop : float) (root : Node) (g : R) (ev : E)
  : res (Z * Agent) :=
  let elapsed := (stop - start) * 1000 in
  if is_nil (children root) then
    '(m, g) ← choice g (legal_moves root_state);
    per_iteration ← div_int elapsed (iterations a);
    mret (m, mkAgent ev (iterations a) (exploration a) g (name a)
                     (Some (mkDecisionStats m 0 0.5 elapsed per_iteration)))
  else
    keyed ← map_res (fun kc => k ← rank_key (snd kc); mret (k, snd kc))
                    (children root);
    match sorted_desc keyed with
    | [] => Raise IndexError
    | (_, best) :: _ =>
        estimate ← mean_value best;
        per_iteration ← div_int elapsed (iterations a);
        let decision :=
          mkDecisionStats
            (match move best with Some m => m | None => (-1)%Z end)
            (visits best) estimate elapsed per_iteration in
        match move best with
        | Some m =>
            mret (m, mkAgent ev (iterations a) (exploration a) g
                             (name a) (Some decision))
        | None =>
            '(m, g) ← choice g (legal_moves root_state);
            mret (m, mkAgent ev (iterations a) (exploration a) g
                             (name a) (Some decision))
        end
    end.

Lemma choose_move_eq (a : Agent) (root_state : GameState)
      (start stop : float) :
  choose_move a root_state start stop =
  ('(root, g, ev) ←
     search (Z.to_nat (iterations a)) (exploration a) (player root_state)
            (new_node root_state None) (rng a) (evaluator a);
   finish a root_state start stop root g ev).
Proof. reflexivity. Qed.

(** With children under the root, the move returned is the [move] of a
    child, and the decision records that child's visits. *)
Lemma finish_ranked (a : Agent) (root_state : GameState)
      (start stop : float) (root : Node) (g : R) (ev : E) :
  (0 < iterations a)%Z -> wf root -> children root <> [] ->
  exists m child a' d,
    finish a root_state start stop root g ev = Ok (m, a') /\
    In (m, child) (children root) /\
    last_decision a' = Some d /\ ds_move d = m /\
    ds_visits d = visits child /\
    rng a' = g /\ evaluator a' = ev.
Proof.
  intros Hit Hwf Hne. unfold finish.
  assert (Hdiv : forall x, div_int x (iterations a)
                           = Ok (x / float_of_int (iterations a))).
  { intros x. unfold div_int.
    now replace (iterations a =? 0)%Z with false
      by (symmetry; apply Z.eqb_neq; lia). }
  destruct (children root) as [|kc0 rest] eqn:Hch; [congruence |].
  cbn [is_nil].
  destruct (map_res_total
              (fun kc : Z * Node => k ← rank_key (snd kc); mret (k, snd kc))
              (kc0 :: rest)) as [keyed Hk].
  { intros kc _. unfold rank_key.
    destruct (mean_value_ok (snd kc)) as [mv ->]. simpl. eauto. }
  rewrite Hk. cbn [mbind res_bind].
  pose proof Hk as HF. apply map_res_Forall2 in HF.
  destruct (sorted_desc keyed) as [|[key best] srest] eqn:Hs.
  - exfalso. inversion HF as [|x y l l' Hxy Hrest]; subst.
    assert (Hin : In y (sorted_desc (y :: l')))
      by (apply sorted_desc_In; now left).
    now rewrite Hs in Hin.
  - assert (Hin : In (key, best) keyed).
    { apply sorted_desc_In. rewrite Hs. now left. }
    destruct (Forall2_In_r _ _ _ _ HF Hin) as ([k child] & Hkc & Hrank).
    unfold rank_key in Hrank.
    destruct (mean_value_ok child) as [mv Hmv]. cbn [snd] in Hrank.
    rewrite Hmv in Hrank. simpl in Hrank. injection Hrank as _ <-.
    rewrite Hmv. cbn [mbind res_bind]. rewrite Hdiv. cbn [mbind res_bind].
    inversion Hwf as [s0 mv0 ch0 un0 vis0 vs0 Hv Hun Hnd Hall]; subst.
    simpl in Hch. subst ch0. rewrite List.Forall_forall in Hall.
    destruct (Hall (k, child) Hkc) as (Hmove & _ & _). cbn [fst snd] in Hmove.
    rewrite Hmove. eexists k, child, _, _.
    split; [reflexivity |]. split; [exact Hkc |].
    repeat split.
Qed.

End SearchFacts.

Section DriverClaims.
Import Game MCTS.
Context {R : Type} `{PyRandom R} {W : Type} `{Host W}
        {E : Type} `{Evaluator E}.
Local Open Scope float_scope.
Local Abbreviation Agent := (@MCTSAgent R E).

(** X15: from a root that is not terminal, the first iteration
    expands a child of the root, so after any positive number of
    completed iterations the root has children and the fallback branch
    of [choose_move] is not taken.  The only exception [choose_move]
    can raise is the [IndexError] of a [_select_child] that found only
    unordered (NaN) scores; in every other case it returns, and what it
    returns is a legal move of the root. *)
Theorem choose_move_legal_spec (a : Agent) (root : GameState)
        (start stop : float) :
  valid_state root -> terminal_outcome root = None ->
  (0 < iterations a)%Z -> ev_total ->
  let c := exploration a in
  let p := player root in
  let root0 := new_node root None in
  (exists root1 v g1 ev1,
      iterate c p root0 (rng a) (evaluator a) = Ok (root1, v, g1, ev1) /\
      children root1 <> []) /\
  (forall n tree g ev,
      (0 < n)%nat ->
      search n c p root0 (rng a) (evaluator a) = Ok (tree, g, ev) ->
      children tree <> []) /\
  ((exists m a', choose_move a root start stop = Ok (m, a') /\
                 In m (legal_moves root)) \/
   (choose_move a root start stop = Raise IndexError /\
    search_raises c p (Z.to_nat (iterations a)) root0
                  (rng a) (evaluator a))).
Proof.
  intros Hv Ht Hit Hev c p root0.
  destruct (first_iteration c p root None (rng a) (evaluator a) Hev Hv Ht)
    as (m1 & v1 & g1 & ev1 & Hm1 & Hfirst).
  fold root0 in Hfirst.
  assert (Hwf0 : wf root0) by now apply new_node_wf.
  assert (Hgrown : forall n tree g ev,
             (0 < n)%nat ->
             search n c p root0 (rng a) (evaluator a) = Ok (tree, g, ev) ->
             children tree <> []).
  { intros n tree g ev Hn Hs. destruct n as [|n]; [lia |].
    cbn [search] in Hs. rewrite Hfirst in Hs. cbn [mbind res_bind] in Hs.
    pose proof (iterate_inv c p Hev root0 (rng a) (evaluator a) Hwf0) as Hi.
    rewrite Hfirst in Hi. cbn [iterate_post] in Hi.
    destruct Hi as (Hwf1 & _).
    pose proof (search_inv c p Hev n _ g1 ev1 Hwf1) as Hsi.
    rewrite Hs in Hsi. destruct Hsi as (_ & _ & _ & Hkeys).
    specialize (Hkeys m1 ltac:(now left)).
    intros Hnil. now rewrite Hnil in Hkeys. }
  split; [| split; [exact Hgrown |]].
  - eexists _, _, _, _. split; [exact Hfirst | discriminate].
  - rewrite choose_move_eq. fold c p root0.
    pose proof (search_inv c p Hev (Z.to_nat (iterations a)) root0
                           (rng a) (evaluator a) Hwf0) as Hsi.
    destruct (search (Z.to_nat (iterations a)) c p root0 (rng a)
                     (evaluator a)) as [[[tree g] ev]|e] eqn:Hs.
    + left. destruct Hsi as (Hwt & Hst & _ & _).
      cbn [mbind res_bind].
      destruct (finish_ranked a root start stop tree g ev Hit Hwt)
        as (m & child & a' & d & Hf & Hin & _).
      { eapply Hgrown; [| exact Hs]. lia. }
      exists m, a'. split; [exact Hf |].
      inversion Hwt as [s0 mv0 ch0 un0 vis0 vs0 Hv0 Hun Hnd Hall]; subst.
      simpl in Hst, Hin. subst s0. rewrite List.Forall_forall in Hall.
      now destruct (Hall (m, child) Hin) as (_ & Hleg & _).
    + right. destruct Hsi as [-> Hr]. split; [reflexivity | exact Hr].
Qed.

(** The tree of a search from a root with the single move [m], after
    [k] iterations. *)
Definition single_tree (root : GameState) (m : Z) (k : Z)
    (vs cvs : float) : Node :=
  mkNode root None [(m, mkNode (moved root m) (Some m) [] [] k cvs)] [] k vs.

Lemma single_tree_wf (root : GameState) (m : Z) (k : Z) (vs cvs : float) :
  valid_state root -> In m (legal_moves root) ->
  wf (single_tree root m k vs cvs).
Proof.
  intros Hv Hm. constructor; [exact Hv | intros ? [] | |].
  - simpl. constructor; [intros [] | constructor].
  - constructor; [| constructor]. cbn [fst snd move].
    split; [reflexivity |]. split; [exact Hm |].
    constructor; [now apply moved_valid | intros ? [] | constructor
                 | constructor].
Qed.

Lemma single_step (c : float) (p : string) (root : GameState) (m : Z)
      (k : Z) (vs cvs : float) (g : R) (ev : E) :
  ev_total -> valid_state root -> terminal_outcome root = None ->
  (exists v g' ev',
      iterate c p (single_tree root m k vs cvs) g ev =
      Ok (single_tree root m (k + 1) (vs + v) (cvs + v), v, g', ev')) \/
  (iterate c p (single_tree root m k vs cvs) g ev = Raise IndexError /\
   select_raises c p (single_tree root m k vs cvs) g).
Proof.
  intros Hev Hv Ht. unfold single_tree at 1 3. rewrite iterate_eq.
  assert (Hsel : selecting (single_tree root m k vs cvs) = true).
  { unfold selecting, single_tree, is_terminal. simpl. now rewrite Ht. }
  assert (Hterm : is_terminal root = false)
    by (unfold is_terminal; now rewrite Ht).
  rewrite Hterm. cbn [negb is_nil andb].
  fold (single_tree root m k vs cvs).
  destruct (select_child_cases c g (single_tree root m k vs cvs) p)
    as [(kc & g1 & Hs & Hin) | [Hs Hall]]; [discriminate | |].
  - left. rewrite Hs. cbn [mbind res_bind].
    destruct Hin as [<- | []]. cbn [fst dict_update].
    rewrite Z.eqb_refl, iterate_eq.
    cbn [is_nil negb]. rewrite !andb_false_r.
    destruct (Hev ev (moved root m) p) as (v & ev' & He);
      [now apply moved_valid |].
    rewrite He. cbn [mbind res_bind mret res_ret].
    exists v, g1, ev'. reflexivity.
  - right. rewrite Hs. split; [reflexivity |].
    apply raises_here; assumption.
Qed.

Lemma single_search (c : float) (p : string) (root : GameState) (m : Z) :
  ev_total -> valid_state root -> terminal_outcome root = None ->
  forall (n : nat) (k : Z) (vs cvs : float) (g : R) (ev : E),
    (exists vs' cvs' g' ev',
        search n c p (single_tree root m k vs cvs) g ev =
        Ok (single_tree root m (k + Z.of_nat n) vs' cvs', g', ev')) \/
    (search n c p (single_tree root m k vs cvs) g ev = Raise IndexError /\
     search_raises c p n (single_tree root m k vs cvs) g ev).
Proof.
  intros Hev Hv Ht. induction n as [|n IH]; intros k vs cvs g ev.
  - left. exists vs, cvs, g, ev. simpl. now rewrite Z.add_0_r.
  - cbn [search].
    destruct (single_step c p root m k vs cvs g ev Hev Hv Ht)
      as [(v & g' & ev' & Hi) | [Hi Hr]].
    + rewrite Hi. cbn [mbind res_bind].
      destruct (IH (k + 1)%Z (vs + v) (cvs + v) g' ev')
        as [(vs' & cvs' & g2 & ev2 & Hs) | [Hs Hr]].
      * left. exists vs', cvs', g2, ev2. rewrite Hs.
        now replace (k + 1 + Z.of_nat n)%Z with (k + Z.of_nat (S n))%Z by lia.
      * right. split; [exact Hs |]. eapply search_raises_later; eauto.
    + right. rewrite Hi. split; [reflexivity |].
      now apply search_raises_first.
Qed.

(** X16: from a state that is not terminal and has the single legal
    move [m], the search keeps the shape root, child, and nothing else:
    the only exception [choose_move] can raise is the [IndexError] of a
    [_select_child] that found the child's score unordered (NaN); in
    every other case it returns [m] and records a visit count equal to
    the iteration budget. *)
Theorem single_move_spec (a : Agent) (root : GameState) (m : Z)
        (start stop : float) :
  valid_state root -> terminal_outcome root = None ->
  legal_moves root = [m] -> (0 < iterations a)%Z -> ev_total ->
  (exists a' d,
      choose_move a root start stop = Ok (m, a') /\
      last_decision a' = Some d /\ ds_move d = m /\
      ds_visits d = iterations a) \/
  (choose_move a root start stop = Raise IndexError /\
   search_raises (exploration a) (player root)
                 (Z.to_nat (iterations a)) (new_node root None)
                 (rng a) (evaluator a)).
Proof.
  intros Hv Ht Hl Hit Hev.
  set (c := exploration a). set (p := player root).
  assert (Hm : In m (legal_moves root)) by (rewrite Hl; now left).
  destruct (first_iteration c p root None (rng a) (evaluator a) Hev Hv Ht)
    as (m1 & v1 & g1 & ev1 & Hm1 & Hfirst).
  rewrite Hl in Hm1. destruct Hm1 as [<- | []].
  assert (Hleaf : legal_moves (moved root m) = []).
  { pose proof (moved_legal_count root m Hv Hm) as Hc. rewrite Hl in Hc.
    simpl in Hc. destruct (legal_moves (moved root m)); [reflexivity |].
    simpl in Hc. lia. }
  rewrite Hleaf, Hl in Hfirst. cbn [list_remove] in Hfirst.
  rewrite Z.eqb_refl in Hfirst.
  change (mkNode root None [(m, mkNode (moved root m) (Some m) [] [] 1 (0 + v1))]
                 [] 1 (0 + v1))
    with (single_tree root m 1 (0 + v1) (0 + v1)) in Hfirst.
  rewrite choose_move_eq. fold c p.
  destruct (Z.to_nat (iterations a)) as [|n] eqn:Hn; [lia |].
  cbn [search]. rewrite Hfirst. cbn [mbind res_bind].
  destruct (single_search c p root m Hev Hv Ht n 1 (0 + v1) (0 + v1) g1 ev1)
    as [(vs' & cvs' & g2 & ev2 & Hs) | [Hs Hr]].
  - left. rewrite Hs. cbn [mbind res_bind].
    destruct (finish_ranked a root start stop
                (single_tree root m (1 + Z.of_nat n) vs' cvs') g2 ev2 Hit)
      as (m' & child & a' & d & Hf & Hin & Hd & Hdm & Hdv & _);
      [now apply single_tree_wf | discriminate |].
    destruct Hin as [[= <- <-] | []]. exists a', d.
    split; [exact Hf |]. split; [exact Hd |]. split; [exact Hdm |].
    rewrite Hdv. simpl. lia.
  - right. rewrite Hs. split; [reflexivity |].
    eapply search_raises_later; eauto.
Qed.

End DriverClaims.

Section DriverExamples.
Import Game MCTS.
Local Open Scope float_scope.

Lemma random_rollout_ev_total (R : Type) (G : PyRandom R) :
  ev_total (E := R).
Proof.
  intros g s p Hv.
  destruct (random_rollout_evaluate_total g s p Hv) as (v & g' & He & _).
  exists v, g'. exact He.
Qed.

(** The evaluator with a cache returns on every well-formed state too,
    so the statements below cover both evaluators of the code. *)
Lemma llm_ev_total (R : Type) (G : PyRandom R) (W : Type) (H : Host W) :
  ev_total (E := Evaluators.LLMPositionEvaluator * W)
           (H1 := LLMEvaluator G).
Proof.
  intros [e w] s p Hv. cbn [ev_evaluate LLMEvaluator fst snd].
  destruct (terminal_value s p) as [t|] eqn:Ht.
  - exists t, (e, w). now apply evaluate_terminal.
  - destruct (Evaluators.cache e !! Evaluators.cache_key e s p)
      as [v|] eqn:Hk.
    + eexists v, (_, w). now apply evaluate_hit.
    + destruct (evaluate_miss (R := R) e w s p Hv Ht Hk)
        as (v & e' & w' & He & _).
      now exists v, (e', w').
Qed.

(** The position of the repository's single-move test: only cell 8 is
    empty, X to move. *)
Definition one_left : GameState :=
  mkGameState ["X"; "O"; "X"; "X"; "O"; "O"; "O"; "X"; "."] "X".

Lemma one_left_valid : valid_state one_left.
Proof. split; [reflexivity | left; reflexivity]. Qed.

(** [MCTSAgent(RandomRolloutEvaluator(seed=1), iterations=n,
    exploration=c, seed=1)] over the stand-in generator. *)
Definition rollout_agent (n : Z) (c : float) : @MCTSAgent Z Z :=
  mkAgent 1%Z n c 1%Z "mcts" None.

Lemma rollout_agent_new (n : Z) (c : float) :
  (0 < n)%Z ->
  new_agent 1%Z n c (Some 1%Z) 0%Z "mcts" = Ok (rollout_agent n c).
Proof.
  intros Hn. unfold new_agent.
  replace (n <=? 0)%Z with false by (symmetry; apply Z.leb_gt; lia).
  reflexivity.
Qed.

(** The repository's test: fifty iterations on [one_left] choose move 8,
    visited fifty times. *)
Example single_move_test :
  exists a',
    choose_move (W := unit) (rollout_agent 50 (PrimFloat.sqrt 2))
                one_left 0 1 = Ok (8%Z, a') /\
    option_map ds_visits (last_decision a') = Some 50%Z.
Proof. eexists. vm_compute. split; reflexivity. Qed.

(** X16, witness: the single-move test position with fifty
    iterations. *)
Lemma single_move_spec_witness :
  valid_state one_left /\ terminal_outcome one_left = None /\
  legal_moves one_left = [8%Z] /\
  (0 < iterations (rollout_agent 50 (PrimFloat.sqrt 2)))%Z /\
  ev_total (E := Z) /\
  ((exists a' d,
       choose_move (W := unit) (rollout_agent 50 (PrimFloat.sqrt 2))
                   one_left 0 1 = Ok (8%Z, a') /\
       last_decision a' = Some d /\ ds_move d = 8%Z /\
       ds_visits d = iterations (rollout_agent 50 (PrimFloat.sqrt 2))) \/
   (choose_move (W := unit) (rollout_agent 50 (PrimFloat.sqrt 2))
                one_left 0 1 = Raise IndexError /\
    search_raises (W := unit)
      (exploration (rollout_agent 50 (PrimFloat.sqrt 2)))
      (player one_left)
      (Z.to_nat (iterations (rollout_agent 50 (PrimFloat.sqrt 2))))
      (new_node one_left None)
      (rng (rollout_agent 50 (PrimFloat.sqrt 2)))
      (evaluator (rollout_agent 50 (PrimFloat.sqrt 2))))).
Proof.
  split; [exact one_left_valid |]. split; [reflexivity |].
  split; [reflexivity |]. split; [reflexivity |].
  split; [exact (random_rollout_ev_total Z Doubles.lcg) |].
  exact (single_move_spec (W := unit)
           (rollout_agent 50 (PrimFloat.sqrt 2)) one_left 8%Z 0 1
           one_left_valid eq_refl eq_refl eq_refl
           (random_rollout_ev_total Z Doubles.lcg)).
Defined.

(** C8, failing input: on the position of the repository's single-move
    test, an agent built with an infinite or NaN exploration constant
    and a budget of two returns no move: the second iteration scores the
    only child NaN ([inf * 0.0] is [nan]), the candidate list of
    [_select_child] stays empty and [rng.choice] raises [IndexError]. *)
Lemma single_move_unordered_score :
  valid_state one_left /\ terminal_outcome one_left = None /\
  legal_moves one_left = [8%Z] /\
  new_agent 1%Z 2%Z infinity (Some 1%Z) 0%Z "mcts"
  = Ok (rollout_agent 2 infinity) /\
  choose_move (W := unit) (rollout_agent 2 infinity) one_left 0 1
  = Raise IndexError /\
  choose_move (W := unit) (rollout_agent 2 nan) one_left 0 1
  = Raise IndexError.
Proof.
  split; [exact one_left_valid |]. repeat split; vm_compute; reflexivity.
Qed.

(** X15, witness: the initial position with three hundred
    iterations. *)
Lemma choose_move_legal_spec_witness :
  valid_state initial_state /\ terminal_outcome initial_state = None /\
  (0 < iterations (rollout_agent 300 (PrimFloat.sqrt 2)))%Z /\
  ev_total (E := Z) /\
  ((exists root1 v g1 ev1,
       iterate (W := unit)
               (exploration (rollout_agent 300 (PrimFloat.sqrt 2)))
               (player initial_state) (new_node initial_state None)
               (rng (rollout_agent 300 (PrimFloat.sqrt 2)))
               (evaluator (rollout_agent 300 (PrimFloat.sqrt 2)))
       = Ok (root1, v, g1, ev1) /\
       children root1 <> []) /\
   (forall n tree g ev,
       (0 < n)%nat ->
       search (W := unit)
              n (exploration (rollout_agent 300 (PrimFloat.sqrt 2)))
              (player initial_state) (new_node initial_state None)
              (rng (rollout_agent 300 (PrimFloat.sqrt 2)))
              (evaluator (rollout_agent 300 (PrimFloat.sqrt 2)))
       = Ok (tree, g, ev) ->
       children tree <> []) /\
   ((exists m a',
        choose_move (W := unit) (rollout_agent 300 (PrimFloat.sqrt 2))
                    initial_state 0 1 = Ok (m, a') /\
        In m (legal_moves initial_state)) \/
    (choose_move (W := unit) (rollout_agent 300 (PrimFloat.sqrt 2))
                 initial_state 0 1 = Raise IndexError /\
     search_raises (W := unit)
       (exploration (rollout_agent 300 (PrimFloat.sqrt 2)))
       (player initial_state)
       (Z.to_nat (iterations (rollout_agent 300 (PrimFloat.sqrt 2))))
       (new_node initial_state None)
       (rng (rollout_agent 300 (PrimFloat.sqrt 2)))
       (evaluator (rollout_agent 300 (PrimFloat.sqrt 2)))))).
Proof.
  split; [exact initial_state_valid |]. split; [reflexivity |].
  split; [reflexivity |].
  split; [exact (random_rollout_ev_total Z Doubles.lcg) |].
  exact (choose_move_legal_spec (W := unit)
           (rollout_agent 300 (PrimFloat.sqrt 2)) initial_state 0 1
           initial_state_valid eq_refl eq_refl
           (random_rollout_ev_total Z Doubles.lcg)).
Defined.

(** C10, failing input: with a NaN exploration constant and a budget of
    ten the search from the initial position returns no move: the tenth
    iteration finds the root fully expanded, scores its nine children
    NaN, and [rng.choice] raises [IndexError] on the empty candidate
    list. *)
Lemma choose_move_unordered_scores :
  valid_state initial_state /\ terminal_outcome initial_state = None /\
  new_agent 1%Z 10%Z nan (Some 1%Z) 0%Z "mcts" = Ok (rollout_agent 10 nan) /\
  choose_move (W := unit) (rollout_agent 10 nan) initial_state 0 1
  = Raise IndexError.
Proof.
  split; [exact initial_state_valid |]. repeat split; vm_compute; reflexivity.
Qed.

End DriverExamples.

Section Determinism.
Import Game Evaluators MCTS.
Local Open Scope float_scope.


Section Agents.
Context {R : Type} `{PyRandom R} {W : Type} `{Host W}
        {E : Type} `{Evaluator E}.




End Agents.

End Determinism.

(** ** Objects of one interpreter *)

Section Objects.
Import Game Evaluators MCTS.
Local Open Scope float_scope.
Context {R : Type} `{PyRandom R} {W : Type} `{Host W}.

(** The part of the interpreter's state the agents and evaluators live
    in.  [generators] holds the [random.Random] objects by address;
    address 0 is the hidden instance behind the functions of module
    [random].  [decisions] holds the [last_decision] attribute of the
    agents.  [urandom] is what the operating system hands out as entropy
    and [perf_counter] what the clock shows, each with the number of
    reads so far. *)
Record Interp : Type := mkInterp {
  generators : gmap nat R;
  decisions : gmap nat DecisionStats;
  next_address : nat;
  urandom : nat -> Z;
  urandom_reads : nat;
  perf_counter : nat -> float;
  clock_reads : nat
}.

(** [random.Random(seed)]: a new object; without a seed it reads
    entropy. *)
Definition new_Random (seed : option Z) (i : Interp) : nat * Interp :=
  let a := next_address i in
  (a,
   mkInterp (<[a := Random seed (urandom i (urandom_reads i))]>
               (generators i))
            (decisions i) (S a) (urandom i)
            (match seed with
             | Some _ => urandom_reads i
             | None => S (urandom_reads i)
             end)
            (perf_counter i) (clock_reads i)).

(** [RandomRolloutEvaluator(seed)]: the object is its generator, which
    nothing else refers to. *)
Definition new_RandomRolloutEvaluator (seed : option Z) (i : Interp)
  : nat * Interp :=
  new_Random seed i.



(** An [MCTSAgent] object: the references and values [__init__]
    stores. *)
Record AgentObject : Type := mkAgentObject {
  ao_evaluator : nat;
  ao_iterations : Z;
  ao_exploration : float;
  ao_rng : nat;
  ao_name : string
}.

(** [MCTSAgent(evaluator, iterations, exploration, seed, name)] *)
Definition new_MCTSAgent (ev : nat) (iters : Z) (c : float)
    (seed : option Z) (nm : string) (i : Interp)
  : res (AgentObject * Interp) :=
  if (iters <=? 0)%Z then Raise ValueError
  else
    let '(a, i') := new_Random seed i in
    Ok (mkAgentObject ev iters c a nm, i').

(** The agent as [choose_move] finds it. *)
Definition load (a : AgentObject) (i : Interp) : option (@MCTSAgent R R) :=
  g ← generators i !! ao_rng a;
  e ← generators i !! ao_evaluator a;
  Some (mkAgent e (ao_iterations a) (ao_exploration a) g (ao_name a)
                (decisions i !! ao_rng a)).

(** What [choose_move] leaves behind: the two generators it drew from,
    the decision, and two more readings of the clock.  The agent's
    generator and its evaluator's are different objects, both made by a
    constructor. *)
Definition store (a : AgentObject) (st : @MCTSAgent R R) (i : Interp)
  : Interp :=
  mkInterp (<[ao_rng a := rng st]>
              (<[ao_evaluator a := evaluator st]> (generators i)))
           (match last_decision st with
            | Some d => <[ao_rng a := d]> (decisions i)
            | None => decisions i
            end)
           (next_address i) (urandom i) (urandom_reads i)
           (perf_counter i) (S (S (clock_reads i))).

(** [agent.choose_move(state)] *)
Definition choose_move_at (a : AgentObject) (s : GameState) (i : Interp)
  : res (Z * Interp) :=
  match load a i with
  | None => Raise KeyError
  | Some st =>
      '(m, st') ←
        choose_move (W := W) st s (perf_counter i (clock_reads i))
                    (perf_counter i (S (clock_reads i)));
      mret (m, store a st' i)
  end.

(** Two objects called in the order [sched] gives ([true]: the first),
    each on its own inputs in turn; a turn for an object whose inputs
    are used up is skipped. *)
Fixpoint interleave {X Y : Type}
    (call1 call2 : X -> Interp -> res (Y * Interp)) (sched : list bool)
    (xs1 xs2 : list X) (i : Interp) : res (list Y * list Y * Interp) :=
  match sched with
  | [] => Ok ([], [], i)
  | true :: rest =>
      match xs1 with
      | [] => interleave call1 call2 rest xs1 xs2 i
      | x :: xs1' =>
          '(y, i') ← call1 x i;
          '(ys1, ys2, i'') ← interleave call1 call2 rest xs1' xs2 i';
          mret (y :: ys1, ys2, i'')
      end
  | false :: rest =>
      match xs2 with
      | [] => interleave call1 call2 rest xs1 xs2 i
      | x :: xs2' =>
          '(y, i') ← call2 x i;
          '(ys1, ys2, i'') ← interleave call1 call2 rest xs1 xs2' i';
          mret (ys1, y :: ys2, i'')
      end
  end.




(** Two agents made one after the other, each with an evaluator of its
    own. *)
Definition two_agents (evaluator_seed agent_seed : option Z) (iters : Z)
    (c : float) (name1 name2 : string) (i : Interp)
  : res (AgentObject * AgentObject * Interp) :=
  let '(e1, i1) := new_RandomRolloutEvaluator evaluator_seed i in
  '(a1, i2) ← new_MCTSAgent e1 iters c agent_seed name1 i1;
  let '(e2, i3) := new_RandomRolloutEvaluator evaluator_seed i2 in
  '(a2, i4) ← new_MCTSAgent e2 iters c agent_seed name2 i3;
  mret (a1, a2, i4).

Section Interleaving.
Context {X Y St : Type}.
Variable step : St -> X -> res (Y * St).
Variables call1 call2 : X -> Interp -> res (Y * Interp).
Variables holds1 holds2 : St -> Interp -> Prop.
Variable kept : Interp -> Interp -> Prop.
Hypothesis kept_refl : forall i, kept i i.
Hypothesis kept_trans : forall i j k, kept i j -> kept j k -> kept i k.
Hypothesis call1_step :
  forall st1 st2 x i y i',
    holds1 st1 i -> holds2 st2 i -> call1 x i = Ok (y, i') ->
    exists st1', step st1 x = Ok (y, st1') /\
                 holds1 st1' i' /\ holds2 st2 i' /\ kept i i'.
Hypothesis call2_step :
  forall st1 st2 x i y i',
    holds1 st1 i -> holds2 st2 i -> call2 x i = Ok (y, i') ->
    exists st2', step st2 x = Ok (y, st2') /\
                 holds1 st1 i' /\ holds2 st2' i' /\ kept i i'.


End Interleaving.

End Objects.

Section Separation.
Import Game Evaluators MCTS.
Local Open Scope float_scope.
Context {R : Type} {G : PyRandom R} {W : Type} {HW : Host W}.












End Separation.

Section SeparateObjects.
Import Game Evaluators MCTS.
Local Open Scope float_scope.



(** An interpreter that has made no object yet. *)
Definition fresh_interp : @Interp Z :=
  mkInterp (<[0%nat := 7%Z]> ∅) ∅ 1 (fun n => Z.of_nat n + 100)%Z 0
           (fun n => float_of_int (Z.of_nat n)) 0.

(** A position after one move of each player. *)
Definition early : GameState :=
  mkGameState ["X"; "."; "."; "."; "O"; "."; "."; "."; "."] "X".


(** Two agents given one evaluator object: the constructor stores the
    reference, so both draw rollouts from the same generator. *)
Definition shared_evaluator (agent_seed : Z) (iters : Z) (c : float)
    (i : @Interp Z) : res (AgentObject * AgentObject * @Interp Z) :=
  let '(e, i1) := new_RandomRolloutEvaluator (Some 1%Z) i in
  '(a1, i2) ← new_MCTSAgent e iters c (Some agent_seed) "a" i1;
  '(a2, i3) ← new_MCTSAgent e iters c (Some agent_seed) "b" i2;
  mret (a1, a2, i3).

(** What separates the objects matters: with one evaluator object for
    both agents the same seeds and the same questions give different
    second moves (2 and 7 under the stand-in generator). *)
Example shared_evaluator_moves :
  match shared_evaluator 1 5 (PrimFloat.sqrt 2) fresh_interp with
  | Ok (a1, a2, i) =>
      fst <$> interleave (choose_move_at (W := unit) a1)
                         (choose_move_at (W := unit) a2)
                         [true; false; true; false]
                         [initial_state; early] [initial_state; early] i
  | Raise e => Raise e
  end = Ok ([8%Z; 2%Z], [8%Z; 7%Z]).
Proof. vm_compute. reflexivity. Qed.

(** So does the seed: without one each generator is seeded from the
    entropy it reads, and the moves differ. *)
Example unseeded_agents_moves :
  match two_agents None None 5 (PrimFloat.sqrt 2) "a" "b" fresh_interp with
  | Ok (a1, a2, i) =>
      fst <$> interleave (choose_move_at (W := unit) a1)
                         (choose_move_at (W := unit) a2)
                         [true; false; false; true]
                         [initial_state; early] [initial_state; early] i
  | Raise e => Raise e
  end = Ok ([8%Z; 1%Z], [7%Z; 8%Z]).
Proof. vm_compute. reflexivity. Qed.

End SeparateObjects.

(** * Further properties *)

(** ** Boards of marks *)

Section StandardBoards.
Import Game.

(** One of the three symbols a cell holds in play. *)
Definition mark (c : string) : Prop :=
  c = PLAYER_X \/ c = PLAYER_O \/ c = EMPTY.

(** A state accepted by the constructor whose cells are all marks: the
    constructor does not check the cells, play from [initial_state] and
    [parse_state] produce no others. *)
Definition standard (s : GameState) : Prop :=
  valid_state s /\ List.Forall mark (board s).

Lemma initial_state_standard : standard initial_state.
Proof.
  split; [exact initial_state_valid |].
  apply List.Forall_forall. intros c Hc.
  apply list_elem_of_In, elem_of_replicate in Hc as [-> _].
  right; right; reflexivity.
Qed.

Lemma cell_mark (cells : list string) (i : nat) :
  List.Forall mark cells -> mark (cell cells i).
Proof.
  intros Hall. unfold cell.
  destruct (nth_in_or_default i cells EMPTY) as [Hin | ->].
  - rewrite List.Forall_forall in Hall. now apply Hall.
  - right; right; reflexivity.
Qed.

Lemma moved_standard (s : GameState) (move : Z) :
  standard s -> standard (moved s move).
Proof.
  intros [Hv Hall]. split; [now apply moved_valid |].
  simpl. apply List.Forall_forall. intros c Hc.
  apply list_elem_of_In, list_elem_of_lookup in Hc as [i Hi].
  destruct (decide (i = Z.to_nat move)) as [-> | Hne].
  - pose proof (lookup_lt_Some _ _ _ Hi) as Hlt.
    rewrite length_insert in Hlt.
    rewrite list_lookup_insert_eq in Hi by exact Hlt.
    injection Hi as <-. destruct Hv as [_ [-> | ->]]; [left | right; left];
      reflexivity.
  - rewrite list_lookup_insert_ne in Hi by congruence.
    rewrite List.Forall_forall in Hall. apply Hall.
    apply list_elem_of_In. eapply list_elem_of_lookup_2; eauto.
Qed.

(** The three cells of line [l] hold [w]. *)
Definition complete (cells : list string) (l : nat * nat * nat)
    (w : string) : Prop :=
  cell cells (fst (fst l)) = w /\ cell cells (snd (fst l)) = w /\
  cell cells (snd l) = w.

Lemma line_winner_complete (cells : list string) (l : nat * nat * nat) :
  line_winner cells l = true <->
  cell cells (fst (fst l)) <> EMPTY /\
  complete cells l (cell cells (fst (fst l))).
Proof.
  destruct l as [[a b] c]. unfold line_winner, complete. simpl.
  rewrite !andb_true_iff, negb_true_iff, String.eqb_neq, !String.eqb_eq.
  split.
  - intros [[Hne Hab] Hbc]. repeat split; congruence.
  - intros (Hne & _ & Hb & Hc). repeat split; congruence.
Qed.

Lemma winner_in_Some (lines : list (nat * nat * nat)) (cells : list string)
      (w : string) :
  winner_in lines cells = Some w ->
  w <> EMPTY /\ exists l, In l lines /\ complete cells l w.
Proof.
  induction lines as [|l rest IH]; simpl; [discriminate |].
  destruct (line_winner cells l) eqn:Hl.
  - intros [= <-]. apply line_winner_complete in Hl as [Hne Hc].
    split; [exact Hne |]. exists l. split; [now left | exact Hc].
  - intros Hw. destruct (IH Hw) as (Hne & l' & Hin & Hc).
    split; [exact Hne |]. exists l'. split; [now right | exact Hc].
Qed.


Lemma has_empty_In (cells : list string) :
  has_empty cells = true <-> In EMPTY cells.
Proof.
  unfold has_empty. rewrite existsb_exists. split.
  - intros (c & Hin & Heq). apply String.eqb_eq in Heq. now subst.
  - intros Hin. exists EMPTY. split; [exact Hin | reflexivity].
Qed.

Lemma standard_outcome (s : GameState) (o : string) :
  standard s -> terminal_outcome s = Some o ->
  o = PLAYER_X \/ o = PLAYER_O \/ o = DRAW.
Proof.
  intros [Hv Hall]. unfold terminal_outcome, winner.
  destruct (winner_in WIN_LINES (board s)) as [w|] eqn:Hw.
  - intros [= <-]. destruct (winner_in_Some _ _ _ Hw) as (Hne & l & _ & Ha & _).
    pose proof (cell_mark (board s) (fst (fst l)) Hall) as Hm.
    rewrite Ha in Hm. destruct Hm as [? | [? | ?]]; tauto.
  - destruct (negb _); [intros [= <-]; tauto | discriminate].
Qed.



End StandardBoards.

Section GameExtras.
Import Game.
Local Open Scope float_scope.

(** X3: on a board of marks, for a perspective that is a player, the
    values of a finished game for the two players are 1 and 0 (the
    winner's and the loser's) or 0.5 and 0.5 (a draw); in a game that is
    not finished both are [None]. *)
Theorem terminal_value_zero_sum (s : GameState) (p : string) :
  standard s -> p = PLAYER_X \/ p = PLAYER_O ->
  match terminal_outcome s with
  | None =>
      terminal_value s p = None /\
      terminal_value s (other_player p) = None
  | Some o =>
      (o = p /\ terminal_value s p = Some 1 /\
       terminal_value s (other_player p) = Some 0) \/
      (o = other_player p /\ terminal_value s p = Some 0 /\
       terminal_value s (other_player p) = Some 1) \/
      (o = DRAW /\ terminal_value s p = Some 0.5 /\
       terminal_value s (other_player p) = Some 0.5)
  end.
Proof.
  intros Hs Hp. unfold terminal_value.
  destruct (terminal_outcome s) as [o|] eqn:Ho; [| tauto].
  destruct (standard_outcome s o Hs Ho) as [-> | [-> | ->]];
    destruct Hp as [-> | ->]; vm_compute; tauto.
Qed.

(** X3, witness: a position X has won, seen by X. *)
Lemma terminal_value_zero_sum_witness :
  standard won_with_empties /\ ("X" = PLAYER_X \/ "X" = PLAYER_O) /\
  match terminal_outcome won_with_empties with
  | None =>
      terminal_value won_with_empties "X" = None /\
      terminal_value won_with_empties (other_player "X") = None
  | Some o =>
      (o = "X" /\ terminal_value won_with_empties "X" = Some 1 /\
       terminal_value won_with_empties (other_player "X") = Some 0) \/
      (o = other_player "X" /\ terminal_value won_with_empties "X" = Some 0 /\
       terminal_value won_with_empties (other_player "X") = Some 1) \/
      (o = DRAW /\ terminal_value won_with_empties "X" = Some 0.5 /\
       terminal_value won_with_empties (other_player "X") = Some 0.5)
  end.
Proof.
  assert (Hs : standard won_with_empties).
  { split; [split; [reflexivity | right; reflexivity] |].
    repeat constructor; vm_compute; tauto. }
  split; [exact Hs |]. split; [left; reflexivity |].
  exact (terminal_value_zero_sum won_with_empties "X" Hs (or_introl eq_refl)).
Defined.

Lemma empty_indices_after (cells : list string) (k : Z) (n : nat)
      (p : string) :
  p <> EMPTY ->
  empty_indices k (<[n := p]> cells) =
  List.filter (fun i => negb (i =? k + Z.of_nat n)%Z) (empty_indices k cells).
Proof.
  intros Hp. revert k n. induction cells as [|c rest IH]; intros k n;
    [reflexivity |].
  assert (Hkeep : forall j, (k < j)%Z ->
            List.filter (fun i => negb (i =? k)%Z) (empty_indices j rest)
            = empty_indices j rest).
  { intros j Hj. apply forallb_filter_id. apply forallb_forall.
    intros i Hi. apply empty_indices_In in Hi as [Hle _].
    apply negb_true_iff, Z.eqb_neq. lia. }
  destruct n as [|n]; simpl.
  - apply String.eqb_neq in Hp. rewrite Hp, Z.add_0_r.
    destruct (String.eqb c EMPTY); simpl.
    + rewrite Z.eqb_refl. simpl. symmetry. apply Hkeep. lia.
    + symmetry. apply Hkeep. lia.
  - rewrite IH.
    replace (k + 1 + Z.of_nat n)%Z with (k + Z.of_nat (S n))%Z by lia.
    destruct (String.eqb c EMPTY); [| reflexivity].
    cbn [List.filter].
    destruct (Z.eqb_spec k (k + Z.of_nat (S n))) as [Hk | Hk]; [lia |].
    reflexivity.
Qed.

(** X4: [apply_move] succeeds exactly on the moves [legal_moves] lists;
    the new state has the same legal moves but the one played, and the
    other player to move. *)
Theorem legal_moves_after_move (s : GameState) (m : Z) :
  valid_state s ->
  (is_ok (apply_move s m) = true <-> In m (legal_moves s)) /\
  (forall s', apply_move s m = Ok s' ->
     legal_moves s' =
     List.filter (fun i => negb (i =? m)%Z) (legal_moves s) /\
     length (legal_moves s) = S (length (legal_moves s')) /\
     player s' = other_player (player s)).
Proof.
  intros Hv. split.
  - split.
    + destruct (apply_move s m) as [s'|e] eqn:Ha; [| discriminate].
      intros _. apply apply_move_inv in Ha as (Hr & Hc & _).
      apply legal_moves_In. split; [lia | exact Hc].
    + intros Hin. now rewrite (apply_legal_move s m Hv Hin).
  - intros s' Ha. pose proof Ha as Ha'.
    apply apply_move_inv in Ha as (Hr & Hc & ->).
    assert (Hin : In m (legal_moves s))
      by (apply legal_moves_In; split; [lia | exact Hc]).
    split; [| split; [| reflexivity]].
    + unfold legal_moves, moved. simpl.
      rewrite empty_indices_after by now apply valid_player_not_empty.
      now rewrite Z2Nat.id by lia.
    + symmetry. now apply moved_legal_count.
Qed.

(** X4, witness: the initial position and the centre. *)
Lemma legal_moves_after_move_witness :
  valid_state initial_state /\
  ((is_ok (apply_move initial_state 4%Z) = true <->
    In 4%Z (legal_moves initial_state)) /\
   (forall s', apply_move initial_state 4%Z = Ok s' ->
      legal_moves s' =
      List.filter (fun i => negb (i =? 4)%Z) (legal_moves initial_state) /\
      length (legal_moves initial_state) = S (length (legal_moves s')) /\
      player s' = other_player (player initial_state))).
Proof.
  split; [exact initial_state_valid |].
  exact (legal_moves_after_move initial_state 4%Z initial_state_valid).
Defined.

End GameExtras.

(** ** Text forms of a state *)

Section TextForms.
Import Game.

Lemma mark_symbol (c : string) :
  mark c <-> exists a, c = String a EmptyString /\ is_symbol a = true.
Proof.
  split.
  - intros [-> | [-> | ->]]; eexists; split; reflexivity.
  - intros (a & -> & Ha). unfold is_symbol in Ha.
    apply orb_true_iff in Ha as [Ha | Ha];
      [apply orb_true_iff in Ha as [Ha | Ha] |];
      apply String.eqb_eq in Ha; rewrite Ha; unfold mark; tauto.
Qed.

Lemma cleaned_marks (board_text : string) :
  List.Forall mark (cleaned board_text).
Proof.
  unfold cleaned. apply List.Forall_forall. intros c Hc.
  apply in_map_iff in Hc as (a & <- & Ha).
  apply filter_In in Ha as [_ Ha].
  apply mark_symbol. now exists a.
Qed.

Lemma new_state_inv (b : list string) (p : string) (s : GameState) :
  new_state b p = Ok s ->
  length b = 9%nat /\ (p = PLAYER_X \/ p = PLAYER_O) /\ s = mkGameState b p.
Proof.
  unfold new_state. intros H.
  destruct (Nat.eqb_spec (length b) 9) as [Hl | Hl]; [| discriminate].
  simpl in H.
  destruct (String.eqb_spec p PLAYER_X) as [-> | Hx]; simpl in H.
  - injection H as <-. tauto.
  - destruct (String.eqb_spec p PLAYER_O) as [-> | Ho]; simpl in H;
      [| discriminate].
    injection H as <-. tauto.
Qed.

Lemma new_state_same (s : GameState) :
  valid_state s -> new_state (board s) (player s) = Ok s.
Proof.
  intros [Hl Hp]. unfold new_state. rewrite Hl. simpl.
  destruct s as [b p]. simpl in *.
  destruct Hp as [-> | ->]; reflexivity.
Qed.

Lemma parse_state_standard_render (s : GameState) :
  standard s -> parse_state (render s) (player s) = Ok s.
Proof.
  intros [Hv Hall].
  assert (Hc : cleaned (render s) = board s).
  { destruct Hv as [Hl _]. destruct s as [b p]. simpl in *.
    do 9 (destruct b as [|? b]; [discriminate |]).
    destruct b; [| discriminate].
    repeat match goal with
           | H : List.Forall mark (_ :: _) |- _ =>
               apply Forall_cons_1 in H as [?%mark_symbol H]
           end.
    repeat match goal with
           | H : exists a, _ |- _ => destruct H as (? & -> & ?)
           end.
    cbv -[is_symbol].
    repeat match goal with
           | H : is_symbol _ = true |- _ => rewrite H; clear H
           end.
    reflexivity. }
  unfold parse_state. rewrite Hc.
  destruct Hv as [Hl Hp]. rewrite Hl. simpl.
  apply new_state_same. now split.
Qed.

(** X5: rendering a state whose cells are marks and parsing the text for
    the same player gives the state back. *)
Theorem parse_state_render (s : GameState) :
  standard s -> parse_state (render s) (player s) = Ok s.
Proof.
  exact (parse_state_standard_render s).
Qed.

(** X5, witness: the initial position. *)
Lemma parse_state_render_witness :
  standard initial_state /\
  parse_state (render initial_state) (player initial_state) = Ok initial_state.
Proof.
  split; [exact initial_state_standard |].
  exact (parse_state_render initial_state initial_state_standard).
Defined.

(** X6: whatever [parse_state] accepts is a board of nine marks for the
    player given, namely the symbols of the text in order, and parsing its
    rendering gives it again; every other text or player raises
    [ValueError]. *)
Theorem parse_state_spec (board_text p : string) :
  match parse_state board_text p with
  | Ok s =>
      standard s /\ board s = cleaned board_text /\ player s = p /\
      parse_state (render s) p = Ok s
  | Raise e =>
      e = ValueError /\
      (length (cleaned board_text) <> 9%nat \/
       (p <> PLAYER_X /\ p <> PLAYER_O))
  end.
Proof.
  unfold parse_state.
  destruct (Nat.eqb_spec (length (cleaned board_text)) 9) as [Hl | Hl];
    simpl; [| tauto].
  unfold new_state. rewrite Hl. simpl.
  destruct (String.eqb_spec p PLAYER_X) as [-> | Hx]; simpl.
  - assert (Hs : standard (mkGameState (cleaned board_text) PLAYER_X))
      by (split; [split; [exact Hl | now left] | apply cleaned_marks]).
    repeat split; try apply Hs.
    pose proof (parse_state_standard_render _ Hs) as Hr. exact Hr.
  - destruct (String.eqb_spec p PLAYER_O) as [-> | Ho]; simpl; [| tauto].
    assert (Hs : standard (mkGameState (cleaned board_text) PLAYER_O))
      by (split; [split; [exact Hl | now right] | apply cleaned_marks]).
    repeat split; try apply Hs.
    pose proof (parse_state_standard_render _ Hs) as Hr. exact Hr.
Qed.

Lemma concat_cons (x : string) (xs : list string) :
  String.concat "" (x :: xs) = String.append x (String.concat "" xs).
Proof.
  destruct xs as [|y ys]; [| reflexivity].
  cbn [String.concat].
  induction x as [|a x IH]; [reflexivity |].
  unfold String.append; fold String.append. now rewrite <- IH.
Qed.

Lemma key_text_inj (l1 l2 : list string) (t1 t2 : string) :
  List.Forall mark l1 -> List.Forall mark l2 -> length l1 = length l2 ->
  String.append (String.concat "" l1) t1 =
  String.append (String.concat "" l2) t2 ->
  l1 = l2 /\ t1 = t2.
Proof.
  intros H1. revert l2. induction H1 as [|c1 l1 Hc1 H1 IH];
    intros l2 H2 Hlen Heq.
  - destruct l2; [| discriminate]. simpl in Heq. now split.
  - destruct H2 as [|c2 l2 Hc2 H2]; [discriminate |].
    rewrite !concat_cons in Heq.
    apply mark_symbol in Hc1 as (a1 & -> & _).
    apply mark_symbol in Hc2 as (a2 & -> & _).
    unfold String.append in Heq; fold String.append in Heq.
    injection Heq as -> Heq.
    simpl in Hlen. injection Hlen as Hlen.
    destruct (IH l2 H2 Hlen Heq) as [-> ->]. now split.
Qed.

(** X7: on boards of marks [state_key] tells states apart: equal keys
    mean equal boards and equal players to move. *)
Theorem state_key_injective (s1 s2 : GameState) :
  standard s1 -> standard s2 -> state_key s1 = state_key s2 -> s1 = s2.
Proof.
  intros [[Hl1 _] Hm1] [[Hl2 _] Hm2] Hk. unfold state_key in Hk.
  destruct (key_text_inj _ _ _ _ Hm1 Hm2 (eq_trans Hl1 (eq_sym Hl2)) Hk)
    as [Hb Hp].
  unfold String.append in Hp. injection Hp as Hp.
  destruct s1, s2; simpl in *; congruence.
Qed.

(** X7, witness: the initial position against itself. *)
Lemma state_key_injective_witness :
  standard initial_state /\ state_key initial_state = state_key initial_state
  /\ initial_state = initial_state.
Proof.
  split; [exact initial_state_standard |]. split; [reflexivity |].
  exact (state_key_injective initial_state initial_state
           initial_state_standard initial_state_standard eq_refl).
Defined.

End TextForms.

(** ** Minimax as a zero-sum value *)

Section MinimaxExtras.
Import Game Minimax.
Local Open Scope float_scope.

Lemma Forall2_map_right {A B C : Type} (P : A -> B -> Prop)
      (Q : A -> C -> Prop) (c : B -> C) (l : list A) (ys : list B) :
  List.Forall2 P l ys ->
  (forall x y, In x l -> P x y -> Q x (c y)) ->
  List.Forall2 Q l (map c ys).
Proof.
  induction 1 as [|x y l ys Hxy _ IH]; intros Himp; simpl; constructor.
  - apply Himp; [now left | exact Hxy].
  - apply IH. intros x' y' Hin. apply Himp. now right.
Qed.

(** The values of the children of a state, as [minimax_value] collects
    them. *)
Lemma children_values (s : GameState) (p : string) :
  valid_state s ->
  exists cvs,
    map_res (fun move => child ← apply_move s move; minimax_value child p)
            (legal_moves s) = Ok cvs /\
    List.Forall2 (fun m v => minimax_value (moved s m) p = Ok v /\
                             game_value v) (legal_moves s) cvs.
Proof.
  intros Hv.
  destruct (map_res_total
              (fun move => child ← apply_move s move; minimax_value child p)
              (legal_moves s)) as [cvs Hcvs].
  { intros move Hin. rewrite (apply_legal_move s move Hv Hin). simpl.
    destruct (minimax_value_total p (moved s move)) as [v [Hval _]];
      [now apply moved_valid |].
    now exists v. }
  exists cvs. split; [exact Hcvs |].
  apply map_res_Forall2 in Hcvs.
  rewrite <- (map_id cvs).
  eapply Forall2_map_right; [exact Hcvs |].
  intros m v Hin Hval. simpl in Hval.
  rewrite (apply_legal_move s m Hv Hin) in Hval. simpl in Hval.
  split; [exact Hval |].
  destruct (minimax_value_total p (moved s m)) as [v' [Hval' Hg]];
    [now apply moved_valid |].
  congruence.
Qed.

Lemma Forall2_values (s : GameState) (p : string) (l : list Z)
      (cvs : list float) :
  List.Forall2 (fun m v => minimax_value (moved s m) p = Ok v /\
                           game_value v) l cvs ->
  List.Forall game_value cvs /\ (l <> [] -> cvs <> []).
Proof.
  induction 1 as [|m v l cvs [_ Hg] _ [IH _]]; split;
    [constructor | congruence | now constructor | discriminate].
Qed.

Lemma game_value_complement (v : float) :
  game_value v -> game_value (1 - v).
Proof.
  intros [-> | [-> | ->]]; unfold game_value; vm_compute; tauto.
Qed.

Lemma max_min_dual (best : float) (l : list float) :
  game_value best -> List.Forall game_value l ->
  min_from (1 - best) (map (fun x => 1 - x) l) = 1 - max_from best l /\
  max_from (1 - best) (map (fun x => 1 - x) l) = 1 - min_from best l.
Proof.
  intros Hb Hl. revert best Hb.
  induction Hl as [|x l Hx Hl IH]; intros best Hb; [now split |].
  simpl.
  assert (Hmax : (if 1 - x <? 1 - best then 1 - x else 1 - best)
                 = 1 - (if best <? x then x else best) /\
                 game_value (if best <? x then x else best)).
  { destruct Hb as [-> | [-> | ->]], Hx as [-> | [-> | ->]];
      unfold game_value; vm_compute; tauto. }
  assert (Hmin : (if 1 - best <? 1 - x then 1 - x else 1 - best)
                 = 1 - (if x <? best then x else best) /\
                 game_value (if x <? best then x else best)).
  { destruct Hb as [-> | [-> | ->]], Hx as [-> | [-> | ->]];
      unfold game_value; vm_compute; tauto. }
  destruct Hmax as [-> Hgmax], Hmin as [-> Hgmin].
  split; [apply (IH _ Hgmax) | apply (IH _ Hgmin)].
Qed.

Lemma py_max_min_dual (l : list float) (v : float) :
  List.Forall game_value l ->
  (py_max l = Ok v -> py_min (map (fun x => 1 - x) l) = Ok (1 - v)) /\
  (py_min l = Ok v -> py_max (map (fun x => 1 - x) l) = Ok (1 - v)).
Proof.
  intros Hl. destruct Hl as [|b l Hb Hl]; [split; discriminate |].
  simpl. destruct (max_min_dual b l Hb Hl) as [Hmin Hmax].
  split; intros [= <-]; f_equal; assumption.
Qed.

Lemma other_player_involutive (p : string) :
  p = PLAYER_X \/ p = PLAYER_O ->
  (other_player p = PLAYER_X \/ other_player p = PLAYER_O) /\
  other_player (other_player p) = p /\ other_player p <> p.
Proof. intros [-> | ->]; vm_compute; repeat split; auto; discriminate. Qed.

Lemma terminal_value_other (s : GameState) (p : string) :
  standard s -> p = PLAYER_X \/ p = PLAYER_O ->
  terminal_value s (other_player p) =
  option_map (fun t => 1 - t) (terminal_value s p).
Proof.
  intros Hs Hp. unfold terminal_value.
  destruct (terminal_outcome s) as [o|] eqn:Ho; [| reflexivity].
  destruct (standard_outcome s o Hs Ho) as [-> | [-> | ->]];
    destruct Hp as [-> | ->]; vm_compute; reflexivity.
Qed.

Lemma minimax_complement (p : string) (s : GameState) :
  standard s -> p = PLAYER_X \/ p = PLAYER_O ->
  exists v, minimax_value s p = Ok v /\
            minimax_value s (other_player p) = Ok (1 - v) /\
            game_value v.
Proof.
  intros Hs Hp.
  remember (length (legal_moves s)) as n eqn:Hn.
  revert s Hn Hs. induction n as [n IH] using lt_wf_ind. intros s Hn Hs.
  pose proof Hs as [Hv _].
  destruct (terminal_value s p) as [t|] eqn:Ht.
  - exists t.
    assert (Ht' : terminal_value s (other_player p) = Some (1 - t))
      by (rewrite terminal_value_other, Ht by assumption; reflexivity).
    unfold minimax_value.
    destruct (length (legal_moves s)); simpl; rewrite Ht, Ht';
      (split; [reflexivity |]; split; [reflexivity |]);
      eapply terminal_value_game_value; eauto.
  - assert (Ht' : terminal_value s (other_player p) = None)
      by (rewrite terminal_value_other, Ht by assumption; reflexivity).
    rewrite (minimax_value_unfold s p Hv Ht).
    rewrite (minimax_value_unfold s (other_player p) Hv Ht').
    destruct (children_values s p Hv) as (cvs & Hcvs & HF).
    destruct (Forall2_values _ _ _ _ HF) as [Hall Hne].
    assert (Hcvs' :
              map_res (fun move => child ← apply_move s move;
                                   minimax_value child (other_player p))
                      (legal_moves s) = Ok (map (fun x => 1 - x) cvs)).
    { apply map_res_Forall2.
      eapply Forall2_map_right; [exact HF |].
      intros m v Hin [Hval _]. simpl.
      rewrite (apply_legal_move s m Hv Hin). simpl.
      pose proof (moved_legal_count s m Hv Hin) as Hc.
      destruct (IH (length (legal_moves (moved s m)))) with
        (s := moved s m) as (v' & Hv1 & Hv2 & _);
        [lia | reflexivity | now apply moved_standard |].
      congruence. }
    rewrite Hcvs, Hcvs'. simpl.
    apply terminal_value_None, nonterminal_has_move in Ht.
    specialize (Hne Ht).
    destruct (other_player_involutive p Hp) as (_ & _ & Hop).
    destruct (String.eqb_spec (player s) p) as [Heq | Hneq].
    + replace (String.eqb (player s) (other_player p)) with false
        by (symmetry; apply String.eqb_neq; congruence).
      destruct (py_max_spec cvs Hne Hall) as (v & Hmax & _ & Hg & _).
      exists v. split; [exact Hmax |]. split; [| exact Hg].
      now apply py_max_min_dual.
    + replace (String.eqb (player s) (other_player p)) with true.
      * destruct (py_min_spec cvs Hne Hall) as (v & Hmin & _ & Hg & _).
        exists v. split; [exact Hmin |]. split; [| exact Hg].
        now apply py_max_min_dual.
      * symmetry. apply String.eqb_eq.
        destruct Hv as [_ [Hx | Ho]], Hp as [-> | ->]; rewrite ?Hx, ?Ho in *;
          try reflexivity; congruence.
Qed.

(** X8: on a board of marks the exact value of a position for one player
    is one minus its value for the other: what the maximiser gains the
    minimiser loses. *)
Theorem minimax_zero_sum (s : GameState) (p : string) :
  standard s -> p = PLAYER_X \/ p = PLAYER_O ->
  exists v, minimax_value s p = Ok v /\
            minimax_value s (other_player p) = Ok (1 - v) /\
            (v = 0 \/ v = 0.5 \/ v = 1).
Proof. intros Hs Hp. exact (minimax_complement p s Hs Hp). Qed.

(** X8, witness: the forced win for X, worth 1 to X and 0 to O. *)
Lemma minimax_zero_sum_witness :
  standard two_in_a_row /\ ("X" = PLAYER_X \/ "X" = PLAYER_O) /\
  exists v, minimax_value two_in_a_row "X" = Ok v /\
            minimax_value two_in_a_row (other_player "X") = Ok (1 - v) /\
            (v = 0 \/ v = 0.5 \/ v = 1).
Proof.
  assert (Hs : standard two_in_a_row).
  { split; [exact two_in_a_row_valid |].
    repeat constructor; vm_compute; tauto. }
  split; [exact Hs |]. split; [left; reflexivity |].
  exact (minimax_zero_sum two_in_a_row "X" Hs (or_introl eq_refl)).
Defined.

(** What [best_moves] returns where a move is left. *)
Lemma best_moves_core (s : GameState) :
  valid_state s -> legal_moves s <> [] ->
  exists picks best,
    best_moves s = Ok picks /\ picks <> [] /\ game_value best /\
    (forall m v, In (m, v) picks ->
       In m (legal_moves s) /\ v = best /\
       minimax_value (moved s m) (player s) = Ok best) /\
    (forall m, In m (legal_moves s) ->
       exists v, minimax_value (moved s m) (player s) = Ok v /\
                 game_value v /\ (v <=? best) = true).
Proof.
  intros Hv Hne.
  destruct (map_res_total (score_move s) (legal_moves s)) as [scored Hsc].
  { intros move Hin. destruct (score_move_ok s move Hv Hin) as (v & H & _).
    now exists (move, v). }
  pose proof Hsc as HF. apply map_res_Forall2 in HF.
  assert (Hscored : forall m v,
             In (m, v) scored ->
             In m (legal_moves s) /\ game_value v /\
             minimax_value (moved s m) (player s) = Ok v).
  { intros m v Hin.
    destruct (Forall2_In_r _ _ _ _ HF Hin) as (m0 & Hm0 & Hval).
    destruct (score_move_ok s m0 Hv Hm0) as (v0 & H0 & Hg & Hmm).
    rewrite H0 in Hval. injection Hval as -> ->. tauto. }
  assert (Hlegal : forall m, In m (legal_moves s) ->
             exists v, In (m, v) scored /\ game_value v /\
                       minimax_value (moved s m) (player s) = Ok v).
  { intros m Hin.
    destruct (Forall2_In_l _ _ _ _ HF Hin) as (y & Hy & Hval).
    destruct (score_move_ok s m Hv Hin) as (v0 & H0 & Hg & Hmm0).
    rewrite H0 in Hval. injection Hval as <-. now exists v0. }
  assert (Hsne : scored <> []).
  { intros ->. inversion HF as [Hl |]. congruence. }
  assert (Hall : List.Forall game_value (map snd scored)).
  { apply List.Forall_forall. intros v Hin.
    apply in_map_iff in Hin as ([m v'] & <- & Hin).
    apply Hscored in Hin. tauto. }
  destruct (py_max_spec (map snd scored)) as (best & Hmax & Hbin & Hbg & Hup);
    [destruct scored; [congruence | discriminate] | exact Hall |].
  rewrite List.Forall_forall in Hup.
  apply in_map_iff in Hbin as ([mb vb] & Hvb & Hbin). simpl in Hvb. subst vb.
  exists (List.filter (fun mv => snd mv =? best) scored), best.
  split; [| split; [| split; [exact Hbg | split]]].
  - unfold best_moves.
    change (map_res (fun move => child ← apply_move s move;
                                 value ← minimax_value child (player s);
                                 mret (move, value)) (legal_moves s))
      with (map_res (score_move s) (legal_moves s)).
    rewrite Hsc. simpl. destruct scored; [congruence |].
    rewrite Hmax. reflexivity.
  - intros Hnil.
    assert (Hin : In (mb, best)
                     (List.filter (fun mv => snd mv =? best) scored)).
    { apply filter_In. split; [exact Hbin |]. simpl.
      now apply game_value_eqb. }
    rewrite Hnil in Hin. exact Hin.
  - intros m v Hin. apply filter_In in Hin as [Hin Heq]. simpl in Heq.
    apply Hscored in Hin as (Hm & Hg & Hmm).
    apply game_value_eqb in Heq; [| assumption | assumption]. subst v.
    tauto.
  - intros m Hin. destruct (Hlegal m Hin) as (v & Hsv & Hg & Hmm).
    exists v. split; [exact Hmm |]. split; [exact Hg |].
    apply Hup. apply in_map_iff. now exists (m, v).
Qed.

(** The best children carry the value of the position itself. *)
Lemma best_value_is_value (s : GameState) (best : float) :
  valid_state s -> terminal_outcome s = None -> game_value best ->
  (exists m, In m (legal_moves s) /\
             minimax_value (moved s m) (player s) = Ok best) ->
  (forall m, In m (legal_moves s) ->
     exists v, minimax_value (moved s m) (player s) = Ok v /\
               game_value v /\ (v <=? best) = true) ->
  minimax_value s (player s) = Ok best.
Proof.
  intros Hv Ho Hg (mb & Hmb & Hvb) Hup.
  rewrite (minimax_value_unfold s (player s) Hv)
    by now apply terminal_value_None.
  destruct (children_values s (player s) Hv) as (cvs & Hcvs & HF).
  destruct (Forall2_values _ _ _ _ HF) as [Hall Hne].
  specialize (Hne (nonterminal_has_move s Ho)).
  rewrite Hcvs. simpl. rewrite String.eqb_refl.
  destruct (py_max_spec cvs Hne Hall) as (v & Hmax & Hin & Hgv & Hle).
  rewrite Hmax. f_equal.
  rewrite List.Forall_forall in Hle.
  apply game_value_leb_antisym; [assumption.. | |].
  - destruct (Forall2_In_r _ _ _ _ HF Hin) as (m & Hm & Hval & _).
    destruct (Hup m Hm) as (v' & Hval' & _ & Hle').
    congruence.
  - apply Hle.
    destruct (Forall2_In_l _ _ _ _ HF Hmb) as (y & Hy & Hval & _).
    congruence.
Qed.

(** X9: on a position that is not finished every move [best_moves] keeps
    leads to a child worth to the mover exactly what the position is
    worth to them, and the score it carries is that value. *)
Theorem best_moves_value (s : GameState) :
  valid_state s -> terminal_outcome s = None ->
  exists picks value,
    best_moves s = Ok picks /\ picks <> [] /\
    minimax_value s (player s) = Ok value /\
    forall m v, In (m, v) picks ->
      v = value /\ In m (legal_moves s) /\
      minimax_value (moved s m) (player s) = Ok value.
Proof.
  intros Hv Ho.
  destruct (best_moves_core s Hv (nonterminal_has_move s Ho))
    as (picks & best & Hbm & Hne & Hg & Hpicks & Hup).
  exists picks, best. split; [exact Hbm |]. split; [exact Hne |]. split.
  - apply best_value_is_value; try assumption.
    destruct picks as [|[m v] rest]; [congruence |].
    destruct (Hpicks m v (or_introl eq_refl)) as (Hm & _ & Hval).
    now exists m.
  - intros m v Hin. destruct (Hpicks m v Hin) as (Hm & -> & Hval). tauto.
Qed.

(** X9, witness: the forced-win position. *)
Lemma best_moves_value_witness :
  valid_state two_in_a_row /\ terminal_outcome two_in_a_row = None /\
  exists picks value,
    best_moves two_in_a_row = Ok picks /\ picks <> [] /\
    minimax_value two_in_a_row (player two_in_a_row) = Ok value /\
    forall m v, In (m, v) picks ->
      v = value /\ In m (legal_moves two_in_a_row) /\
      minimax_value (moved two_in_a_row m) (player two_in_a_row) = Ok value.
Proof.
  split; [exact two_in_a_row_valid |]. split; [reflexivity |].
  exact (best_moves_value two_in_a_row two_in_a_row_valid eq_refl).
Defined.

Section Picker.
Context {R : Type} `{PyRandom R}.

Lemma choose_perfect_move_ok (s : GameState) (g : R) :
  valid_state s -> legal_moves s <> [] ->
  exists m v g',
    choose_perfect_move s g = Ok ((m, v), g') /\
    In m (legal_moves s) /\ game_value v /\
    minimax_value (moved s m) (player s) = Ok v /\
    (forall m', In m' (legal_moves s) ->
       exists v', minimax_value (moved s m') (player s) = Ok v' /\
                  (v' <=? v) = true) /\
    (terminal_outcome s = None -> minimax_value s (player s) = Ok v).
Proof.
  intros Hv Hne.
  destruct (best_moves_core s Hv Hne)
    as (picks & best & Hbm & Hpne & Hg & Hpicks & Hup).
  destruct (choice_ok g picks Hpne) as ([m v] & g' & Hch & Hin).
  destruct (Hpicks m v Hin) as (Hm & -> & Hval).
  exists m, best, g'.
  split; [| split; [exact Hm | split; [exact Hg | split; [exact Hval |]]]].
  - unfold choose_perfect_move. rewrite Hbm. simpl.
    destruct picks; [congruence | exact Hch].
  - split.
    + intros m' Hm'. destruct (Hup m' Hm') as (v' & Hv' & _ & Hle).
      now exists v'.
    + intros Ho. apply best_value_is_value; try assumption.
      now exists m.
Qed.

(** X10: [choose_perfect_move] raises [ValueError] exactly when no cell
    is empty; otherwise, whatever the generator draws, it returns a legal
    move together with the value of the child it leads to, no other
    move leads to a better child, and on a position that is not finished
    that value is the value of the position for the mover. *)
Theorem choose_perfect_move_spec (s : GameState) (g : R) :
  valid_state s ->
  (legal_moves s = [] /\ choose_perfect_move s g = Raise ValueError) \/
  (exists m v g',
     choose_perfect_move s g = Ok ((m, v), g') /\
     In m (legal_moves s) /\
     minimax_value (moved s m) (player s) = Ok v /\
     (forall m', In m' (legal_moves s) ->
        exists v', minimax_value (moved s m') (player s) = Ok v' /\
                   (v' <=? v) = true) /\
     (terminal_outcome s = None -> minimax_value s (player s) = Ok v)).
Proof.
  intros Hv. destruct (legal_moves s) as [|m0 rest] eqn:Hl.
  - left. split; [reflexivity |].
    unfold choose_perfect_move, best_moves. rewrite Hl. reflexivity.
  - right.
    destruct (choose_perfect_move_ok s g Hv) as (m & v & g' & H1 & H2 & _ & H3);
      [congruence |].
    rewrite Hl in H2, H3. exists m, v, g'. tauto.
Qed.

End Picker.

(** X10, witness: the forced-win position under the linear congruential
    generator. *)
Lemma choose_perfect_move_spec_witness :
  valid_state two_in_a_row /\
  ((legal_moves two_in_a_row = [] /\
    @choose_perfect_move Z Doubles.lcg two_in_a_row 0%Z
    = Raise ValueError) \/
   (exists m v g',
      @choose_perfect_move Z Doubles.lcg two_in_a_row 0%Z
      = Ok ((m, v), g') /\
      In m (legal_moves two_in_a_row) /\
      minimax_value (moved two_in_a_row m) (player two_in_a_row) = Ok v /\
      (forall m', In m' (legal_moves two_in_a_row) ->
         exists v', minimax_value (moved two_in_a_row m')
                                  (player two_in_a_row) = Ok v' /\
                    (v' <=? v) = true) /\
      (terminal_outcome two_in_a_row = None ->
       minimax_value two_in_a_row (player two_in_a_row) = Ok v))).
Proof.
  split; [exact two_in_a_row_valid |].
  exact (@choose_perfect_move_spec Z Doubles.lcg two_in_a_row 0%Z
           two_in_a_row_valid).
Defined.

End MinimaxExtras.

(** ** Games between agents *)

Section PlayFacts.
Import Game Minimax Experiment.
Local Open Scope float_scope.

(** The moves of a game played again from [s]. *)
Fixpoint replay (s : GameState) (moves : list Z) : res GameState :=
  match moves with
  | [] => Ok s
  | m :: rest => s' ← apply_move s m; replay s' rest
  end.

(** Who moves in the next [n] turns when [p] moves first. *)
Fixpoint turns (p : string) (n : nat) : list string :=
  match n with
  | O => []
  | S n => p :: turns (other_player p) n
  end.

(** An agent that answers every unfinished position in which [p] is to
    move with a legal move. *)
Definition plays_legal (A : Type) `{Agent A} (p : string) : Prop :=
  forall (a : A) (s : GameState) (start stop : float),
    standard s -> player s = p -> terminal_outcome s = None ->
    exists m a', agent_choose a s start stop = Ok (m, a') /\
                 In m (legal_moves s).

Lemma log_row_fields {A : Type} `{Agent A} (a : A) (s : GameState) (m : Z) :
  log_move (log_row a s m) = m /\ log_player (log_row a s m) = player s /\
  log_agent (log_row a s m) = agent_name a.
Proof.
  unfold log_row. destruct (agent_decision a) as [[est ms]|]; now split.
Qed.

Lemma apply_move_legal (s s' : GameState) (m : Z) :
  apply_move s m = Ok s' -> s' = moved s m /\ In m (legal_moves s).
Proof.
  intros Ha. apply apply_move_inv in Ha as (Hr & Hc & ->).
  split; [reflexivity |]. apply legal_moves_In. split; [lia | exact Hc].
Qed.

Section Invariant.
Context {AX : Type} {HX : Agent AX} {AO : Type} {HO : Agent AO}.
Variable Inv : GameState -> Prop.
Hypothesis step_x :
  forall (s : GameState) (a : AX) (start stop : float) (m : Z) (a' : AX),
    standard s -> terminal_outcome s = None -> player s = PLAYER_X ->
    Inv s -> agent_choose a s start stop = Ok (m, a') ->
    In m (legal_moves s) -> Inv (moved s m).
Hypothesis step_o :
  forall (s : GameState) (a : AO) (start stop : float) (m : Z) (a' : AO),
    standard s -> terminal_outcome s = None -> player s = PLAYER_O ->
    Inv s -> agent_choose a s start stop = Ok (m, a') ->
    In m (legal_moves s) -> Inv (moved s m).

(** What a finished run of the loop of [play_game] leaves behind. *)
Lemma play_loop_inv (fuel : nat) :
  forall (clock : nat -> float * float) (k : nat) (s : GameState)
         (ax : AX) (ao : AO) (logs : list MoveLog)
         (o : string) (logs' : list MoveLog) (agents : AX * AO),
    standard s -> Inv s ->
    play_loop fuel clock k s ax ao logs = Ok (o, logs', agents) ->
    exists rows final,
      logs' = logs ++ rows /\
      replay s (map log_move rows) = Ok final /\
      standard final /\ Inv final /\
      terminal_outcome final = Some o /\
      map log_player rows = turns (player s) (length rows) /\
      (length rows + length (legal_moves final))%nat
      = length (legal_moves s).
Proof.
  induction fuel as [|fuel IH];
    intros clock k s ax ao logs o logs' agents Hs Hi;
    cbn [play_loop];
    destruct (terminal_outcome s) as [o0|] eqn:Ho; intros Hp;
    try discriminate;
    try (injection Hp as <- <- <-; exists [], s;
         rewrite app_nil_r;
         split; [reflexivity |]; split; [reflexivity |];
         split; [exact Hs |]; split; [exact Hi |]; split; [exact Ho |];
         split; reflexivity).
  pose proof Hs as [Hv _].
  destruct (String.eqb (player s) PLAYER_X) eqn:Hx;
    [apply String.eqb_eq in Hx | apply String.eqb_neq in Hx].
  - destruct (agent_choose ax s (fst (clock k)) (snd (clock k)))
      as [[m ax1]|e] eqn:Hc; cbn [mbind res_bind] in Hp; [| discriminate].
    destruct (apply_move s m) as [s'|e] eqn:Ha; cbn [mbind res_bind] in Hp;
      [| discriminate].
    destruct (apply_move_legal s s' m Ha) as [-> Hm].
    apply IH in Hp;
      [| now apply moved_standard | eapply (step_x s ax); eauto].
    destruct Hp as (rows & final & -> & Hr & Hsf & Hif & Hof & Ht & Hn).
    destruct (log_row_fields ax1 s m) as (Hlm & Hlp & _).
    exists (log_row ax1 s m :: rows), final.
    split; [now rewrite <- app_assoc |].
    split; [cbn [map replay]; rewrite Hlm, Ha; exact Hr |].
    split; [exact Hsf |]. split; [exact Hif |]. split; [exact Hof |].
    split; [cbn [map length turns]; rewrite Hlp, Ht; reflexivity |].
    pose proof (moved_legal_count s m Hv Hm). cbn [length]. lia.
  - assert (Hpo : player s = PLAYER_O) by (destruct Hv as [_ [? | ?]]; congruence).
    destruct (agent_choose ao s (fst (clock k)) (snd (clock k)))
      as [[m ao1]|e] eqn:Hc; cbn [mbind res_bind] in Hp; [| discriminate].
    destruct (apply_move s m) as [s'|e] eqn:Ha; cbn [mbind res_bind] in Hp;
      [| discriminate].
    destruct (apply_move_legal s s' m Ha) as [-> Hm].
    apply IH in Hp;
      [| now apply moved_standard | eapply (step_o s ao); eauto].
    destruct Hp as (rows & final & -> & Hr & Hsf & Hif & Hof & Ht & Hn).
    destruct (log_row_fields ao1 s m) as (Hlm & Hlp & _).
    exists (log_row ao1 s m :: rows), final.
    split; [now rewrite <- app_assoc |].
    split; [cbn [map replay]; rewrite Hlm, Ha; exact Hr |].
    split; [exact Hsf |]. split; [exact Hif |]. split; [exact Hof |].
    split; [cbn [map length turns]; rewrite Hlp, Ht; reflexivity |].
    pose proof (moved_legal_count s m Hv Hm). cbn [length]. lia.
Qed.

End Invariant.

Section Games.
Context {AX : Type} {HX : Agent AX} {AO : Type} {HO : Agent AO}.

Lemma play_game_eq (agent_x : AX) (agent_o : AO)
      (clock : nat -> float * float) :
  play_game agent_x agent_o clock =
  play_loop (length (legal_moves initial_state)) clock 0 initial_state
            agent_x agent_o [].
Proof. reflexivity. Qed.

Lemma play_loop_total (fuel : nat) :
  plays_legal AX PLAYER_X -> plays_legal AO PLAYER_O ->
  forall (clock : nat -> float * float) (k : nat) (s : GameState)
         (ax : AX) (ao : AO) (logs : list MoveLog),
    standard s -> (length (legal_moves s) <= fuel)%nat ->
    exists o logs' agents,
      play_loop fuel clock k s ax ao logs = Ok (o, logs', agents).
Proof.
  intros Hlx Hlo.
  induction fuel as [|fuel IH]; intros clock k s ax ao logs Hs Hlen;
    cbn [play_loop]; destruct (terminal_outcome s) as [o0|] eqn:Ho;
    try (now eexists _, _, _).
  - apply nonterminal_has_move in Ho.
    destruct (legal_moves s); [congruence | simpl in Hlen; lia].
  - pose proof Hs as [Hv _].
    destruct (String.eqb_spec (player s) PLAYER_X) as [Hx | Hx].
    + destruct (Hlx ax s (fst (clock k)) (snd (clock k)) Hs Hx Ho)
        as (m & ax1 & -> & Hm).
      cbn [mbind res_bind]. rewrite (apply_legal_move s m Hv Hm).
      cbn [mbind res_bind]. apply IH; [now apply moved_standard |].
      pose proof (moved_legal_count s m Hv Hm). lia.
    + assert (Hpo : player s = PLAYER_O)
        by (destruct Hv as [_ [? | ?]]; congruence).
      destruct (Hlo ao s (fst (clock k)) (snd (clock k)) Hs Hpo Ho)
        as (m & ao1 & -> & Hm).
      cbn [mbind res_bind]. rewrite (apply_legal_move s m Hv Hm).
      cbn [mbind res_bind]. apply IH; [now apply moved_standard |].
      pose proof (moved_legal_count s m Hv Hm). lia.
Qed.

(** X11: a game that [play_game] finishes is a real game: the logged
    moves, played again from the initial position, all succeed and end
    in a position whose outcome is the one returned; the players in the
    log alternate from X; one move is logged per cell filled; the outcome
    is X, O or DRAW. *)
Theorem play_game_trace (agent_x : AX) (agent_o : AO)
    (clock : nat -> float * float) (outcome : string)
    (logs : list MoveLog) (agents : AX * AO) :
  play_game agent_x agent_o clock = Ok (outcome, logs, agents) ->
  exists final,
    replay initial_state (map log_move logs) = Ok final /\
    standard final /\ terminal_outcome final = Some outcome /\
    map log_player logs = turns PLAYER_X (length logs) /\
    (length logs + length (legal_moves final) = 9)%nat /\
    (outcome = PLAYER_X \/ outcome = PLAYER_O \/ outcome = DRAW).
Proof.
  intros Hp. rewrite play_game_eq in Hp.
  destruct (play_loop_inv (fun _ => True)
              (fun _ _ _ _ _ _ _ _ _ _ _ _ => I)
              (fun _ _ _ _ _ _ _ _ _ _ _ _ => I)
              (length (legal_moves initial_state)) clock 0%nat initial_state
              agent_x agent_o [] outcome logs agents
              initial_state_standard I Hp)
    as (rows & final & -> & Hr & Hsf & _ & Hof & Ht & Hn).
  exists final. cbn [app].
  repeat (split; [assumption |]).
  now apply standard_outcome with final.
Qed.


End Games.

Section PerfectPlay.
Context {R : Type} `{PyRandom R}.

Lemma minimax_agent_move (a : MinimaxAgent R) (s : GameState)
      (start stop : float) :
  valid_state s -> legal_moves s <> [] ->
  exists m v a',
    agent_choose a s start stop = Ok (m, a') /\
    In m (legal_moves s) /\ game_value v /\
    minimax_value (moved s m) (player s) = Ok v /\
    (terminal_outcome s = None -> minimax_value s (player s) = Ok v) /\
    agent_decision a' = Some (v, 0) /\ agent_name a' = agent_name a.
Proof.
  intros Hv Hne.
  destruct (choose_perfect_move_ok s (mm_rng a) Hv Hne)
    as (m & v & g' & Hch & Hm & Hg & Hval & _ & Hroot).
  exists m, v, (mkMinimaxAgent g' (mm_name a)
                  (Some (mkMinimaxDecision m v 0
                           ((stop - start) * 1000)))).
  split; [| repeat split; assumption].
  cbn [agent_choose MinimaxPlayer]. unfold minimax_choose_move.
  rewrite Hch. reflexivity.
Qed.

Lemma minimax_plays_legal (p : string) : plays_legal (MinimaxAgent R) p.
Proof.
  intros a s start stop [Hv _] _ Ho.
  destruct (minimax_agent_move a s start stop Hv (nonterminal_has_move s Ho))
    as (m & v & a' & Hc & Hm & _).
  now exists m, a'.
Qed.

End PerfectPlay.

(** Player [p] can still avoid defeat from [s]. *)
Definition holds (p : string) (s : GameState) : Prop :=
  exists v, minimax_value s p = Ok v /\ (0.5 <=? v) = true.

Lemma own_move_holds {R : Type} `{PyRandom R} (p : string) (s : GameState)
      (a : MinimaxAgent R) (start stop : float) (m : Z)
      (a' : MinimaxAgent R) :
  standard s -> terminal_outcome s = None -> player s = p ->
  holds p s -> agent_choose a s start stop = Ok (m, a') ->
  holds p (moved s m).
Proof.
  intros [Hv _] Ho Hp (v & Hval & Hle) Hc.
  destruct (minimax_agent_move a s start stop Hv (nonterminal_has_move s Ho))
    as (m0 & v0 & a0 & Hc0 & _ & _ & Hchild & Hroot & _).
  rewrite Hc in Hc0. injection Hc0 as <- <-.
  specialize (Hroot Ho). rewrite Hp in Hroot, Hchild.
  exists v0. split; [exact Hchild |]. congruence.
Qed.

Lemma other_move_holds (p : string) (s : GameState) (m : Z) :
  standard s -> terminal_outcome s = None -> player s <> p ->
  holds p s -> In m (legal_moves s) -> holds p (moved s m).
Proof.
  intros [Hv _] Ho Hp (v & Hval & Hle) Hm.
  rewrite (minimax_value_unfold s p Hv) in Hval
    by now apply terminal_value_None.
  destruct (children_values s p Hv) as (cvs & Hcvs & HF).
  destruct (Forall2_values _ _ _ _ HF) as [Hall Hne].
  specialize (Hne (nonterminal_has_move s Ho)).
  rewrite Hcvs in Hval. cbn [mbind res_bind] in Hval.
  replace (String.eqb (player s) p) with false in Hval
    by (symmetry; now apply String.eqb_neq).
  destruct (py_min_spec cvs Hne Hall) as (v' & Hmin & _ & Hg & Hlow).
  assert (v' = v) by congruence. subst v'.
  destruct (Forall2_In_l _ _ _ _ HF Hm) as (x & Hx & Hvx & Hgx).
  exists x. split; [exact Hvx |].
  rewrite List.Forall_forall in Hlow.
  apply game_value_leb_trans with v; auto.
  right; left; reflexivity.
Qed.

Lemma holds_final (p : string) (s : GameState) (o : string) :
  p = PLAYER_X \/ p = PLAYER_O ->
  terminal_outcome s = Some o -> holds p s -> o <> other_player p.
Proof.
  intros Hp Ho (v & Hval & Hle) ->.
  assert (Ht : terminal_value s p = Some 0).
  { unfold terminal_value. rewrite Ho.
    destruct Hp as [-> | ->]; reflexivity. }
  unfold minimax_value in Hval.
  destruct (length (legal_moves s)); simpl in Hval; rewrite Ht in Hval;
    injection Hval as <-; discriminate.
Qed.

Lemma initial_value :
  minimax_value initial_state PLAYER_X = Ok 0.5 /\
  minimax_value initial_state PLAYER_O = Ok 0.5.
Proof.
  assert (Hx : minimax_value initial_state PLAYER_X = Ok 0.5)
    by (vm_compute; reflexivity).
  split; [exact Hx |].
  destruct (minimax_complement PLAYER_X initial_state initial_state_standard
              (or_introl eq_refl)) as (v & Hv & Ho & _).
  rewrite Hx in Hv. injection Hv as <-. exact Ho.
Qed.

Lemma initial_holds (p : string) :
  p = PLAYER_X \/ p = PLAYER_O -> holds p initial_state.
Proof.
  destruct initial_value as [Hx Ho].
  intros [-> | ->]; exists 0.5; split; auto.
Qed.

Lemma never_loses_as_x {R : Type} `{PyRandom R} {A : Type} `{Agent A}
      (mm : MinimaxAgent R) (opp : A) (clock : nat -> float * float)
      (o : string) (logs : list MoveLog) (agents : MinimaxAgent R * A) :
  play_game mm opp clock = Ok (o, logs, agents) -> o <> PLAYER_O.
Proof.
  intros Hp.
  assert (Hown : forall (s : GameState) (a : MinimaxAgent R)
                        (start stop : float) (m : Z) (a' : MinimaxAgent R),
             standard s -> terminal_outcome s = None ->
             player s = PLAYER_X -> holds PLAYER_X s ->
             agent_choose a s start stop = Ok (m, a') ->
             In m (legal_moves s) -> holds PLAYER_X (moved s m)).
  { intros s a start stop m a' Hs Ho Hx Hh Hc _.
    exact (own_move_holds PLAYER_X s a start stop m a' Hs Ho Hx Hh Hc). }
  assert (Hother : forall (s : GameState) (a : A) (start stop : float)
                          (m : Z) (a' : A),
             standard s -> terminal_outcome s = None ->
             player s = PLAYER_O -> holds PLAYER_X s ->
             agent_choose a s start stop = Ok (m, a') ->
             In m (legal_moves s) -> holds PLAYER_X (moved s m)).
  { intros s a start stop m a' Hs Ho Hx Hh _ Hm.
    apply other_move_holds;
      [exact Hs | exact Ho | rewrite Hx; discriminate | exact Hh | exact Hm]. }
  rewrite play_game_eq in Hp.
  destruct (play_loop_inv (holds PLAYER_X) Hown Hother
              (length (legal_moves initial_state)) clock 0%nat initial_state
              mm opp [] o logs agents initial_state_standard
              (initial_holds PLAYER_X (or_introl eq_refl)) Hp)
    as (rows & final & _ & _ & _ & Hh & Ho & _).
  exact (holds_final PLAYER_X final o (or_introl eq_refl) Ho Hh).
Qed.

Lemma never_loses_as_o {R : Type} `{PyRandom R} {A : Type} `{Agent A}
      (mm : MinimaxAgent R) (opp : A) (clock : nat -> float * float)
      (o : string) (logs : list MoveLog) (agents : A * MinimaxAgent R) :
  play_game opp mm clock = Ok (o, logs, agents) -> o <> PLAYER_X.
Proof.
  intros Hp.
  assert (Hown : forall (s : GameState) (a : MinimaxAgent R)
                        (start stop : float) (m : Z) (a' : MinimaxAgent R),
             standard s -> terminal_outcome s = None ->
             player s = PLAYER_O -> holds PLAYER_O s ->
             agent_choose a s start stop = Ok (m, a') ->
             In m (legal_moves s) -> holds PLAYER_O (moved s m)).
  { intros s a start stop m a' Hs Ho Hx Hh Hc _.
    exact (own_move_holds PLAYER_O s a start stop m a' Hs Ho Hx Hh Hc). }
  assert (Hother : forall (s : GameState) (a : A) (start stop : float)
                          (m : Z) (a' : A),
             standard s -> terminal_outcome s = None ->
             player s = PLAYER_X -> holds PLAYER_O s ->
             agent_choose a s start stop = Ok (m, a') ->
             In m (legal_moves s) -> holds PLAYER_O (moved s m)).
  { intros s a start stop m a' Hs Ho Hx Hh _ Hm.
    apply other_move_holds;
      [exact Hs | exact Ho | rewrite Hx; discriminate | exact Hh | exact Hm]. }
  rewrite play_game_eq in Hp.
  destruct (play_loop_inv (holds PLAYER_O) Hother Hown
              (length (legal_moves initial_state)) clock 0%nat initial_state
              opp mm [] o logs agents initial_state_standard
              (initial_holds PLAYER_O (or_intror eq_refl)) Hp)
    as (rows & final & _ & _ & _ & Hh & Ho & _).
  exact (holds_final PLAYER_O final o (or_intror eq_refl) Ho Hh).
Qed.

(** X13: a [MinimaxAgent] never loses a game of [play_game], whatever
    its generator draws and whatever the other agent does: playing X the
    outcome is never O, playing O it is never X. *)
Theorem minimax_agent_never_loses {R : Type} `{PyRandom R}
    {A : Type} `{Agent A} (mm : MinimaxAgent R) (opp : A)
    (clock : nat -> float * float) (o : string) (logs : list MoveLog) :
  (forall agents, play_game mm opp clock = Ok (o, logs, agents) ->
                  o = PLAYER_X \/ o = DRAW) /\
  (forall agents, play_game opp mm clock = Ok (o, logs, agents) ->
                  o = PLAYER_O \/ o = DRAW).
Proof.
  split; intros agents Hp.
  - pose proof (never_loses_as_x mm opp clock o logs agents Hp) as Hno.
    rewrite play_game_eq in Hp.
    destruct (play_loop_inv (fun _ => True)
                (fun _ _ _ _ _ _ _ _ _ _ _ _ => I)
                (fun _ _ _ _ _ _ _ _ _ _ _ _ => I)
                (length (legal_moves initial_state)) clock 0%nat
                initial_state mm opp [] o logs agents
                initial_state_standard I Hp)
      as (rows & final & _ & _ & Hsf & _ & Ho & _).
    destruct (standard_outcome final o Hsf Ho) as [? | [? | ?]]; tauto.
  - pose proof (never_loses_as_o mm opp clock o logs agents Hp) as Hno.
    rewrite play_game_eq in Hp.
    destruct (play_loop_inv (fun _ => True)
                (fun _ _ _ _ _ _ _ _ _ _ _ _ => I)
                (fun _ _ _ _ _ _ _ _ _ _ _ _ => I)
                (length (legal_moves initial_state)) clock 0%nat
                initial_state opp mm [] o logs agents
                initial_state_standard I Hp)
      as (rows & final & _ & _ & Hsf & _ & Ho & _).
    destruct (standard_outcome final o Hsf Ho) as [? | [? | ?]]; tauto.
Qed.

(** X14: two [MinimaxAgent]s, whatever their generators, always play a
    draw, in nine moves. *)
Theorem minimax_self_play_draw {RX : Type} {GX : PyRandom RX}
    {RO : Type} {GO : PyRandom RO}
    (agent_x : MinimaxAgent RX) (agent_o : MinimaxAgent RO)
    (clock : nat -> float * float) :
  exists logs agents,
    play_game agent_x agent_o clock = Ok (DRAW, logs, agents) /\
    length logs = 9%nat.
Proof.
  destruct (play_loop_total (length (legal_moves initial_state))
              (minimax_plays_legal PLAYER_X) (minimax_plays_legal PLAYER_O)
              clock 0%nat initial_state agent_x agent_o []
              initial_state_standard (le_n _)) as (o & logs & agents & Hp).
  rewrite <- play_game_eq in Hp.
  pose proof (never_loses_as_x agent_x agent_o clock o logs agents Hp) as Hx.
  pose proof (never_loses_as_o agent_o agent_x clock o logs agents Hp) as Ho.
  exists logs, agents.
  pose proof Hp as Ht. rewrite play_game_eq in Ht.
  destruct (play_loop_inv (fun _ => True)
              (fun _ _ _ _ _ _ _ _ _ _ _ _ => I)
              (fun _ _ _ _ _ _ _ _ _ _ _ _ => I)
              (length (legal_moves initial_state)) clock 0%nat initial_state
              agent_x agent_o [] o logs agents
              initial_state_standard I Ht)
    as (rows & final & Hl & _ & Hsf & _ & Hof & _ & Hn).
  cbn [app] in Hl. subst rows.
  assert (Hd : o = DRAW)
    by (destruct (standard_outcome final o Hsf Hof) as [? | [? | ?]];
        [contradiction.. | assumption]).
  subst o. split; [exact Hp |].
  assert (Hnone : legal_moves final = []).
  { unfold terminal_outcome in Hof.
    destruct (winner (board final)) as [w|] eqn:Hw.
    - injection Hof as ->.
      apply winner_in_Some in Hw as (_ & l & _ & Hc).
      destruct Hsf as [_ Hall].
      pose proof (cell_mark (board final) (fst (fst l)) Hall) as Hmk.
      destruct Hc as [Hc _]. rewrite Hc in Hmk.
      destruct Hmk as [? | [? | ?]]; discriminate.
    - destruct (has_empty (board final)) eqn:He; [discriminate |].
      destruct (legal_moves final) as [|m rest] eqn:Hlm; [reflexivity |].
      assert (Hin : In m (legal_moves final)) by (rewrite Hlm; now left).
      apply legal_moves_In in Hin as [_ Hcell].
      assert (has_empty (board final) = true); [| congruence].
      apply has_empty_In. apply list_elem_of_In.
      eapply list_elem_of_lookup_2; eauto. }
  rewrite Hnone in Hn. cbn [length] in Hn.
  change (length (legal_moves initial_state)) with 9%nat in Hn. lia.
Qed.

End PlayFacts.

Section PlayWitnesses.
Import Game Minimax Experiment.
Local Open Scope float_scope.

(** Every reading of the clock shows the same time. *)
Definition still_clock (k : nat) : float * float := (0, 0).

(** [MCTSAgent(RandomRolloutEvaluator(seed=1), iterations=n, seed=s)]
    over the stand-in generator. *)
Definition rollout_player (n s : Z) : @MCTS.MCTSAgent Z Z :=
  MCTS.mkAgent 1%Z n (PrimFloat.sqrt 2) s "mcts" None.

(** X11, witness: a game between two searching agents. *)
Lemma play_game_trace_witness :
  exists outcome logs agents,
    @play_game _ (MCTSPlayer (W := unit)) _ (MCTSPlayer (W := unit))
               (rollout_player 20 1) (rollout_player 20 2) still_clock
    = Ok (outcome, logs, agents) /\
    exists final,
      replay initial_state (map log_move logs) = Ok final /\
      standard final /\ terminal_outcome final = Some outcome /\
      map log_player logs = turns PLAYER_X (length logs) /\
      (length logs + length (legal_moves final) = 9)%nat /\
      (outcome = PLAYER_X \/ outcome = PLAYER_O \/ outcome = DRAW).
Proof.
  assert (Hok : is_ok (@play_game _ (MCTSPlayer (W := unit)) _
                                  (MCTSPlayer (W := unit))
                                  (rollout_player 20 1) (rollout_player 20 2)
                                  still_clock) = true)
    by (vm_compute; reflexivity).
  destruct (@play_game _ (MCTSPlayer (W := unit)) _ (MCTSPlayer (W := unit))
                       (rollout_player 20 1) (rollout_player 20 2)
                       still_clock)
    as [[[outcome logs] agents]|e] eqn:Hp; [| discriminate].
  exists outcome, logs, agents. split; [reflexivity |].
  exact (@play_game_trace _ (MCTSPlayer (W := unit)) _
           (MCTSPlayer (W := unit)) (rollout_player 20 1)
           (rollout_player 20 2) still_clock outcome logs agents Hp).
Defined.


(** X13, witness: a perfect player against another one. *)
Lemma minimax_agent_never_loses_witness :
  exists o logs agents,
    play_game (new_minimax_agent (R := Z) (Some 1%Z) 0%Z "x")
              (new_minimax_agent (R := Z) (Some 2%Z) 0%Z "o") still_clock
    = Ok (o, logs, agents) /\
    (o = PLAYER_X \/ o = DRAW).
Proof.
  destruct (play_loop_total (length (legal_moves initial_state))
              (minimax_plays_legal PLAYER_X) (minimax_plays_legal PLAYER_O)
              still_clock 0%nat initial_state
              (new_minimax_agent (R := Z) (Some 1%Z) 0%Z "x")
              (new_minimax_agent (R := Z) (Some 2%Z) 0%Z "o") []
              initial_state_standard (le_n _)) as (o & logs & agents & Hp).
  rewrite <- play_game_eq in Hp.
  exists o, logs, agents. split; [exact Hp |].
  exact (proj1 (minimax_agent_never_loses
                  (new_minimax_agent (R := Z) (Some 1%Z) 0%Z "x")
                  (new_minimax_agent (R := Z) (Some 2%Z) 0%Z "o")
                  still_clock o logs) agents Hp).
Defined.

End PlayWitnesses.
